(** * CookieCutterMonster: the image-processing service, embedded in Rocq

    The development follows the image-processing service (the module whose
    default export is [processImage]): the point-reduction filter
    [getThreeVector], the ring selection of [getScaledOutlineShape], the
    extrusion policy of [generateSTL], the contour classification of
    [onImageLoad], the click handler [updateContourSelection] and the
    file-name sanitisation of [saveTextAsFile].

    Numbers.  Contour coordinates ([data32S]) and raster dimensions are
    integers ([Z]).  A JavaScript number is modelled by an exact rational
    ([Q]) wherever a statement is about sizes, areas, settings and which
    branch a comparison of well-separated values takes; rounding error, NaN
    and the infinities are outside that model.  The point-reduction filter
    compares numbers that can lie one rounding error apart, so it is
    embedded twice: over the rationals (module [Filter]), for what does not
    depend on rounding, and over the IEEE 754 double-precision numbers that
    the code computes with (module [Doubles]), for what the keep test
    decides.

    The renderer, the camera and the orbit controls are not modelled: the
    scene is what [generateSTL] leaves in [scene.children]. *)

From Stdlib Require Import ZArith QArith Qabs Qround Qpower Lia Lqa Bool.
From Stdlib Require Import Ascii String.
From Stdlib Require PrimFloat FloatOps SpecFloat FloatAxioms Uint63.
From stdpp Require Import base option list.

Local Open Scope Q_scope.

(** ** Comparisons of numbers *)

(** [a < b] on JavaScript numbers, as a boolean. *)
Definition Qltb (a b : Q) : bool := negb (Qle_bool b a).

(** ** Contours and vectors *)

(** An OpenCV contour: the rows of an N x 1 two-channel [CV_32S] matrix,
    row [i] holding [data32S[2i]] and [data32S[2i+1]]. *)
Definition Contour : Type := list (Z * Z).

(** [THREE.Vector2]. *)
Record Vector2 : Type := mkVector2 { vx : Q; vy : Q }.

(** ** [getThreeVector]: the point-reduction filter, on exact numbers *)

Module Filter.

(** The loop state: the array being built and the last-kept tracker. *)
Record Loop : Type := mkLoop {
  cPoints : list Vector2;
  lastX : Q;
  lastY : Q
}.

(** [var lastX = -1000; var lastY = -1000]. *)
Definition sentinel : Vector2 := mkVector2 (-1000) (-1000).

Definition start : Loop := mkLoop [] (vx sentinel) (vy sentinel).

(** The condition of the [if] in the loop body, disjunct by disjunct. *)
Definition keepTest (lastX lastY tolerace currentX currentY : Q) : bool :=
  Qltb (lastX + tolerace) currentX
  || Qltb currentX (lastX - tolerace)
  || Qltb (lastY + tolerace) currentY
  || Qltb currentY (lastY - tolerace).

(** One iteration of the [for] loop on row [(x, y)]. *)
Definition body (scale tolerace : Q) (st : Loop) (row : Z * Z) : Loop :=
  let currentX := inject_Z (fst row) * scale in
  let currentY := inject_Z (snd row) * scale in
  if keepTest (lastX st) (lastY st) tolerace currentX currentY
  then mkLoop (cPoints st ++ [mkVector2 currentX currentY]) currentX currentY
  else st.

Definition run (scale tolerace : Q) (st : Loop) (cnt : Contour) : Loop :=
  fold_left (body scale tolerace) cnt st.

Definition getThreeVector (cnt : Contour) (scaleF tolerace : Q)
  : list Vector2 :=
  cPoints (run scaleF tolerace start cnt).

(** *** The filter in the words of the specification *)

(** The scaled point of a contour row. *)
Definition scaled (scale : Q) (row : Z * Z) : Vector2 :=
  mkVector2 (inject_Z (fst row) * scale) (inject_Z (snd row) * scale).

(** "differs from the last kept point by more than [tolerance] in at
    least one axis". *)
Definition differs (tolerance : Q) (kept p : Vector2) : Prop :=
  tolerance < Qabs (vx p - vx kept) \/ tolerance < Qabs (vy p - vy kept).

Definition differsb (tolerance : Q) (kept p : Vector2) : bool :=
  Qltb tolerance (Qabs (vx p - vx kept))
  || Qltb tolerance (Qabs (vy p - vy kept)).

(** The greedy subsequence: scan in order, keep what differs from the
    last kept point, which then becomes the point kept. *)
Fixpoint greedy (tolerance : Q) (kept : Vector2) (pts : list Vector2)
  : list Vector2 :=
  match pts with
  | [] => []
  | p :: rest =>
      if differsb tolerance kept p
      then p :: greedy tolerance p rest
      else greedy tolerance kept rest
  end.

(** The point the tracker holds after the output [out] was produced. *)
Definition lastKept (out : list Vector2) : Vector2 := List.last out sentinel.

End Filter.

(** ** [getThreeVector] in double precision

    The filter once more, on the numbers that the code computes with: the
    products [data32S[k] * scale], the sums [lastX + tolerace] and the
    differences [lastX - tolerace] are IEEE 754 binary64 operations, each
    rounded to nearest, and [<] and [>] compare doubles. *)

Module Doubles.

Import PrimFloat.

(** A JavaScript number. *)
Definition number : Type := float.

(** The number of an integer: of an element of the [Int32Array]
    [data32S], or of an integer literal.  The conversion is exact below
    2^53. *)
Definition integer (z : Z) : number :=
  match z with
  | Z0 => zero
  | Zpos _ => of_uint63 (Uint63.of_Z z)
  | Zneg p => opp (of_uint63 (Uint63.of_Z (Zpos p)))
  end.

(** The number of a decimal literal [n / 10^k], such as [.1] or [.3]: the
    double nearest to it, which is also the correctly rounded quotient of
    the two integers. *)
Definition decimal (n : Z) (k : positive) : number :=
  div (integer n) (integer (Zpos (10 ^ k))).

(** The rational that a finite double stands for, in lowest terms. *)
Definition exact (x : number) : option Q :=
  match FloatOps.Prim2SF x with
  | SpecFloat.S754_zero _ => Some 0
  | SpecFloat.S754_finite s m e =>
      let v := inject_Z (Zpos m) * Qpower 2 e in
      Some (Qred (if s then - v else v))
  | _ => None
  end.

(** A number other than [NaN], [Infinity] and [-Infinity]. *)
Definition finite (x : number) : Prop := exists q, exact x = Some q.

(** [THREE.Vector2]. *)
Record Vector2 : Type := mkVector2 { vx : number; vy : number }.

Definition finitePoint (p : Vector2) : Prop := finite (vx p) /\ finite (vy p).

Record Loop : Type := mkLoop {
  cPoints : list Vector2;
  lastX : number;
  lastY : number
}.

(** [var lastX = -1000; var lastY = -1000]. *)
Definition sentinel : Vector2 :=
  mkVector2 (integer (-1000)) (integer (-1000)).

Definition start : Loop := mkLoop [] (vx sentinel) (vy sentinel).

(** The condition of the [if] in the loop body, disjunct by disjunct;
    [a > b] is [b < a]. *)
Definition keepTest (lastX lastY tolerace currentX currentY : number)
  : bool :=
  ltb (add lastX tolerace) currentX
  || ltb currentX (sub lastX tolerace)
  || ltb (add lastY tolerace) currentY
  || ltb currentY (sub lastY tolerace).

(** One iteration of the [for] loop on row [(x, y)]. *)
Definition body (scale tolerace : number) (st : Loop) (row : Z * Z) : Loop :=
  let currentX := mul (integer (fst row)) scale in
  let currentY := mul (integer (snd row)) scale in
  if keepTest (lastX st) (lastY st) tolerace currentX currentY
  then mkLoop (cPoints st ++ [mkVector2 currentX currentY]) currentX currentY
  else st.

Definition run (scale tolerace : number) (st : Loop) (cnt : Contour) : Loop :=
  fold_left (body scale tolerace) cnt st.

Definition getThreeVector (cnt : Contour) (scaleF tolerace : number)
  : list Vector2 :=
  cPoints (run scaleF tolerace start cnt).

(** *** The filter in words *)

(** The scaled point of a contour row. *)
Definition scaled (scale : number) (row : Z * Z) : Vector2 :=
  mkVector2 (mul (integer (fst row)) scale) (mul (integer (snd row)) scale).

(** "differs from the last kept point by more than [tolerance] in at
    least one axis", on the values that the doubles stand for. *)
Definition exceeds (tolerance kept p : number) : bool :=
  match exact tolerance, exact kept, exact p with
  | Some t, Some k, Some c => Qltb t (Qabs (c - k))
  | _, _, _ => false
  end.

Definition differs (tolerance : number) (kept p : Vector2) : bool :=
  exceeds tolerance (vx kept) (vx p) || exceeds tolerance (vy kept) (vy p).

(** "the greedy subsequence of scaled points under that per-axis
    tolerance predicate". *)
Fixpoint greedyDiffers (tolerance : number) (kept : Vector2)
    (pts : list Vector2) : list Vector2 :=
  match pts with
  | [] => []
  | p :: rest =>
      if differs tolerance kept p
      then p :: greedyDiffers tolerance p rest
      else greedyDiffers tolerance kept rest
  end.

(** What the code tests: in x or in y, the point lies above the rounded
    sum [kept + tolerance] or below the rounded difference
    [kept - tolerance]. *)
Definition outside (tolerance : number) (kept p : Vector2) : Prop :=
  ltb (add (vx kept) tolerance) (vx p) = true
  \/ ltb (vx p) (sub (vx kept) tolerance) = true
  \/ ltb (add (vy kept) tolerance) (vy p) = true
  \/ ltb (vy p) (sub (vy kept) tolerance) = true.

Definition outsideb (tolerance : number) (kept p : Vector2) : bool :=
  keepTest (vx kept) (vy kept) tolerance (vx p) (vy p).

(** The greedy subsequence under that test. *)
Fixpoint greedy (tolerance : number) (kept : Vector2) (pts : list Vector2)
  : list Vector2 :=
  match pts with
  | [] => []
  | p :: rest =>
      if outsideb tolerance kept p
      then p :: greedy tolerance p rest
      else greedy tolerance kept rest
  end.

(** The point the tracker holds after the output [out] was produced. *)
Definition lastKept (out : list Vector2) : Vector2 := List.last out sentinel.

End Doubles.

(** ** Rounding to nearest, on the specification of the doubles

    The operations of [PrimFloat] are specified on [SpecFloat.spec_float],
    a sign, a mantissa and an exponent.  A finite double of exponent [e] is
    valid when [e >= -1074], so that its value times 2^1074 is an integer. *)

Module Rounding.

Import SpecFloat.

Local Open Scope Z_scope.

(** Validity in binary64: the mantissa is canonical for the exponent. *)
Definition valid (x : spec_float) : bool :=
  valid_binary FloatOps.prec FloatOps.emax x.

(** The value of a finite double, times 2^1074. *)
Definition scaledValue (x : spec_float) : Z :=
  match x with
  | S754_finite s m e => cond_Zopp s (Zpos m * 2 ^ (e + 1074))
  | _ => 0
  end.

Definition isFinite (x : spec_float) : bool :=
  match x with
  | S754_zero _ | S754_finite _ _ _ => true
  | _ => false
  end.

Definition value (x : PrimFloat.float) : Z :=
  scaledValue (FloatOps.Prim2SF x).

Definition finiteb (x : PrimFloat.float) : bool :=
  isFinite (FloatOps.Prim2SF x).

(** The double [r] has sign [s] and magnitude [w / 2^1074], infinite when
    [w] is too large for a double. *)
Definition carries (s : bool) (w : Z) (r : spec_float) : Prop :=
  (w = 0 /\ r = S754_zero s)
  \/ (exists m e, r = S754_finite s m e /\ -1074 <= e
                  /\ Zpos m * 2 ^ (e + 1074) = w)
  \/ (r = S754_infinity s /\ 2 ^ (1024 + 1074) <= w).

(** [w] is a neighbour of [v] on the grid of step [2^f], the exponent [f]
    being canonical for [v]: [v] lies between [q] and [q + 1] steps, [w] is
    one of the two, and the upper one only if [v] is not the lower one. *)
Definition nearOnGrid (v w : Z) : Prop :=
  exists q m1 f,
    -1074 <= f
    /\ 0 <= q
    /\ w = m1 * 2 ^ (f + 1074)
    /\ q * 2 ^ (f + 1074) <= v < (q + 1) * 2 ^ (f + 1074)
    /\ (m1 = q \/ (m1 = q + 1 /\ q * 2 ^ (f + 1074) < v))
    /\ (-1074 < f -> 2 ^ 52 <= q).

(** A double that is zero, positive or [+Infinity]. *)
Definition notNegative (x : spec_float) : Prop :=
  match x with
  | S754_zero _ | S754_finite false _ _ | S754_infinity false => True
  | _ => False
  end.

(** A double that is negative or [-Infinity]. *)
Definition negative (x : spec_float) : Prop :=
  match x with
  | S754_finite true _ _ | S754_infinity true => True
  | _ => False
  end.

(** No valid finite double lies strictly between the value [v / 2^1074]
    and the double [r]: [r < c] fails for [c <= v], and [c < r] for
    [v <= c]. *)
Definition roundsBetween (v : Z) (r : spec_float) : Prop :=
  forall c, valid c = true -> isFinite c = true ->
    (scaledValue c <= v -> SFltb r c = false)
    /\ (v <= scaledValue c -> SFltb c r = false).

End Rounding.

(** ** Exceptions *)

(** What a JavaScript call does besides returning: a [TypeError] (a
    property read on [undefined], an [undefined] handed to a binding that
    wants an integer) or an exception raised inside OpenCV. *)
Inductive Error : Type := TypeError | CvException.

Inductive Result (A : Type) : Type :=
| Ok (a : A)
| Throw (e : Error).

Arguments Ok {A} a.
Arguments Throw {A} e.

#[export] Instance Result_ret : MRet Result := fun _ a => Ok a.

#[export] Instance Result_bind : MBind Result := fun _ _ k r =>
  match r with
  | Ok a => k a
  | Throw e => Throw e
  end.

(** [v.get(i)] of an embind vector ([cv.MatVector]): the element, or
    [undefined] past the end. *)
Definition get {A : Type} (v : list A) (i : nat) : option A := v !! i.

(** Reading a property of a value that may be [undefined]. *)
Definition defined {A : Type} (o : option A) : Result A :=
  match o with
  | Some a => Ok a
  | None => Throw TypeError
  end.

(** ** The computer-vision engine

    OpenCV.js is consumed through the calls below, with the arguments that
    the service leaves variable.  Nothing is assumed about what they
    compute. *)

Inductive BorderType : Type := BORDER_WRAP | BORDER_REPLICATE.
Inductive ColorCode : Type := COLOR_RGBA2GRAY | COLOR_GRAY2RGBA.
Inductive ThresholdType : Type := THRESH_BINARY | THRESH_BINARY_INV.

Record Scalar : Type := mkScalar { v0 : Z; v1 : Z; v2 : Z; v3 : Z }.

Record Rect : Type := mkRect {
  rect_x : Z; rect_y : Z; rect_width : Z; rect_height : Z
}.

Class OpenCV : Type := {
  Mat : Type;
  rows : Mat -> Z;
  cols : Mat -> Z;
  (** [cv.Mat.zeros(rows, cols, cv.CV_8UC3)] *)
  zeros : Q -> Q -> Mat;
  (** [cv.copyMakeBorder(src, dst, o, o, o, o, borderType)] *)
  copyMakeBorder : Mat -> Z -> BorderType -> Mat;
  cvtColor : Mat -> ColorCode -> Mat;
  (** [cv.adaptiveThreshold(src, src, 255, ADAPTIVE_THRESH_GAUSSIAN_C,
      THRESH_BINARY, 5, 1)] *)
  adaptiveThreshold : Mat -> Mat;
  (** [cv.threshold(src, dst, thresh, maxval, type)] *)
  threshold : Mat -> Q -> Q -> ThresholdType -> Mat;
  (** [cv.findContours(src, contours, hierarchy, RETR_LIST,
      CHAIN_APPROX_SIMPLE)] *)
  findContours : Mat -> list Contour;
  (** [cv.contourArea(cnt, oriented)] *)
  contourArea : Contour -> bool -> Q;
  boundingRect : Contour -> Rect;
  (** [cv.drawContours(img, contours, i, color, thickness, LINE_8,
      hierarchy, 100)], for [i] within the vector *)
  drawContours : Mat -> list Contour -> nat -> Scalar -> Z -> Mat;
  (** [cv.line(img, pt1, pt2, color, thickness)] *)
  line : Mat -> Z * Z -> Z * Z -> Scalar -> Q -> Mat;
  (** [cv.resize(src, dst, new cv.Size(w, h), 0, 0, INTER_LINEAR)] *)
  resize : Mat -> Q -> Q -> Mat;
  (** [mat.ucharPtr(y, x)[0]] *)
  ucharPtr : Mat -> Q -> Q -> Z
}.

(** [cv.drawContours] called with an index [i >= 0]: on an empty vector it
    returns at once and leaves the image as it is; on any other vector it
    asserts that [i] is below the size of the vector and raises when it is
    not. *)
Definition drawContour `{OpenCV} (img : Mat) (contours : list Contour)
    (i : nat) (color : Scalar) (thickness : Z) : Result Mat :=
  match contours with
  | [] => Ok img
  | _ :: _ =>
      match get contours i with
      | Some _ => Ok (drawContours img contours i color thickness)
      | None => Throw CvException
      end
  end.

(** A [for (let i = 0; i < v.size(); ++i)] loop over a vector, the body
    receiving the index and [v.get(i)]. *)
Fixpoint forEachFrom {S A : Type} (body : S -> nat -> A -> S)
    (i : nat) (v : list A) (st : S) : S :=
  match v with
  | [] => st
  | a :: rest => forEachFrom body (Datatypes.S i) rest (body st i a)
  end.

Definition forEach {S A : Type} (body : S -> nat -> A -> S)
    (v : list A) (st : S) : S :=
  forEachFrom body 0 v st.

(** ** The geometry kernel: shapes and extrusions, kept symbolic *)

(** [THREE.Shape]: an outline and its [holes]. *)
Record Shape : Type := mkShape {
  outline : list Vector2;
  holes : list (list Vector2)
}.

(** The bevel fields of an extrude-settings object, when it has them. *)
Record Bevel : Type := mkBevel {
  bevelThickness : Q;
  bevelSize : Q;
  bevelOffset : Q;
  bevelSegments : Z
}.

Record ExtrudeSettings : Type := mkExtrudeSettings {
  steps : Z;
  depth : Q;
  bevelEnabled : bool;
  bevel : option Bevel
}.

(** One [ExtrudeBufferGeometry], with the translation along z applied to
    it before it is merged. *)
Record Extrusion : Type := mkExtrusion {
  shape : Shape;
  settings : ExtrudeSettings;
  translationZ : Q
}.

(** [THREE.Geometry] after [mergeMesh] calls: the merged pieces, in merge
    order. *)
Definition Geometry : Type := list Extrusion.

Inductive Object3D : Type :=
| Mesh (geometry : Geometry) (color : Z)
| PointLight (color : Z) (intensity distance : Q) (position : Q * Q * Q).

(** ** [Math.round], [Math.ceil]

    On the exact value of their argument.  [Math.round] rounds a half up;
    where the exact value of a product is a half-way number, the double
    that the code rounds can lie just below it, and the code then lands on
    the pixel below the one computed here. *)

Definition Math_round (q : Q) : Z := Qfloor (q + (1 # 2)).
Definition Math_ceil (q : Q) : Z := Qceiling q.

(** ** [getScaledOutlineShape]: draw and detect *)

Module Ring.

(** The three variables of the selection loop. *)
Record Pick : Type := mkPick {
  largestContour : nat;
  otherContour : nat;
  maxArea : Q
}.

(** [let largestContour = 1; let otherContour = 0; let maxArea = 0.0]. *)
Definition start : Pick := mkPick 1 0 0.

Section WithEngine.
Context `{cv : OpenCV}.

(** The body of "find the biggest (reasonable Contour)". *)
Definition body (boundaryCountourAreaCutoff : Q)
    (st : Pick) (i : nat) (ncnt : Contour) : Pick :=
  let area := contourArea ncnt false in
  if Qltb (maxArea st * 1) (area * 1) && Qltb area boundaryCountourAreaCutoff
  then mkPick i (largestContour st) area
  else st.

Definition pick (boundaryCountourAreaCutoff : Q) (contours : list Contour)
  : Pick :=
  forEach (body boundaryCountourAreaCutoff) contours start.

(** The stroke of one contour edge, from row [i] to row [(i + 1) % rows]. *)
Definition stroke (cnt : Contour) (rect : Rect) (scale : Q) (walloffset : Z)
    (lineThickness : Q) (dst : Mat) (i : nat) (row : Z * Z) : Mat :=
  let nexti := (Datatypes.S i mod length cnt)%nat in
  let next := nth nexti cnt (0, 0)%Z in
  let X1 := Math_round (scale * inject_Z (fst row - rect_x rect)
                        + inject_Z walloffset) in
  let Y1 := Math_round (scale * inject_Z (snd row - rect_y rect)
                        + inject_Z walloffset) in
  let X2 := Math_round (scale * inject_Z (fst next - rect_x rect)
                        + inject_Z walloffset) in
  let Y2 := Math_round (scale * inject_Z (snd next - rect_y rect)
                        + inject_Z walloffset) in
  line dst (X1, Y1) (X2, Y2) (mkScalar 255 255 255 0) lineThickness.

(** The raster handed to [findContours]: the contour stroked at ten times
    the output size, inverted and binarised. *)
Definition ringRaster (cnt : Contour)
    (width maxBoundaryOffetWidth maxDesiredOut : Q) : Mat :=
  let rect := boundingRect cnt in
  let maxCntDimension := Z.max (rect_width rect) (rect_height rect) in
  let walloffset := Math_ceil ((maxBoundaryOffetWidth + 1) * 12) in
  let side := maxDesiredOut * 10 + inject_Z walloffset * 2 in
  let dst := zeros side side in
  let lineThickness := 10 * width in
  let scale := (maxDesiredOut * 10) / inject_Z maxCntDimension in
  let dst := forEach (stroke cnt rect scale walloffset lineThickness) cnt dst in
  let dst := threshold dst 70 255 THRESH_BINARY_INV in
  let dst := cvtColor dst COLOR_RGBA2GRAY in
  threshold dst 120 200 THRESH_BINARY.

Definition getScaledOutlineShape (cnt : Contour)
    (width maxBoundaryOffetWidth maxDesiredOut tol : Q) : Result Shape :=
  let dst := ringRaster cnt width maxBoundaryOffetWidth maxDesiredOut in
  let contours := findContours dst in
  let boundaryCountourAreaCutoff :=
    inject_Z (cols dst * rows dst) * (95 # 100) in
  let p := pick boundaryCountourAreaCutoff contours in
  ncnt ← defined (get contours (largestContour p));
  let outer := Filter.getThreeVector ncnt (1 # 10) tol in
  ncnt' ← defined (get contours (otherContour p));
  let inner := Filter.getThreeVector ncnt' (1 # 10) tol in
  Ok (mkShape outer [inner]).

End WithEngine.

(** *** The ring in the words of the specification *)

(** A traced contour survives when its area is positive and below the
    cutoff that removes the background frame. *)
Definition survives (area : Contour -> Q) (cutoff : Q) (c : Contour) : Prop :=
  0 < area c /\ area c < cutoff.

(** [c] is the contour of index [i], and no surviving contour is larger. *)
Definition isLargest (area : Contour -> Q) (cutoff : Q)
    (contours : list Contour) (i : nat) : Prop :=
  exists c, get contours i = Some c /\ survives area cutoff c /\
    forall j d, get contours j = Some d -> survives area cutoff d ->
      area d <= area c.

(** [c] is the contour of index [i], it is not the largest one [o], and
    every surviving contour other than [o] is at most as large: with [o], it
    is one of the two largest surviving contours. *)
Definition isOtherOfTwoLargest (area : Contour -> Q) (cutoff : Q)
    (contours : list Contour) (o i : nat) : Prop :=
  i <> o /\
  exists c, get contours i = Some c /\ survives area cutoff c /\
    forall j d, j <> o -> get contours j = Some d -> survives area cutoff d ->
      area d <= area c.

End Ring.

(** ** The cutter configuration held by [cookieState] *)

Module CookieState.

Record t : Type := mk {
  thickness : Q;
  depth : Q;
  tolerance : Q;
  cutterBevel : bool;
  handleRound : bool;
  size : Q
}.

End CookieState.

(** ** [generateSTL]: the extrusion policy *)

Module Assembler.

Definition handleWidth : Q := 42 # 10.
Definition handleThickness : Q := 2.

Definition extrudeSettings (height width : Q) : ExtrudeSettings :=
  mkExtrudeSettings 1 0 true (Some (mkBevel (height / 2) (width / 2) 0 1)).

(** [extrudeSettings2], after [if (!bevelCutter) extrudeSettings2.depth =
    height]. *)
Definition extrudeSettings2 (height : Q) (bevelCutter : bool)
  : ExtrudeSettings :=
  let s := mkExtrudeSettings 1 (height / 2) false None in
  if negb bevelCutter
  then mkExtrudeSettings (steps s) height (bevelEnabled s) (bevel s)
  else s.

Definition handleExtrudeSettings (handleRound : bool) : ExtrudeSettings :=
  mkExtrudeSettings 1 handleThickness handleRound
    (Some (mkBevel (6 # 10) (6 # 10) 0 5)).

Section WithEngine.
Context `{cv : OpenCV}.

(** The geometry [geom] that [generateSTL] merges, before it touches the
    scene. *)
Definition geom (cfg : CookieState.t) (cnt : Contour) : Result Geometry :=
  let height := CookieState.depth cfg in
  let width := CookieState.thickness cfg in
  let tolerance := CookieState.tolerance cfg in
  let bevelCutter := CookieState.cutterBevel cfg in
  let handleRound := CookieState.handleRound cfg in
  let cookieSize := CookieState.size cfg in
  let wall (s : Shape) :=
    mkExtrusion s (extrudeSettings2 height bevelCutter) 0 in
  let cap (s : Shape) :=
    mkExtrusion s (extrudeSettings height width) (height / 2) in
  let handle (s : Shape) :=
    mkExtrusion s (handleExtrudeSettings handleRound) 0 in
  if bevelCutter
  then
    outShape ← Ring.getScaledOutlineShape cnt (width / 2) handleWidth
                 cookieSize tolerance;
    outShape2 ← Ring.getScaledOutlineShape cnt (width * 3 / 2) handleWidth
                  cookieSize tolerance;
    handleoutShape ← Ring.getScaledOutlineShape cnt handleWidth handleWidth
                       cookieSize tolerance;
    Ok [wall outShape2; cap outShape; handle handleoutShape]
  else
    outShape ← Ring.getScaledOutlineShape cnt (width / 2) handleWidth
                 cookieSize tolerance;
    handleoutShape ← Ring.getScaledOutlineShape cnt handleWidth handleWidth
                       cookieSize tolerance;
    Ok [wall outShape; handle handleoutShape].

End WithEngine.

End Assembler.

(** ** [onImageLoad]: the classification loops *)

Module Classifier.

Section WithEngine.
Context `{cv : OpenCV}.

(** What the first loop reads and writes. *)
Record Scan : Type := mkScan {
  largestContour : nat;
  maxArea : Q;
  clockwise : bool;
  dst : Mat;
  contourMap : Mat;
  contourNumMap : list nat;
  contIndex : Z
}.

(** [let largestContour = 0; let maxArea = 0.0; let clockwise = true], with
    [contourNumMap = []] and [contIndex = 1]. *)
Definition start (dst contourMap : Mat) : Scan :=
  mkScan 0 0 true dst contourMap [] 1.

(** The candidate test, written three times in [onImageLoad] and once in
    [updateContourSelection]. *)
Definition selectable (boundaryCountourAreaCutoff area : Q) : bool :=
  Qltb (boundaryCountourAreaCutoff * (1 # 10)) area
  && Qltb area boundaryCountourAreaCutoff.

Definition blue : Scalar := mkScalar 0 0 255 255.
Definition red : Scalar := mkScalar 255 0 0 255.
Definition label (contIndex : Z) : Scalar := mkScalar contIndex 0 255 255.

(** The body of "find the biggest (reasonable Contour)". *)
Definition body (contours : list Contour) (boundaryCountourAreaCutoff : Q)
    (st : Scan) (i : nat) (cnt : Contour) : Scan :=
  let area := contourArea cnt true in
  let cw := negb (Qltb area 0) in
  let area := if Qltb area 0 then - area else area in
  let st :=
    if selectable boundaryCountourAreaCutoff area
    then mkScan (largestContour st) (maxArea st) (clockwise st)
           (drawContours (dst st) contours i blue 1)
           (drawContours (contourMap st) contours i
              (label (contIndex st)) 30)
           (contourNumMap st ++ [i])
           (contIndex st + 1)%Z
    else st in
  if Qltb area boundaryCountourAreaCutoff
     && Qltb (maxArea st * 1) (area * 1)
  then mkScan i area cw (dst st) (contourMap st) (contourNumMap st)
         (contIndex st)
  else st.

(** The body of the two later loops, which repaint the index map with a
    thinner stroke. *)
Definition repaint (contours : list Contour) (boundaryCountourAreaCutoff : Q)
    (thickness : Z) (st : Mat * Z) (i : nat) (cnt : Contour) : Mat * Z :=
  let area := contourArea cnt false in
  if selectable boundaryCountourAreaCutoff area
  then (drawContours (fst st) contours i (label (snd st)) thickness,
        (snd st + 1)%Z)
  else st.

(** The highlight, again drawn in [updateContourSelection]. *)
Definition outlineCandidates (contours : list Contour)
    (boundaryCountourAreaCutoff : Q) (dst : Mat) (i : nat) (cnt : Contour)
  : Mat :=
  let area := contourArea cnt true in
  let area := if Qltb area 0 then - area else area in
  if selectable boundaryCountourAreaCutoff area
  then drawContours dst contours i blue 1
  else dst.

End WithEngine.

(** The unsigned area of a boundary. *)
Definition unsignedArea `{cv : OpenCV} (cnt : Contour) : Q :=
  Qabs (contourArea cnt true).

(** After the rows [pre]: [maxArea] bounds every area below the cutoff, and
    is either still 0 or the area of row [largestContour], the first row of
    that area. *)
Definition scanned `{cv : OpenCV} (cut : Q) (pre : list Contour) (st : Scan)
  : Prop :=
  0 <= maxArea st
  /\ (forall j c, pre !! j = Some c -> unsignedArea c < cut ->
        unsignedArea c <= maxArea st)
  /\ (maxArea st == 0
      \/ exists b, pre !! largestContour st = Some b
           /\ maxArea st == unsignedArea b
           /\ unsignedArea b < cut
           /\ forall j c, (j < largestContour st)%nat -> pre !! j = Some c ->
                unsignedArea c < cut -> unsignedArea c < unsignedArea b).

End Classifier.

(** ** Strings and the file-name pattern *)

(** A JavaScript string: its UTF-16 code units. *)
Definition JSString : Type := list N.

Definition codeUnits (s : string) : JSString :=
  map N_of_ascii (list_ascii_of_string s).

Module Exporter.

(** An item of a character class: a range [lo-hi] or one character. *)
Inductive ClassItem : Type :=
| Range (lo hi : N)
| Single (c : N).

Definition itemMatches (c : N) (it : ClassItem) : bool :=
  match it with
  | Range lo hi => (lo <=? c)%N && (c <=? hi)%N
  | Single d => (c =? d)%N
  end.

(** A negated class [[^...]] matches the code units that no item matches. *)
Definition negatedClass (items : list ClassItem) (c : N) : bool :=
  negb (existsb (itemMatches c) items).

(** [s.replace(/C/g, by)] for a one-character pattern [C]. *)
Fixpoint replaceAll (matches : N -> bool) (by_ : JSString) (s : JSString)
  : JSString :=
  match s with
  | [] => []
  | c :: rest =>
      if matches c
      then by_ ++ replaceAll matches by_ rest
      else c :: replaceAll matches by_ rest
  end.

Definition ch (a : ascii) : N := N_of_ascii a.

(** The items of [/[^a-zA-Z0-9_-]/g]. *)
Definition pattern : list ClassItem :=
  [ Range (ch "a") (ch "z"); Range (ch "A") (ch "Z");
    Range (ch "0") (ch "9"); Single (ch "_"); Single (ch "-") ].

Definition sanitizedFilename (saveFilename : JSString) : JSString :=
  replaceAll (negatedClass pattern) (codeUnits "_") saveFilename.

Definition fileNameToSaveAs (saveFilename : JSString) : JSString :=
  sanitizedFilename saveFilename ++ codeUnits ".stl".

(** *** The restricted character set in the words of the specification *)

Definition isAsciiLetter (c : N) : Prop :=
  (65 <= c <= 90)%N \/ (97 <= c <= 122)%N.
Definition isDigit (c : N) : Prop := (48 <= c <= 57)%N.
Definition isHyphen (c : N) : Prop := c = 45%N.
Definition isUnderscore (c : N) : Prop := c = 95%N.

Definition allowed (c : N) : Prop :=
  isAsciiLetter c \/ isDigit c \/ isHyphen c \/ isUnderscore c.

End Exporter.

(** ** The service: its variables and its event handlers *)

Definition MAX_DIM : Q := 500.

(** How a handler ends. *)
Inductive Completion : Type :=
| Normal
| Abrupt (e : Error).

Module App.

Section WithEngine.
Context `{cv : OpenCV}.

(** The variables that [processImage] closes over, with what the page
    shows ([canvasOutput], the last [imshow]), the children of [scene], the
    number of [animate] loops started and the files handed to the browser. *)
Record State : Type := mkState {
  imgElement : Mat;
  saveFilename : JSString;
  cookieState : CookieState.t;
  contours : list Contour;
  contourMap : option Mat;
  contourNumMap : list nat;
  lastCnt : option Contour;
  canvasOutput : option Mat;
  scene : list Object3D;
  animations : nat;
  downloads : list (JSString * list Object3D)
}.

Definition setTrace (st : State) (cs : list Contour) (m : Mat)
    (nums : list nat) : State :=
  mkState (imgElement st) (saveFilename st) (cookieState st) cs (Some m) nums
    (lastCnt st) (canvasOutput st) (scene st) (animations st) (downloads st).

Definition setContourMap (st : State) (m : Mat) : State :=
  mkState (imgElement st) (saveFilename st) (cookieState st) (contours st)
    (Some m) (contourNumMap st) (lastCnt st) (canvasOutput st) (scene st)
    (animations st) (downloads st).

Definition imshow (st : State) (img : Mat) : State :=
  mkState (imgElement st) (saveFilename st) (cookieState st) (contours st)
    (contourMap st) (contourNumMap st) (lastCnt st) (Some img) (scene st)
    (animations st) (downloads st).

Definition setLastCnt (st : State) (cnt : Contour) : State :=
  mkState (imgElement st) (saveFilename st) (cookieState st) (contours st)
    (contourMap st) (contourNumMap st) (Some cnt) (canvasOutput st) (scene st)
    (animations st) (downloads st).

(** [lastCnt = cnt] when [contours.get] returned [undefined]. *)
Definition setLastCntUndefined (st : State) : State :=
  mkState (imgElement st) (saveFilename st) (cookieState st) (contours st)
    (contourMap st) (contourNumMap st) None (canvasOutput st) (scene st)
    (animations st) (downloads st).

Definition setScene (st : State) (children : list Object3D) : State :=
  mkState (imgElement st) (saveFilename st) (cookieState st) (contours st)
    (contourMap st) (contourNumMap st) (lastCnt st) (canvasOutput st) children
    (animations st) (downloads st).

(** [animate()]: one more [requestAnimationFrame] loop. *)
Definition animate (st : State) : State :=
  mkState (imgElement st) (saveFilename st) (cookieState st) (contours st)
    (contourMap st) (contourNumMap st) (lastCnt st) (canvasOutput st)
    (scene st) (S (animations st)) (downloads st).

Definition download (st : State) (name : JSString) : State :=
  mkState (imgElement st) (saveFilename st) (cookieState st) (contours st)
    (contourMap st) (contourNumMap st) (lastCnt st) (canvasOutput st)
    (scene st) (animations st) (downloads st ++ [(name, scene st)]).

(** [generateSTL(cnt)]: the old children of the scene are removed and the
    merged mesh and one light are added; the second light is created and
    never added.  An exception in the outline generator leaves the scene as
    it was. *)
Definition generateSTL (st : State) (cnt : Contour) : State * Completion :=
  match Assembler.geom (cookieState st) cnt with
  | Throw e => (st, Abrupt e)
  | Ok geom =>
      (setScene st [ Mesh geom 11149994;
                     PointLight 16777215 2 200 (50, 50, 50) ],
       Normal)
  end.

(** The tail shared by [onImageLoad] and [updateContourSelection]:
    [lastCnt = cnt; generateSTL(cnt); animate()]. *)
Definition rebuild (st : State) (cnt : Contour) : State * Completion :=
  match generateSTL (setLastCnt st cnt) cnt with
  | (st', Normal) => (animate st', Normal)
  | (st', Abrupt e) => (st', Abrupt e)
  end.

(** The same tail for what [contours.get(i)] returned.  Past the end of
    the vector that is [undefined]: it is stored in [lastCnt], and
    [generateSTL(undefined)] throws in the outline generator, before the
    scene is touched. *)
Definition rebuildFrom (st : State) (cnt : option Contour)
  : State * Completion :=
  match cnt with
  | Some cnt => rebuild st cnt
  | None => (setLastCntUndefined st, Abrupt TypeError)
  end.

(** [cv.resize(dst, dst, dsize, ...)] with [scale = MAX_DIM /
    Math.max(dst.cols, dst.rows)], computed on [dst]. *)
Definition limitOutputSize (dst img : Mat) : Mat :=
  let scale := MAX_DIM / inject_Z (Z.max (cols dst) (rows dst)) in
  resize img (scale * inject_Z (cols dst)) (scale * inject_Z (rows dst)).

Definition onImageLoad (st : State) : State * Completion :=
  let srcPre := imgElement st in
  let offset := 10%Z in
  let src := copyMakeBorder srcPre offset BORDER_WRAP in
  let dst := src in
  let contourMap0 := zeros (inject_Z (rows src)) (inject_Z (cols src)) in
  let src := adaptiveThreshold (cvtColor src COLOR_RGBA2GRAY) in
  let dst := cvtColor (cvtColor dst COLOR_RGBA2GRAY) COLOR_GRAY2RGBA in
  let contours := findContours src in
  let boundaryCountourAreaCutoff :=
    inject_Z (cols src * rows src) * (90 # 100) in
  let scan :=
    forEach (Classifier.body contours boundaryCountourAreaCutoff) contours
      (Classifier.start dst contourMap0) in
  let pass2 :=
    forEach (Classifier.repaint contours boundaryCountourAreaCutoff 10)
      contours (Classifier.contourMap scan, 1%Z) in
  let pass3 :=
    forEach (Classifier.repaint contours boundaryCountourAreaCutoff 3)
      contours (fst pass2, 1%Z) in
  let contourMap := fst pass3 in
  let largestContour := Classifier.largestContour scan in
  let st := setTrace st contours contourMap (Classifier.contourNumMap scan) in
  match drawContour (Classifier.dst scan) contours largestContour
          Classifier.red 2 with
  | Throw e => (st, Abrupt e)
  | Ok dst =>
      let cnt := get contours largestContour in
      let shown := limitOutputSize dst dst in
      let st := setContourMap st (limitOutputSize dst contourMap) in
      rebuildFrom (imshow st shown) cnt
  end.

(** [contourNumMap[co - 1]] for the byte [co] read from the index map. *)
Definition lookupLabel (nums : list nat) (co : Z) : option nat :=
  if (co <? 1)%Z then None else nums !! Z.to_nat (co - 1).

Definition updateContourSelection (st : State) (x y : Q)
  : State * Completion :=
  match contourMap st with
  | None => (st, Normal)
  | Some map =>
      let co := ucharPtr map y x in
      if (co =? 0)%Z then (st, Normal)
      else
        match lookupLabel (contourNumMap st) co with
        | None => (st, Abrupt TypeError)
        | Some co =>
            let srcPre := imgElement st in
            let offset := 10%Z in
            let dst := copyMakeBorder srcPre offset BORDER_REPLICATE in
            let dst :=
              cvtColor (cvtColor dst COLOR_RGBA2GRAY) COLOR_GRAY2RGBA in
            let boundaryCountourAreaCutoff :=
              inject_Z (cols dst * rows dst) * (90 # 100) in
            let dst :=
              forEach (Classifier.outlineCandidates (contours st)
                         boundaryCountourAreaCutoff) (contours st) dst in
            match drawContour dst (contours st) co Classifier.red 2 with
            | Throw e => (st, Abrupt e)
            | Ok dst =>
                let cnt := get (contours st) co in
                rebuildFrom (imshow st (limitOutputSize dst dst)) cnt
            end
        end
  end.

(** [saveTextAsFile()]: the mesh is rebuilt from [lastCnt], then the scene
    is serialised and offered under the sanitised name. *)
Definition saveTextAsFile (st : State) : State * Completion :=
  let fileNameToSaveAs := Exporter.fileNameToSaveAs (saveFilename st) in
  match lastCnt st with
  | None => (st, Abrupt TypeError)
  | Some cnt =>
      match generateSTL st cnt with
      | (st', Normal) => (download st' fileNameToSaveAs, Normal)
      | (st', Abrupt e) => (st', Abrupt e)
      end
  end.

End WithEngine.

End App.

(** ** A small engine to run the service on

    Rasters are reduced to their size and to what tracing them returns;
    areas are computed by the shoelace formula, as OpenCV does for integer
    contours. *)

Module Sample.

Inductive Origin : Type := Photo | Blank.

Record Raster : Type := mkRaster {
  nrows : Z;
  ncols : Z;
  origin : Origin
}.

Fixpoint cross (prev : Z * Z) (pts : Contour) : Z :=
  match pts with
  | [] => 0
  | p :: rest =>
      (fst prev * snd p - snd prev * fst p + cross p rest)%Z
  end.

Definition signedArea (cnt : Contour) : Q :=
  match cnt with
  | [] => 0
  | p :: _ => cross (List.last cnt p) cnt # 2
  end.

Definition bounds (cnt : Contour) : Rect :=
  match cnt with
  | [] => mkRect 0 0 0 0
  | p :: rest =>
      let xmin := fold_left Z.min (map fst rest) (fst p) in
      let xmax := fold_left Z.max (map fst rest) (fst p) in
      let ymin := fold_left Z.min (map snd rest) (snd p) in
      let ymax := fold_left Z.max (map snd rest) (snd p) in
      mkRect xmin ymin (xmax - xmin + 1) (ymax - ymin + 1)
  end.

(** The engine in which tracing a photograph returns [image], tracing a
    raster that started blank returns [ring], and the index map reads
    [labelAt y x]. *)
Definition engine (image ring : list Contour) (labelAt : Q -> Q -> Z)
  : OpenCV := {|
  Mat := Raster;
  rows := nrows;
  cols := ncols;
  zeros := fun r c => mkRaster (Qfloor r) (Qfloor c) Blank;
  copyMakeBorder := fun m o _ =>
    mkRaster (nrows m + 2 * o) (ncols m + 2 * o) (origin m);
  cvtColor := fun m _ => m;
  adaptiveThreshold := fun m => m;
  threshold := fun m _ _ _ => m;
  findContours := fun m =>
    match origin m with Photo => image | Blank => ring end;
  contourArea := fun c oriented =>
    if oriented then signedArea c else Qabs (signedArea c);
  boundingRect := bounds;
  drawContours := fun m _ _ _ _ => m;
  line := fun m _ _ _ _ => m;
  resize := fun m w h => mkRaster (Qfloor h) (Qfloor w) (origin m);
  ucharPtr := fun _ y x => labelAt y x
|}.

(** The axis-parallel rectangle with corners [(x, y)] and [(x + w, y + h)],
    of area [w * h]. *)
Definition box (x y w h : Z) : Contour :=
  [ (x, y); (x + w, y); (x + w, y + h); (x, y + h) ]%Z.

(** An 80 x 80 photograph; padded, it is 100 x 100, so that the frame
    cutoff is 9000 and candidates have an area above 900. *)
Definition photo : Raster := mkRaster 80 80 Photo.

Definition image : list Contour :=
  [ box 0 0 99 99; box 30 30 5 5; box 20 20 40 40; box 25 25 50 60 ].

(** Rings traced on the 886 x 886 raster of a 76 mm cutter. *)
Definition ringInnerOuterFrame : list Contour :=
  [ box 80 80 700 700; box 60 60 760 760; box 0 0 885 885 ].

Definition ringOne : list Contour := [ box 60 60 760 760 ].

Definition ringThree : list Contour :=
  [ box 60 60 760 760; box 100 100 200 200; box 400 100 300 300 ].

Definition ringFrameFirst : list Contour :=
  [ box 0 0 885 885; box 60 60 760 760; box 80 80 700 700 ].

Definition ringFrameAndOne : list Contour :=
  [ box 0 0 885 885; box 60 60 760 760 ].

(** The index map reads label 1 right of column 250 and 0 elsewhere. *)
Definition labelAt (y x : Q) : Z := if Qle_bool x 250 then 0%Z else 1%Z.

Definition defaults (bevel : bool) : CookieState.t :=
  CookieState.mk 1 16 (15 # 100) bevel false 76.

(** The engine for a given trace of the ring raster. *)
Definition tracing (ring : list Contour) : OpenCV :=
  engine image ring labelAt.

(** The service before [onImageLoad], and after it. *)
Definition initial (ring : list Contour) (bevel : bool)
  : @App.State (tracing ring) :=
  @App.mkState (tracing ring) photo (codeUnits "my cookie!")
    (defaults bevel) [] None [] None None [] 0 [].

Definition loaded (ring : list Contour) (bevel : bool)
  : @App.State (tracing ring) :=
  fst (App.onImageLoad (initial ring bevel)).

End Sample.

(** ** The name of the uploaded file ([handleImageChange])

    [withExt.replace(/\.[^/.]+$/, "")] is run by a small backtracking
    matcher: a pattern is a sequence of terms, a term one atom, an atom
    repeated greedily one or more times, or the end of the input. *)

Module Upload.

Inductive Atom : Type :=
| Lit (c : N)
| NotIn (items : list Exporter.ClassItem).

Inductive Term : Type :=
| Once (a : Atom)
| OneOrMore (a : Atom)
| EndOfInput.

Definition atomMatches (a : Atom) (c : N) : bool :=
  match a with
  | Lit d => (c =? d)%N
  | NotIn items => Exporter.negatedClass items c
  end.

(** The match of a pattern at the start of [s]: what follows the match.  A
    repetition takes as many code units as it can and gives them back one
    by one while the rest of the pattern fails. *)
Fixpoint matchAt (ts : list Term) : JSString -> option JSString :=
  match ts with
  | [] => fun s => Some s
  | Once a :: ts' => fun s =>
      match s with
      | c :: r => if atomMatches a c then matchAt ts' r else None
      | [] => None
      end
  | OneOrMore a :: ts' =>
      fix more (s : JSString) : option JSString :=
        match s with
        | c :: r =>
            if atomMatches a c
            then match more r with
                 | Some rest => Some rest
                 | None => matchAt ts' r
                 end
            else None
        | [] => None
        end
  | EndOfInput :: ts' => fun s =>
      match s with
      | [] => matchAt ts' []
      | _ :: _ => None
      end
  end.

(** [s.replace(pattern, by)] without the [g] flag: the leftmost match is
    replaced, and a string without a match is returned as it is. *)
Fixpoint replaceFirst (ts : list Term) (by_ : JSString) (s : JSString)
  : JSString :=
  match matchAt ts s with
  | Some rest => by_ ++ rest
  | None =>
      match s with
      | [] => []
      | c :: r => c :: replaceFirst ts by_ r
      end
  end.

(** [/\.[^/.]+$/]. *)
Definition extension : list Term :=
  [ Once (Lit (Exporter.ch "."));
    OneOrMore (NotIn [ Exporter.Single (Exporter.ch "/");
                       Exporter.Single (Exporter.ch ".") ]);
    EndOfInput ].

(** The [saveFileName] of the [image-changed] event. *)
Definition saveFileName (withExt : JSString) : JSString :=
  replaceFirst extension [] withExt.

End Upload.

(** ** The index map, label by label *)

Module Labels.

Section WithEngine.
Context `{cv : OpenCV}.

(** The area that the first loop of [onImageLoad] compares: the signed
    area, negated when negative. *)
Definition area1 (cnt : Contour) : Q :=
  let area := contourArea cnt true in
  if Qltb area 0 then - area else area.

(** The area that the two later loops compare. *)
Definition area2 (cnt : Contour) : Q := contourArea cnt false.

(** The indices, from [i] on, of the contours that pass the candidate
    test. *)
Fixpoint candidatesFrom (area : Contour -> Q) (cut : Q) (i : nat)
    (cs : list Contour) : list nat :=
  match cs with
  | [] => []
  | c :: rest =>
      if Classifier.selectable cut (area c)
      then i :: candidatesFrom area cut (S i) rest
      else candidatesFrom area cut (S i) rest
  end.

(** Contour [nums[k]] stroked with label [contIndex + k], for every [k]. *)
Fixpoint paintLabels (contours : list Contour) (thickness : Z)
    (contIndex : Z) (nums : list nat) (m : Mat) : Mat :=
  match nums with
  | [] => m
  | i :: rest =>
      paintLabels contours thickness (contIndex + 1) rest
        (drawContours m contours i (Classifier.label contIndex) thickness)
  end.

(** The three passes of [onImageLoad], coarse to fine. *)
Definition indexMap (contours : list Contour) (nums : list nat) (m : Mat)
  : Mat :=
  paintLabels contours 3 1 nums
    (paintLabels contours 10 1 nums (paintLabels contours 30 1 nums m)).

End WithEngine.

End Labels.

(** ** The stroke of the ring, point by point *)

Module Stroke.

(** The pixel on which [getScaledOutlineShape] puts a contour row. *)
Definition endpoint (rect : Rect) (scale : Q) (walloffset : Z)
    (row : Z * Z) : Z * Z :=
  (Math_round (scale * inject_Z (fst row - rect_x rect)
               + inject_Z walloffset),
   Math_round (scale * inject_Z (snd row - rect_y rect)
               + inject_Z walloffset)).

(** [cv.boundingRect] for the rows of [cnt]: every row lies inside. *)
Definition bounding (rect : Rect) (cnt : Contour) : Prop :=
  Forall (fun row : Z * Z =>
            (rect_x rect <= fst row < rect_x rect + rect_width rect)%Z
            /\ (rect_y rect <= snd row < rect_y rect + rect_height rect)%Z)
         cnt.

(** The surviving contours are traced in increasing order of area. *)
Definition increasing (area : Contour -> Q) (cutoff : Q)
    (contours : list Contour) : Prop :=
  forall i j c d, (i < j)%nat ->
    get contours i = Some c -> get contours j = Some d ->
    Ring.survives area cutoff c -> Ring.survives area cutoff d ->
    area c < area d.


(** What the selection loop holds after the rows [pre], when these are in
    increasing order: nothing survived and the picks are the initial ones,
    or [largestContour] is the largest survivor and [otherContour] is the
    largest of the others, or 1 when there is no other. *)
Definition picked (area : Contour -> Q) (cutoff : Q) (pre : list Contour)
    (st : Ring.Pick) : Prop :=
  ((forall j d, pre !! j = Some d -> ~ Ring.survives area cutoff d)
   /\ st = Ring.start)
  \/ exists c, pre !! Ring.largestContour st = Some c
       /\ Ring.survives area cutoff c
       /\ Ring.maxArea st = area c
       /\ (forall j d, pre !! j = Some d -> Ring.survives area cutoff d ->
             j <> Ring.largestContour st -> area d < area c)
       /\ (((forall j d, pre !! j = Some d -> Ring.survives area cutoff d ->
               j = Ring.largestContour st)
            /\ Ring.otherContour st = 1%nat)
           \/ exists e, Ring.otherContour st <> Ring.largestContour st
                /\ pre !! Ring.otherContour st = Some e
                /\ Ring.survives area cutoff e
                /\ forall j d, j <> Ring.largestContour st ->
                     pre !! j = Some d -> Ring.survives area cutoff d ->
                     area d <= area e).

End Stroke.

(** ** The events of one [processImage] call

    [processImage] wires the canvas click to [updateContourSelection] and
    the export button to [saveTextAsFile], then runs [onImageLoad].  The
    application updates [cookieState] on its own; [InputChanged] stands for
    such an update and carries the configuration that [cookieState.get()]
    returns from then on.  A handler that throws leaves the variables as it
    last wrote them, and the page goes on to the next event. *)

Module Events.

Section WithEngine.
Context `{cv : OpenCV}.

Inductive Event : Type :=
| CanvasClick (clientX clientY rectLeft rectTop : Q)
| ExportClick
| InputChanged (cfg : CookieState.t).

Definition setCookieState (st : App.State) (cfg : CookieState.t)
  : App.State :=
  App.mkState (App.imgElement st) (App.saveFilename st) cfg
    (App.contours st) (App.contourMap st) (App.contourNumMap st)
    (App.lastCnt st) (App.canvasOutput st) (App.scene st)
    (App.animations st) (App.downloads st).

(** The click listener: [x = evt.clientX - rect.left], [y = evt.clientY -
    rect.top]. *)
Definition handle (st : App.State) (ev : Event) : App.State :=
  match ev with
  | CanvasClick clientX clientY rectLeft rectTop =>
      fst (App.updateContourSelection st (clientX - rectLeft)
             (clientY - rectTop))
  | ExportClick => fst (App.saveTextAsFile st)
  | InputChanged cfg => setCookieState st cfg
  end.

(** The variables when [processImage] is entered, and after its call of
    [onImageLoad]. *)
Definition entered (imgElement : Mat) (saveFilename : JSString)
    (cfg : CookieState.t) : App.State :=
  App.mkState imgElement saveFilename cfg [] None [] None None [] 0 [].

Definition processImage (imgElement : Mat) (saveFilename : JSString)
    (cfg : CookieState.t) : App.State :=
  fst (App.onImageLoad (entered imgElement saveFilename cfg)).

Definition run (st : App.State) (events : list Event) : App.State :=
  fold_left handle events st.

(** The light that [generateSTL] adds beside the mesh. *)
Definition light : Object3D := PointLight 16777215 2 200 (50, 50, 50).

(** A scene as [generateSTL] builds it: one mesh of two or three
    extrusions, each of a shape with exactly one hole, and the light. *)
Definition built (children : list Object3D) : Prop :=
  exists g, children = [ Mesh g 11149994; light ]
    /\ (length g = 2%nat \/ length g = 3%nat)
    /\ Forall (fun e => exists inner, holes (shape e) = [inner]) g.

(** What every event keeps: the trace and the name stay, the active
    boundary is absent or one of the traced ones, the scene is empty or
    built, and every file offered is a built scene under the sanitised
    name. *)
Definition consistent (traced : list Contour) (name : JSString)
    (st : App.State) : Prop :=
  App.contours st = traced
  /\ App.saveFilename st = name
  /\ (App.lastCnt st = None
      \/ exists i c, get traced i = Some c /\ App.lastCnt st = Some c)
  /\ (App.scene st = [] \/ built (App.scene st))
  /\ Forall (fun d : JSString * list Object3D =>
               fst d = Exporter.sanitizedFilename name ++ codeUnits ".stl"
               /\ built (snd d))
            (App.downloads st).

End WithEngine.

End Events.

(** ** More traces for the small engine *)

Module Cases.

(** Two traced contours, both above the cutoff of the 886 x 886 raster. *)
Definition ringNoSurvivor : list Contour :=
  [ Sample.box 0 0 885 885; Sample.box 0 0 880 880 ].

(** A photograph whose trace holds nothing but specks. *)
Definition specks : list Contour :=
  [ Sample.box 30 30 5 5; Sample.box 50 50 8 8 ].

Definition speckled : OpenCV :=
  Sample.engine specks Sample.ringInnerOuterFrame Sample.labelAt.

Definition onSpecks : @App.State speckled :=
  @App.mkState speckled Sample.photo [] (Sample.defaults false) [] None []
    None None [] 0 [].

(** The engine whose ring raster traces to no surviving contour. *)
Definition framed : OpenCV :=
  Sample.engine Sample.image ringNoSurvivor Sample.labelAt.


(** A photograph on which nothing is traced. *)
Definition blank : OpenCV :=
  Sample.engine [] Sample.ringInnerOuterFrame Sample.labelAt.

Definition onBlank : @App.State blank :=
  @App.mkState blank Sample.photo [] (Sample.defaults false) [] None []
    None None [] 0 [].

End Cases.

(** * Theorems *)

(** ** Numbers *)

Lemma Qltb_lt (a b : Q) : Qltb a b = true <-> a < b.
Proof.
  unfold Qltb. rewrite negb_true_iff. split.
  - intros H. apply Qnot_le_lt. intros Hle.
    apply Qle_bool_iff in Hle. congruence.
  - intros H. destruct (Qle_bool b a) eqn:E; [|reflexivity].
    apply Qle_bool_iff in E. exfalso. exact (Qlt_not_le _ _ H E).
Qed.

Lemma Qltb_ge (a b : Q) : Qltb a b = false <-> b <= a.
Proof.
  unfold Qltb. rewrite negb_false_iff. apply Qle_bool_iff.
Qed.

(** [|c - l|] exceeds [t] exactly when [c] leaves the band [l - t .. l + t]. *)
Lemma Qabs_band (t l c : Q) : t < Qabs (c - l) <-> l + t < c \/ c < l - t.
Proof.
  apply (Qabs_case (c - l)); intros Hs; split; intros H; lra.
Qed.

(** ** The point-reduction filter *)

Section FilterFacts.
Import Filter.
Variables scale tolerace : Q.

Lemma keepTest_differs (kept p : Vector2) :
  keepTest (vx kept) (vy kept) tolerace (vx p) (vy p) = true
  <-> differs tolerace kept p.
Proof.
  unfold keepTest, differs.
  rewrite !orb_true_iff, !Qltb_lt, !Qabs_band. tauto.
Qed.

Lemma keepTest_differsb (kept p : Vector2) :
  keepTest (vx kept) (vy kept) tolerace (vx p) (vy p)
  = differsb tolerace kept p.
Proof.
  apply eq_true_iff_eq. rewrite keepTest_differs.
  unfold differsb, differs. rewrite orb_true_iff, !Qltb_lt. tauto.
Qed.




(** The loop body, with its test read as [differsb]. *)
Lemma body_differsb (st : Loop) (row : Z * Z) :
  body scale tolerace st row
  = if differsb tolerace (mkVector2 (lastX st) (lastY st)) (scaled scale row)
    then mkLoop (cPoints st ++ [scaled scale row])
           (vx (scaled scale row)) (vy (scaled scale row))
    else st.
Proof.
  rewrite <- keepTest_differsb. reflexivity.
Qed.

(** The loop pushes the greedy subsequence of what it has yet to read. *)
Lemma run_greedy (cnt : Contour) (st : Loop) :
  cPoints (run scale tolerace st cnt)
  = cPoints st
    ++ greedy tolerace (mkVector2 (lastX st) (lastY st))
         (map (scaled scale) cnt).
Proof.
  revert st. induction cnt as [|row cnt IH]; intros st.
  - cbn. now rewrite app_nil_r.
  - change (run scale tolerace st (row :: cnt))
      with (run scale tolerace (body scale tolerace st row) cnt).
    rewrite IH, body_differsb. cbn [map greedy].
    destruct (differsb _ _ _); cbn; [|reflexivity].
    now rewrite <- app_assoc.
Qed.


Lemma differsb_differs (kept p : Vector2) :
  differsb tolerace kept p = true <-> differs tolerace kept p.
Proof.
  unfold differsb, differs. now rewrite orb_true_iff, !Qltb_lt.
Qed.


End FilterFacts.







(** The sentinel is below every scaled row only while the scale factor is
    not negative: at scale -1 the single row (1000, 1000) lands on the
    sentinel and is dropped.  The service passes the scale [.1] at both
    calls of [getThreeVector]. *)
Remark first_row_needs_a_nonnegative_scale :
  let cnt : Contour := [ (1000, 1000) ]%Z in
  cnt <> []
  /\ Forall (fun row => (0 <= fst row)%Z /\ (0 <= snd row)%Z) cnt
  /\ 0 < 1000
  /\ Filter.getThreeVector cnt (-1) 0 = [].
Proof.
  cbn zeta. split; [discriminate|]. split.
  - constructor; [cbn; lia|constructor].
  - split; [lra|reflexivity].
Qed.

(** C10.  For a non-empty contour with non-negative coordinates and a
    tolerance below 1000, [getThreeVector] keeps the first row, the tracker
    starting at (-1000, -1000): its output is not empty and starts with
    that row times the scale factor.  This holds at every scale factor that
    is not negative, and so at the [.1] that both calls in
    [getScaledOutlineShape] pass. *)
Theorem first_point_kept (cnt : Contour) (scaleF tolerace : Q) :
  cnt <> [] ->
  Forall (fun row => (0 <= fst row)%Z /\ (0 <= snd row)%Z) cnt ->
  0 <= scaleF ->
  tolerace < 1000 ->
  exists row rest out,
    cnt = row :: rest
    /\ Filter.getThreeVector cnt scaleF tolerace
       = Filter.scaled scaleF row :: out.
Proof.
  intros Hne Hpos Hs Ht. destruct cnt as [|row rest]; [congruence|].
  exists row, rest. apply Forall_cons_1 in Hpos. destruct Hpos as [[Hx _] _].
  assert (Hk : Filter.keepTest (-1000) (-1000) tolerace
                 (inject_Z (fst row) * scaleF) (inject_Z (snd row) * scaleF)
               = true).
  { unfold Filter.keepTest. rewrite !orb_true_iff, !Qltb_lt.
    left; left; left.
    assert (0 <= inject_Z (fst row) * scaleF).
    { apply Qmult_le_0_compat; [|exact Hs].
      change 0 with (inject_Z 0). now rewrite <- Zle_Qle. }
    lra. }
  eexists. split; [reflexivity|]. unfold Filter.getThreeVector.
  change (Filter.run scaleF tolerace Filter.start (row :: rest))
    with (Filter.run scaleF tolerace
            (Filter.body scaleF tolerace Filter.start row) rest).
  rewrite run_greedy. unfold Filter.body. cbn [Filter.lastX Filter.lastY
    Filter.start Filter.sentinel vx vy]. rewrite Hk. cbn.
  reflexivity.
Qed.

Lemma first_point_kept_witness :
  exists row rest out,
    [ (3, 4); (10, 10) ]%Z = row :: rest
    /\ Filter.getThreeVector [ (3, 4); (10, 10) ]%Z (1 # 10) (15 # 100)
       = Filter.scaled (1 # 10) row :: out.
Proof.
  apply (first_point_kept [ (3, 4); (10, 10) ]%Z (1 # 10) (15 # 100)).
  - discriminate.
  - repeat constructor; simpl; lia.
  - unfold Qle; simpl; lia.
  - unfold Qlt; simpl; lia.
Defined.

(** ** The file name *)

(** The class of [/[^a-zA-Z0-9_-]/] matches what the specification's
    character set leaves out. *)
Lemma negatedClass_allowed (c : N) :
  Exporter.negatedClass Exporter.pattern c = false <-> Exporter.allowed c.
Proof.
  unfold Exporter.negatedClass, Exporter.pattern, Exporter.allowed,
    Exporter.isAsciiLetter, Exporter.isDigit, Exporter.isHyphen,
    Exporter.isUnderscore.
  rewrite negb_false_iff. cbn [existsb Exporter.itemMatches].
  rewrite !orb_true_iff, !andb_true_iff, !N.leb_le, !N.eqb_eq.
  change (Exporter.ch "a") with 97%N. change (Exporter.ch "z") with 122%N.
  change (Exporter.ch "A") with 65%N. change (Exporter.ch "Z") with 90%N.
  change (Exporter.ch "0") with 48%N. change (Exporter.ch "9") with 57%N.
  change (Exporter.ch "_") with 95%N. change (Exporter.ch "-") with 45%N.
  lia.
Qed.

Lemma replaceAll_one_length (matches : N -> bool) (u : N) (s : JSString) :
  length (Exporter.replaceAll matches [u] s) = length s.
Proof.
  induction s as [|c s IH]; [reflexivity|].
  cbn. destruct (matches c); cbn; now rewrite IH.
Qed.

Lemma replaceAll_one_lookup (matches : N -> bool) (u : N) (s : JSString)
    (i : nat) (c : N) :
  s !! i = Some c ->
  Exporter.replaceAll matches [u] s !! i
  = Some (if matches c then u else c).
Proof.
  revert i. induction s as [|d s IH]; intros i H; [discriminate|].
  destruct i as [|i]; cbn in *.
  - injection H as ->. now destruct (matches c).
  - destruct (matches d); cbn; now apply IH.
Qed.

(** C7.  [saveTextAsFile] names the file by replacing, one for one, every
    code unit of [saveFilename] that is not an ASCII letter, a digit, a
    hyphen or an underscore with an underscore, and appending [.stl]; so
    [my cookie!] becomes [my_cookie_] and [A/B..c] becomes [A_B__c]. *)
Theorem filename_sanitized (saveFilename : JSString) :
  let s := Exporter.sanitizedFilename saveFilename in
  length s = length saveFilename
  /\ (forall (i : nat) (c : N),
        saveFilename !! i = Some c ->
        (Exporter.allowed c -> s !! i = Some c)
        /\ (~ Exporter.allowed c -> s !! i = Some 95%N))
  /\ Exporter.fileNameToSaveAs saveFilename = s ++ codeUnits ".stl"
  /\ Exporter.sanitizedFilename (codeUnits "my cookie!")
     = codeUnits "my_cookie_"
  /\ Exporter.sanitizedFilename (codeUnits "A/B..c") = codeUnits "A_B__c".
Proof.
  cbn zeta. unfold Exporter.sanitizedFilename.
  change (codeUnits "_") with [95%N].
  split; [apply replaceAll_one_length|]. split; [|now repeat split].
  intros i c H.
  rewrite (replaceAll_one_lookup _ _ _ _ _ H).
  destruct (Exporter.negatedClass Exporter.pattern c) eqn:E.
  - split; [|reflexivity]. intros Ha.
    apply negatedClass_allowed in Ha. congruence.
  - apply negatedClass_allowed in E. split; [reflexivity|].
    intros Hn. now contradiction Hn.
Qed.

(** ** Loops over a vector *)

(** The rule for a [for] loop: what holds of the rows read so far and the
    loop variables is kept by the body. *)
Lemma forEachFrom_invariant {S A : Type} (body : S -> nat -> A -> S)
    (P : list A -> S -> Prop) :
  (forall pre a st, P pre st -> P (pre ++ [a]) (body st (length pre) a)) ->
  forall cs pre st,
    P pre st -> P (pre ++ cs) (forEachFrom body (length pre) cs st).
Proof.
  intros Hstep cs. induction cs as [|a cs IH]; intros pre st H; cbn.
  - now rewrite app_nil_r.
  - specialize (IH (pre ++ [a]) (body st (length pre) a) (Hstep _ _ _ H)).
    rewrite length_app, Nat.add_1_r, <- app_assoc in IH. exact IH.
Qed.

Lemma forEach_invariant {S A : Type} (body : S -> nat -> A -> S)
    (P : list A -> S -> Prop) (v : list A) (st : S) :
  P [] st ->
  (forall pre a st, P pre st -> P (pre ++ [a]) (body st (length pre) a)) ->
  P v (forEach body v st).
Proof.
  intros H0 Hstep. exact (forEachFrom_invariant body P Hstep v [] st H0).
Qed.


(** ** The boundary classifier *)

Section ClassifierFacts.
Context `{cv : OpenCV}.
Import Classifier.

(** [if (area < 0) area = -area] computes the absolute value. *)
Lemma negate_if_negative (a : Q) :
  (if Qltb a 0 then - a else a) == Qabs a.
Proof.
  destruct (Qltb a 0) eqn:E.
  - apply Qltb_lt in E. rewrite Qabs_neg by lra. reflexivity.
  - apply Qltb_ge in E. rewrite Qabs_pos by lra. reflexivity.
Qed.

(** What one turn of the first loop does to [largestContour] and
    [maxArea]. *)
Lemma body_largest (contours : list Contour) (cut : Q) (st : Scan) (i : nat)
    (cnt : Contour) :
  let a := contourArea cnt true in
  let area := if Qltb a 0 then - a else a in
  let st' := body contours cut st i cnt in
  if Qltb area cut && Qltb (maxArea st * 1) (area * 1)
  then largestContour st' = i /\ maxArea st' = area
  else largestContour st' = largestContour st /\ maxArea st' = maxArea st.
Proof.
  cbn zeta. unfold body.
  destruct (selectable _ _); cbn [maxArea largestContour];
    destruct (_ && _); cbn; auto.
Qed.

Lemma scanned_body (contours : list Contour) (cut : Q) (pre : list Contour)
    (cnt : Contour) (st : Scan) :
  scanned cut pre st ->
  scanned cut (pre ++ [cnt]) (body contours cut st (length pre) cnt).
Proof.
  intros (H0 & Hmax & Hbest). unfold scanned.
  pose proof (body_largest contours cut st (length pre) cnt) as Hb.
  cbn zeta in Hb.
  pose proof (negate_if_negative (contourArea cnt true)) as Habs.
  fold (unsignedArea cnt) in Habs.
  set (area := if Qltb (contourArea cnt true) 0 then _ else _) in *.
  destruct (Qltb area cut && Qltb (maxArea st * 1) (area * 1)) eqn:E.
  - destruct Hb as [HL HM]. rewrite HL, HM.
    apply andb_true_iff in E. destruct E as [E1 E2].
    apply Qltb_lt in E1, E2.
    assert (Hold : forall j c, pre !! j = Some c -> unsignedArea c < cut ->
                     unsignedArea c < unsignedArea cnt).
    { intros j c Hj Hc. specialize (Hmax j c Hj Hc). lra. }
    split; [lra|]. split.
    + intros j c Hj Hc. apply lookup_snoc_Some in Hj.
      destruct Hj as [[_ Hj]|[_ <-]]; [|lra].
      specialize (Hold j c Hj Hc). lra.
    + right. exists cnt. split; [apply list_lookup_middle; reflexivity|].
      split; [now symmetry|]. split; [lra|].
      intros j c Hlt Hj Hc. apply lookup_snoc_Some in Hj.
      destruct Hj as [[_ Hj]|[Hj' _]]; [|lia]. now apply (Hold j c).
  - destruct Hb as [HL HM]. rewrite HL, HM. split; [exact H0|]. split.
    + intros j c Hj Hc. apply lookup_snoc_Some in Hj.
      destruct Hj as [[_ Hj]|[_ <-]]; [now apply (Hmax j c)|].
      apply andb_false_iff in E. destruct E as [E|E].
      * apply Qltb_ge in E. lra.
      * apply Qltb_ge in E. lra.
    + destruct Hbest as [Hz|(b & Hb & Hrest)]; [now left|right].
      exists b. split; [now apply lookup_app_l_Some|].
      destruct Hrest as (Heq & Hcut & Hfirst). repeat split; try assumption.
      intros j c Hlt Hj Hc. apply lookup_snoc_Some in Hj.
      destruct Hj as [[_ Hj]|[Hj' _]]; [now apply (Hfirst j c)|].
      apply lookup_lt_Some in Hb. lia.
Qed.

Lemma scanned_all (contours : list Contour) (cut : Q) (dst0 map0 : Mat) :
  scanned cut contours
    (forEach (body contours cut) contours (start dst0 map0)).
Proof.
  apply forEach_invariant.
  - split; [cbn; lra|]. split; [intros j c Hj; discriminate|].
    left. reflexivity.
  - intros pre a st. apply scanned_body.
Qed.

End ClassifierFacts.

Section ServiceFacts.
Context `{cv : OpenCV}.
Import App.

(** [rebuild] records the boundary before it builds the mesh. *)
Lemma rebuild_lastCnt (st : State) (cnt : Contour) :
  lastCnt (fst (rebuild st cnt)) = Some cnt.
Proof.
  unfold rebuild, generateSTL.
  destruct (Assembler.geom _ _); reflexivity.
Qed.

(** [lastCnt] is what [contours.get] returned, [undefined] included. *)
Lemma rebuildFrom_lastCnt (st : State) (cnt : option Contour) :
  lastCnt (fst (rebuildFrom st cnt)) = cnt.
Proof.
  destruct cnt as [cnt|]; [apply rebuild_lastCnt|reflexivity].
Qed.

(** Asked for a contour that the vector holds, [cv.drawContours] draws. *)
Lemma drawContour_at (img : Mat) (contours : list Contour) (i : nat)
    (c : Contour) (color : Scalar) (thickness : Z) :
  get contours i = Some c ->
  drawContour img contours i color thickness
  = Ok (drawContours img contours i color thickness).
Proof.
  unfold drawContour, get. destruct contours as [|c0 rest].
  - rewrite lookup_nil. discriminate.
  - now intros ->.
Qed.

End ServiceFacts.

(** C1.  When the trace of the padded, thresholded raster contains a
    candidate (a boundary whose unsigned area lies strictly between
    0.1 * 0.90 * (paddedWidth * paddedHeight) and 0.90 * (paddedWidth *
    paddedHeight)), the boundary that [onImageLoad] makes the active one is
    a traced boundary inside that open interval, no traced boundary below
    the upper bound has a larger area, and it is the first boundary of its
    area. *)
Theorem default_boundary_is_largest_candidate `{cv : OpenCV}
    (st : App.State) :
  let src :=
    adaptiveThreshold
      (cvtColor (copyMakeBorder (App.imgElement st) 10 BORDER_WRAP)
         COLOR_RGBA2GRAY) in
  let traced := findContours src in
  let padded := inject_Z (cols src * rows src) in
  let candidate (c : Contour) :=
    (1 # 10) * (90 # 100) * padded < Classifier.unsignedArea c
    /\ Classifier.unsignedArea c < (90 # 100) * padded in
  (exists k c, get traced k = Some c /\ candidate c) ->
  exists i b,
    App.lastCnt (fst (App.onImageLoad st)) = Some b
    /\ get traced i = Some b
    /\ candidate b
    /\ (forall j c, get traced j = Some c -> candidate c ->
          Classifier.unsignedArea c <= Classifier.unsignedArea b)
    /\ (forall j c, get traced j = Some c ->
          Classifier.unsignedArea c < (90 # 100) * padded ->
          Classifier.unsignedArea c <= Classifier.unsignedArea b)
    /\ (forall j c, (j < i)%nat -> get traced j = Some c ->
          Classifier.unsignedArea c < (90 # 100) * padded ->
          Classifier.unsignedArea c < Classifier.unsignedArea b).
Proof.
  intros src traced padded candidate (k & ck & Hk & Hlow & Hup).
  unfold App.onImageLoad. fold src. fold traced.
  set (cut := inject_Z (cols src * rows src) * (90 # 100)).
  set (dst0 := cvtColor (cvtColor _ _) _).
  set (map0 := zeros _ _).
  pose proof (scanned_all traced cut dst0 map0) as (H0 & Hmax & Hbest).
  set (scan := forEach (Classifier.body traced cut) traced
                 (Classifier.start dst0 map0)) in *.
  assert (Hcut : cut == (90 # 100) * padded) by (unfold cut, padded; ring).
  assert (Hpos : 0 <= Classifier.unsignedArea ck) by apply Qabs_nonneg.
  assert (Hk' : Classifier.unsignedArea ck <= Classifier.maxArea scan).
  { apply (Hmax k ck Hk). lra. }
  destruct Hbest as [Hz|(b & Hb & Heq & Hbcut & Hfirst)]; [lra|].
  exists (Classifier.largestContour scan), b.
  rewrite (drawContour_at _ _ _ b _ _ Hb). cbn zeta.
  rewrite rebuildFrom_lastCnt.
  split; [exact Hb|]. split; [exact Hb|]. split; [split; lra|].
  split; [|split].
  - intros j c Hj [_ Hc]. specialize (Hmax j c Hj). lra.
  - intros j c Hj Hc. specialize (Hmax j c Hj). lra.
  - intros j c Hlt Hj Hc. apply (Hfirst j c Hlt Hj). lra.
Qed.

(** ** The click handler *)

Section SelectorFacts.
Context `{cv : OpenCV}.
Import App.

(** The variables that a click reads and never writes. *)
Lemma rebuild_frame (st : State) (cnt : Contour) :
  let st' := fst (rebuild st cnt) in
  imgElement st' = imgElement st
  /\ cookieState st' = cookieState st
  /\ contours st' = contours st
  /\ contourMap st' = contourMap st
  /\ contourNumMap st' = contourNumMap st
  /\ canvasOutput st' = canvasOutput st.
Proof.
  unfold rebuild, generateSTL.
  destruct (Assembler.geom _ _); cbn; now repeat split.
Qed.

(** The scene after a rebuild depends on the configuration and on the
    boundary alone, unless the outline generator throws, and then the scene
    stays. *)
Lemma rebuild_scene (st : State) (cnt : Contour) :
  match Assembler.geom (cookieState st) cnt with
  | Ok g =>
      scene (fst (rebuild st cnt))
      = [ Mesh g 11149994; PointLight 16777215 2 200 (50, 50, 50) ]
      /\ snd (rebuild st cnt) = Normal
  | Throw e =>
      scene (fst (rebuild st cnt)) = scene st
      /\ snd (rebuild st cnt) = Abrupt e
  end.
Proof.
  unfold rebuild, generateSTL. cbn [cookieState setLastCnt].
  destruct (Assembler.geom _ _); cbn; now split.
Qed.

(** The same, when the boundary may be [undefined]. *)
Lemma rebuildFrom_frame (st : State) (cnt : option Contour) :
  let st' := fst (rebuildFrom st cnt) in
  imgElement st' = imgElement st
  /\ cookieState st' = cookieState st
  /\ contours st' = contours st
  /\ contourMap st' = contourMap st
  /\ contourNumMap st' = contourNumMap st
  /\ canvasOutput st' = canvasOutput st.
Proof.
  destruct cnt as [cnt|]; [apply rebuild_frame|cbn; now repeat split].
Qed.

(** A click either leaves the state alone or shows a raster and goes on
    with what [contours.get] returned, and two states that agree on what a
    click reads are treated alike. *)
Lemma click_cases (st st' : State) (x y : Q) :
  imgElement st' = imgElement st ->
  contours st' = contours st ->
  contourMap st' = contourMap st ->
  contourNumMap st' = contourNumMap st ->
  (exists c, updateContourSelection st x y = (st, c)
             /\ updateContourSelection st' x y = (st', c))
  \/ (exists img cnt,
        updateContourSelection st x y = rebuildFrom (imshow st img) cnt
        /\ updateContourSelection st' x y
           = rebuildFrom (imshow st' img) cnt).
Proof.
  intros Hi Hc Hm Hn. unfold updateContourSelection.
  rewrite Hi, Hc, Hm, Hn.
  destruct (contourMap st) as [map|]; [|left; eauto].
  destruct (ucharPtr map y x =? 0)%Z; [left; eauto|].
  destruct (lookupLabel _ _) as [co|]; [|left; eauto].
  cbn zeta.
  destruct (drawContour _ _ _ _ _) as [img|e]; [|left; eauto].
  right. eauto.
Qed.

Lemma click_frame (st : State) (x y : Q) :
  let st' := fst (updateContourSelection st x y) in
  imgElement st' = imgElement st
  /\ cookieState st' = cookieState st
  /\ contours st' = contours st
  /\ contourMap st' = contourMap st
  /\ contourNumMap st' = contourNumMap st.
Proof.
  destruct (click_cases st st x y eq_refl eq_refl eq_refl eq_refl)
    as [(c & E & _)|(img & cnt & E & _)]; rewrite E; cbn zeta.
  - now repeat split.
  - pose proof (rebuildFrom_frame (imshow st img) cnt) as F. cbn zeta in F.
    cbn [imgElement cookieState contours contourMap contourNumMap imshow]
      in F.
    tauto.
Qed.

(** A completed export offers the rebuilt scene under the sanitised name
    with the mesh extension. *)
Lemma saveTextAsFile_name (st st' : State) :
  saveTextAsFile st = (st', Normal) ->
  downloads st'
  = downloads st
    ++ [(Exporter.sanitizedFilename (saveFilename st) ++ codeUnits ".stl",
         scene st')].
Proof.
  unfold saveTextAsFile, generateSTL.
  destruct (lastCnt st) as [cnt|]; [|discriminate].
  destruct (Assembler.geom _ _); [|discriminate].
  intros [= <-]. reflexivity.
Qed.

(** C8.  A click where the index map reads label 0 changes nothing: the
    handler returns normally with every variable of the service, the
    displayed raster and the scene as they were. *)
Theorem click_on_background_is_noop (st : State) (x y : Q) (map : Mat) :
  contourMap st = Some map ->
  ucharPtr map y x = 0%Z ->
  updateContourSelection st x y = (st, Normal).
Proof.
  intros Hmap Hco. unfold updateContourSelection. now rewrite Hmap, Hco.
Qed.

(** C9.  A second click at the same place, under the same configuration,
    ends as the first did and leaves the active boundary, the displayed
    raster and the scene as the first click left them. *)
Theorem selection_is_idempotent (st : State) (x y : Q) (map : Mat) :
  contourMap st = Some map ->
  ucharPtr map y x <> 0%Z ->
  let once := updateContourSelection st x y in
  let twice := updateContourSelection (fst once) x y in
  lastCnt (fst twice) = lastCnt (fst once)
  /\ scene (fst twice) = scene (fst once)
  /\ canvasOutput (fst twice) = canvasOutput (fst once)
  /\ cookieState (fst twice) = cookieState st
  /\ snd twice = snd once.
Proof.
  intros _ _ once twice. subst twice.
  pose proof (click_frame st x y) as (Fi & Fk & Fc & Fm & Fn).
  fold once in Fi, Fk, Fc, Fm, Fn.
  destruct (click_cases st (fst once) x y Fi Fc Fm Fn)
    as [(c & E1 & E2)|(img & cnt & E1 & E2)]; rewrite E2.
  - subst once. rewrite E1. cbn [fst snd]. now repeat split.
  - destruct cnt as [cnt|];
      [|subst once; rewrite E1; cbn; now repeat split].
    cbn [rebuildFrom] in E1 |- *.
    pose proof (rebuild_frame (imshow (fst once) img) cnt)
      as (_ & Gk & _ & _ & _ & Go).
    pose proof (rebuild_frame (imshow st img) cnt) as (_ & _ & _ & _ & _ & Ho).
    pose proof (rebuild_scene (imshow (fst once) img) cnt) as Gs.
    pose proof (rebuild_scene (imshow st img) cnt) as Hs.
    cbn [cookieState canvasOutput scene imshow] in Gk, Go, Ho, Gs, Hs.
    rewrite Fk in Gs. rewrite rebuild_lastCnt, Gk, Go, Fk.
    subst once. rewrite E1 in *. rewrite rebuild_lastCnt, Ho.
    destruct (Assembler.geom (cookieState st) cnt) as [g|e];
      destruct Gs as [-> ->]; destruct Hs as [Hs ->];
      now rewrite ?Hs.
Qed.

End SelectorFacts.

(** ** The outline generator and the assembler *)

Section RingFacts.
Context `{cv : OpenCV}.
Import Ring.

(** What one turn of the selection loop does. *)
Lemma pick_body (cut : Q) (st : Pick) (i : nat) (ncnt : Contour) :
  let area := contourArea ncnt false in
  body cut st i ncnt
  = if Qltb (maxArea st * 1) (area * 1) && Qltb area cut
    then mkPick i (largestContour st) area
    else st.
Proof. reflexivity. Qed.

(** The outer pick is sound: when some traced contour survives,
    [largestContour] ends on a surviving contour that no surviving contour
    exceeds. *)
Lemma pick_largest (cut : Q) (contours : list Contour) :
  let area (c : Contour) := contourArea c false in
  (exists k c, get contours k = Some c /\ survives area cut c) ->
  isLargest area cut contours (largestContour (pick cut contours)).
Proof.
  intros area (k & ck & Hk & Hpos & Hcut).
  assert (H : let st := pick cut contours in
              0 <= maxArea st
              /\ (forall j c, contours !! j = Some c -> area c < cut ->
                    area c <= maxArea st)
              /\ (maxArea st == 0
                  \/ exists b, contours !! largestContour st = Some b
                       /\ maxArea st == area b /\ area b < cut)).
  { unfold pick. apply forEach_invariant.
    - split; [cbn; lra|]. split; [intros j c Hj; discriminate|].
      left. reflexivity.
    - intros pre a st (H0 & Hmax & Hbest). rewrite pick_body. cbn zeta.
      fold (area a).
      destruct (Qltb (maxArea st * 1) (area a * 1) && Qltb (area a) cut)
        eqn:E.
      + apply andb_true_iff in E. destruct E as [E1 E2].
        apply Qltb_lt in E1, E2. cbn [maxArea largestContour].
        split; [lra|]. split.
        * intros j c Hj Hc. apply lookup_snoc_Some in Hj.
          destruct Hj as [[_ Hj]|[_ <-]]; [|lra].
          specialize (Hmax j c Hj Hc). lra.
        * right. exists a. split; [apply list_lookup_middle; reflexivity|].
          split; [reflexivity|exact E2].
      + split; [exact H0|]. split.
        * intros j c Hj Hc. apply lookup_snoc_Some in Hj.
          destruct Hj as [[_ Hj]|[_ <-]]; [now apply (Hmax j c)|].
          apply andb_false_iff in E. destruct E as [E|E];
            apply Qltb_ge in E; lra.
        * destruct Hbest as [Hz|(b & Hb & Hrest)]; [now left|right].
          exists b. split; [now apply lookup_app_l_Some|exact Hrest]. }
  cbn zeta in H. destruct H as (H0 & Hmax & Hbest).
  pose proof (Hmax k ck Hk Hcut) as Hk'.
  destruct Hbest as [Hz|(b & Hb & Heq & Hbcut)]; [lra|].
  exists b. split; [exact Hb|]. split; [split; lra|].
  intros j d Hj [_ Hd]. specialize (Hmax j d Hj Hd). lra.
Qed.

(** Every outline that the generator returns has exactly one hole. *)
Lemma getScaledOutlineShape_one_hole (cnt : Contour)
    (width maxBoundaryOffetWidth maxDesiredOut tol : Q) (s : Shape) :
  getScaledOutlineShape cnt width maxBoundaryOffetWidth maxDesiredOut tol
  = Ok s ->
  exists inner, holes s = [inner].
Proof.
  unfold getScaledOutlineShape. cbn zeta.
  destruct (get _ (largestContour _)); [|discriminate]. cbn.
  destruct (get _ (otherContour _)); [|discriminate]. cbn.
  intros [= <-]. eexists. reflexivity.
Qed.

(** With fewer than two traced contours, one of the two picks is past the
    end of the vector. *)
Lemma pick_short (cut : Q) (contours : list Contour) :
  (length contours < 2)%nat ->
  get contours (largestContour (pick cut contours)) = None
  \/ get contours (otherContour (pick cut contours)) = None.
Proof.
  intros Hlen. destruct contours as [|c [|d rest]]; cbn in Hlen; try lia.
  - left. reflexivity.
  - unfold pick, forEach. cbn [forEachFrom]. rewrite pick_body. cbn zeta.
    destruct (_ && _); [right|left]; reflexivity.
Qed.

Lemma getScaledOutlineShape_short (cnt : Contour)
    (width maxBoundaryOffetWidth maxDesiredOut tol : Q) :
  (length (findContours
             (ringRaster cnt width maxBoundaryOffetWidth maxDesiredOut))
   < 2)%nat ->
  getScaledOutlineShape cnt width maxBoundaryOffetWidth maxDesiredOut tol
  = Throw TypeError.
Proof.
  intros Hlen. unfold getScaledOutlineShape. cbn zeta.
  set (cut := inject_Z _ * _).
  destruct (pick_short cut _ Hlen) as [E|E].
  - now rewrite E.
  - rewrite E. now destruct (get _ (largestContour _)).
Qed.

End RingFacts.

(** C2, as stated, fails: the generator has no ring-degenerate signal and
    the assembler no fallback.  When the ring raster traces to the single
    contour [Sample.ringOne], the generator throws a [TypeError] and
    [generateSTL] ends abruptly with the scene untouched; when it traces to
    the frame and one contour, the generator returns that contour as the
    outline and again as its hole. *)
Lemma degenerate_ring_is_not_recovered :
  let cnt := Sample.box 20 20 40 40 in
  let st := Sample.initial Sample.ringOne false in
  let kept :=
    Filter.getThreeVector (Sample.box 60 60 760 760) (1 # 10) (15 # 100) in
  @findContours (Sample.tracing Sample.ringOne)
    (Ring.ringRaster cnt (1 / 2) Assembler.handleWidth 76)
  = [ Sample.box 60 60 760 760 ]
  /\ @Ring.getScaledOutlineShape (Sample.tracing Sample.ringOne) cnt (1 / 2)
       Assembler.handleWidth 76 (15 # 100)
     = Throw TypeError
  /\ App.generateSTL st cnt = (st, Abrupt TypeError)
  /\ @findContours (Sample.tracing Sample.ringFrameAndOne)
       (Ring.ringRaster cnt (1 / 2) Assembler.handleWidth 76)
     = [ Sample.box 0 0 885 885; Sample.box 60 60 760 760 ]
  /\ @Ring.getScaledOutlineShape (Sample.tracing Sample.ringFrameAndOne) cnt
       (1 / 2) Assembler.handleWidth 76 (15 # 100)
     = Ok (mkShape kept [kept]).
Proof.
  cbn zeta. repeat split; reflexivity.
Qed.

(** C2, amended.  When re-tracing the stroked ring of the wall outline
    yields fewer than two contours, [getScaledOutlineShape] throws a
    [TypeError] and [generateSTL] ends abruptly, leaving every variable and
    the scene as they were; and whatever the trace, an outline that the
    generator does return has exactly one hole, never none. *)
Theorem degenerate_ring_aborts_rebuild `{cv : OpenCV}
    (st : App.State) (cnt : Contour) :
  let cfg := App.cookieState st in
  let width := CookieState.thickness cfg / 2 in
  let traced :=
    findContours
      (Ring.ringRaster cnt width Assembler.handleWidth
         (CookieState.size cfg)) in
  (length traced < 2)%nat ->
  Ring.getScaledOutlineShape cnt width Assembler.handleWidth
    (CookieState.size cfg) (CookieState.tolerance cfg)
  = Throw TypeError
  /\ App.generateSTL st cnt = (st, Abrupt TypeError)
  /\ (forall c w m d t s,
        Ring.getScaledOutlineShape c w m d t = Ok s ->
        exists inner, holes s = [inner]).
Proof.
  intros cfg width traced Hlen.
  pose proof (getScaledOutlineShape_short cnt width Assembler.handleWidth
                (CookieState.size cfg) (CookieState.tolerance cfg) Hlen) as E.
  split; [exact E|]. split.
  - unfold App.generateSTL, Assembler.geom. fold cfg. cbn zeta. fold width.
    destruct (CookieState.cutterBevel cfg); now rewrite E.
  - intros c w m d t s. apply getScaledOutlineShape_one_hole.
Qed.

Lemma degenerate_ring_aborts_rebuild_witness :
  let st := Sample.initial Sample.ringOne false in
  App.generateSTL st (Sample.box 20 20 40 40) = (st, Abrupt TypeError).
Proof.
  cbn zeta.
  apply (@degenerate_ring_aborts_rebuild (Sample.tracing Sample.ringOne)
           (Sample.initial Sample.ringOne false) (Sample.box 20 20 40 40)).
  vm_compute. lia.
Defined.

(** The selection loop depends on the order of the trace.  Were the outer
    edge traced first, with contours of areas 577600, 40000 and 90000 in
    this order, the hole would be the second contour and not the third;
    were the frame traced first, the outline would be its own hole.  The
    engine does not return the contours of a stroked ring in such an
    order. *)
Example ring_pick_depends_on_the_order :
  let cnt := Sample.box 20 20 40 40 in
  let cutoff := inject_Z (886 * 886) * (95 # 100) in
  let reduced (c : Contour) := Filter.getThreeVector c (1 # 10) (15 # 100) in
  let area (c : Contour) := Qabs (Sample.signedArea c) in
  @findContours (Sample.tracing Sample.ringThree)
    (Ring.ringRaster cnt (1 / 2) Assembler.handleWidth 76)
  = Sample.ringThree
  /\ Forall (Ring.survives area cutoff) Sample.ringThree
  /\ Forall2 Qeq (map area Sample.ringThree) [577600; 40000; 90000]
  /\ @Ring.getScaledOutlineShape (Sample.tracing Sample.ringThree) cnt (1 / 2)
       Assembler.handleWidth 76 (15 # 100)
     = Ok (mkShape (reduced (Sample.box 60 60 760 760))
             [reduced (Sample.box 100 100 200 200)])
  /\ Ring.isLargest area cutoff Sample.ringThree 0
  /\ Ring.isOtherOfTwoLargest area cutoff Sample.ringThree 0 2
  /\ ~ Ring.isOtherOfTwoLargest area cutoff Sample.ringThree 0 1
  /\ Forall2 Qeq (map area Sample.ringFrameFirst) [783225; 577600; 490000]
  /\ @Ring.getScaledOutlineShape (Sample.tracing Sample.ringFrameFirst) cnt
       (1 / 2) Assembler.handleWidth 76 (15 # 100)
     = Ok (mkShape (reduced (Sample.box 60 60 760 760))
             [reduced (Sample.box 60 60 760 760)]).
Proof.
  cbn zeta.
  split; [reflexivity|]. split.
  { repeat constructor; vm_compute; reflexivity. }
  split; [repeat constructor; vm_compute; reflexivity|].
  split; [reflexivity|]. split; [|split; [|split; [|split]]].
  - eexists. split; [reflexivity|]. split.
    + split; vm_compute; reflexivity.
    + intros [|[|[|j]]] d Hj _; cbn in Hj; try discriminate;
        injection Hj as <-; vm_compute; discriminate.
  - split; [lia|]. eexists. split; [reflexivity|]. split.
    + split; vm_compute; reflexivity.
    + intros [|[|[|j]]] d Hne Hj _; cbn in Hj; try discriminate;
        try lia; injection Hj as <-; vm_compute; discriminate.
  - intros (_ & c & Hc & _ & Hall). cbn in Hc. injection Hc as <-.
    specialize (Hall 2%nat (Sample.box 400 100 300 300)).
    assert (Hle : Qabs (Sample.signedArea (Sample.box 400 100 300 300))
                  <= Qabs (Sample.signedArea (Sample.box 100 100 200 200))).
    { apply Hall; [lia|reflexivity|]. split; vm_compute; reflexivity. }
    vm_compute in Hle. now apply Hle.
  - repeat constructor; vm_compute; reflexivity.
  - reflexivity.
Qed.

(** C6.  What [generateSTL] merges and puts in the scene, once the outline
    generator has returned the outlines it is asked for.  With the bevel
    disabled and the outlines at [thickness / 2] and at the handle width
    returned, the geometry is exactly one extrusion of the outline at
    [thickness / 2] to the full depth, bevel disabled, and the handle.  With
    the bevel enabled and the outline at [thickness * 3 / 2] returned as
    well, it is exactly the straight base, an extrusion of the outline at
    [thickness * 3 / 2] of depth [depth / 2] with bevel disabled; the cap,
    an extrusion of the outline at [thickness / 2] of depth 0 with bevel
    thickness [depth / 2] and bevel size [thickness / 2], lifted by
    [depth / 2]; and the handle.  In both cases [generateSTL] completes and
    the scene holds the mesh of that geometry and one light. *)
Theorem extrusion_policy `{cv : OpenCV}
    (st : App.State) (cnt : Contour) (wall relief handle : Shape) :
  let cfg := App.cookieState st in
  let depth := CookieState.depth cfg in
  let wallThickness := CookieState.thickness cfg in
  let outlineAt (w : Q) :=
    Ring.getScaledOutlineShape cnt w Assembler.handleWidth
      (CookieState.size cfg) (CookieState.tolerance cfg) in
  let handlePiece :=
    mkExtrusion handle
      (mkExtrudeSettings 1 2 (CookieState.handleRound cfg)
         (Some (mkBevel (6 # 10) (6 # 10) 0 5))) 0 in
  let plain :=
    [ mkExtrusion wall (mkExtrudeSettings 1 depth false None) 0;
      handlePiece ] in
  let bevelled :=
    [ mkExtrusion relief (mkExtrudeSettings 1 (depth / 2) false None) 0;
      mkExtrusion wall
        (mkExtrudeSettings 1 0 true
           (Some (mkBevel (depth / 2) (wallThickness / 2) 0 1)))
        (depth / 2);
      handlePiece ] in
  let shows (g : Geometry) :=
    App.generateSTL st cnt
    = (App.setScene st
         [ Mesh g 11149994; PointLight 16777215 2 200 (50, 50, 50) ],
       Normal) in
  (CookieState.cutterBevel cfg = false ->
   outlineAt (wallThickness / 2) = Ok wall ->
   outlineAt Assembler.handleWidth = Ok handle ->
   Assembler.geom cfg cnt = Ok plain /\ shows plain)
  /\ (CookieState.cutterBevel cfg = true ->
      outlineAt (wallThickness / 2) = Ok wall ->
      outlineAt (wallThickness * 3 / 2) = Ok relief ->
      outlineAt Assembler.handleWidth = Ok handle ->
      Assembler.geom cfg cnt = Ok bevelled /\ shows bevelled).
Proof.
  intros cfg depth wallThickness outlineAt handlePiece plain bevelled shows.
  subst shows. unfold App.generateSTL. fold cfg.
  unfold Assembler.geom. cbn zeta.
  fold depth. fold wallThickness.
  fold (outlineAt (wallThickness / 2)).
  fold (outlineAt (wallThickness * 3 / 2)).
  fold (outlineAt Assembler.handleWidth).
  split.
  - intros -> -> ->. cbn. split; reflexivity.
  - intros -> -> -> ->. cbn. split; reflexivity.
Qed.

(** ** The service run on the small engine *)

Lemma default_boundary_is_largest_candidate_witness :
  exists i b,
    App.lastCnt (fst (App.onImageLoad
                        (Sample.initial Sample.ringInnerOuterFrame false)))
    = Some b
    /\ get Sample.image i = Some b.
Proof.
  destruct (@default_boundary_is_largest_candidate
              (Sample.tracing Sample.ringInnerOuterFrame)
              (Sample.initial Sample.ringInnerOuterFrame false))
    as (i & b & Hlast & Hget & _).
  - exists 2%nat, (Sample.box 20 20 40 40).
    split; [reflexivity|]. split; vm_compute; reflexivity.
  - exists i, b. split; assumption.
Defined.

(** On the small engine the default boundary is the 50 x 60 box: the
    99 x 99 frame is above the cutoff and the 40 x 40 box is smaller. *)
Example default_boundary_on_photo :
  App.lastCnt (Sample.loaded Sample.ringInnerOuterFrame false)
  = Some (Sample.box 25 25 50 60)
  /\ App.contourNumMap (Sample.loaded Sample.ringInnerOuterFrame false)
     = [2%nat; 3%nat].
Proof. split; reflexivity. Qed.

Lemma extrusion_policy_witness :
  let ring := Sample.ringInnerOuterFrame in
  let cnt := Sample.box 25 25 50 60 in
  (exists wall handle,
     @Assembler.geom (Sample.tracing ring) (Sample.defaults false) cnt
     = Ok [ mkExtrusion wall (mkExtrudeSettings 1 16 false None) 0; handle ])
  /\ (exists relief wall handle,
        @Assembler.geom (Sample.tracing ring) (Sample.defaults true) cnt
        = Ok [ mkExtrusion relief (mkExtrudeSettings 1 (16 / 2) false None) 0;
               mkExtrusion wall
                 (mkExtrudeSettings 1 0 true
                    (Some (mkBevel (16 / 2) (1 / 2) 0 1)))
                 (16 / 2);
               handle ]).
Proof.
  cbn zeta.
  pose (s := mkShape
               (Filter.getThreeVector (Sample.box 60 60 760 760) (1 # 10)
                  (15 # 100))
               [ Filter.getThreeVector (Sample.box 80 80 700 700) (1 # 10)
                   (15 # 100) ]).
  split.
  - destruct (@extrusion_policy (Sample.tracing Sample.ringInnerOuterFrame)
                (Sample.initial Sample.ringInnerOuterFrame false)
                (Sample.box 25 25 50 60) s s s) as [Hplain _].
    destruct Hplain as [Hg _]; [reflexivity|reflexivity|reflexivity|].
    eexists. eexists. exact Hg.
  - destruct (@extrusion_policy (Sample.tracing Sample.ringInnerOuterFrame)
                (Sample.initial Sample.ringInnerOuterFrame true)
                (Sample.box 25 25 50 60) s s s) as [_ Hbevelled].
    destruct Hbevelled as [Hg _];
      [reflexivity|reflexivity|reflexivity|reflexivity|].
    eexists. eexists. eexists. exact Hg.
Defined.

Lemma click_on_background_is_noop_witness :
  let st := Sample.loaded Sample.ringInnerOuterFrame false in
  App.updateContourSelection st 10 10 = (st, Normal).
Proof.
  cbn zeta.
  apply (@click_on_background_is_noop
           (Sample.tracing Sample.ringInnerOuterFrame)
           (Sample.loaded Sample.ringInnerOuterFrame false) 10 10
           (Sample.mkRaster 500 500 Sample.Blank)).
  - reflexivity.
  - reflexivity.
Defined.

Lemma selection_is_idempotent_witness :
  let st := Sample.loaded Sample.ringInnerOuterFrame false in
  let once := App.updateContourSelection st 300 10 in
  let twice := App.updateContourSelection (fst once) 300 10 in
  App.lastCnt st = Some (Sample.box 25 25 50 60)
  /\ App.lastCnt (fst once) = Some (Sample.box 20 20 40 40)
  /\ App.lastCnt (fst twice) = App.lastCnt (fst once)
  /\ App.scene (fst twice) = App.scene (fst once).
Proof.
  cbn zeta. split; [reflexivity|]. split; [reflexivity|].
  destruct (@selection_is_idempotent (Sample.tracing Sample.ringInnerOuterFrame)
              (Sample.loaded Sample.ringInnerOuterFrame false) 300 10
              (Sample.mkRaster 500 500 Sample.Blank))
    as (Hlast & Hscene & _).
  - reflexivity.
  - vm_compute. lia.
  - split; assumption.
Defined.

(** ** More on the point-reduction filter *)

Section FilterMore.
Import Filter.
Variables scale tolerace : Q.

Lemma getThreeVector_greedy_eq (cnt : Contour) :
  getThreeVector cnt scale tolerace
  = greedy tolerace sentinel (map (scaled scale) cnt).
Proof. unfold getThreeVector. now rewrite run_greedy. Qed.

Lemma greedy_head (pts : list Vector2) (kept p : Vector2) :
  greedy tolerace kept pts !! 0%nat = Some p -> differs tolerace kept p.
Proof.
  induction pts as [|a pts IH]; cbn; [discriminate|].
  destruct (differsb tolerace kept a) eqn:E; [|exact IH].
  cbn. intros [= <-]. now apply differsb_differs.
Qed.

Lemma greedy_separated (pts : list Vector2) (kept : Vector2) (i : nat)
    (p q : Vector2) :
  greedy tolerace kept pts !! i = Some p ->
  greedy tolerace kept pts !! S i = Some q ->
  differs tolerace p q.
Proof.
  revert kept i. induction pts as [|a pts IH]; intros kept i; cbn;
    [discriminate|].
  destruct (differsb tolerace kept a); [|apply IH].
  destruct i as [|i]; cbn.
  - intros [= <-]. apply greedy_head.
  - apply IH.
Qed.

Lemma greedy_sublist (pts : list Vector2) (kept : Vector2) :
  greedy tolerace kept pts `sublist_of` pts.
Proof.
  revert kept. induction pts as [|a pts IH]; intros kept; cbn;
    [constructor|].
  destruct (differsb tolerace kept a).
  - apply sublist_skip, IH.
  - apply sublist_cons, IH.
Qed.

End FilterMore.

(** X1.  Consecutive vertices of the output of [getThreeVector] differ by
    more than the tolerance in x or in y, and so does the first vertex from
    the sentinel (-1000, -1000). *)
Theorem kept_vertices_are_separated
    (cnt : Contour) (scaleF tolerace : Q) :
  let out := Filter.getThreeVector cnt scaleF tolerace in
  (forall p, out !! 0%nat = Some p ->
     Filter.differs tolerace Filter.sentinel p)
  /\ (forall i p q, out !! i = Some p -> out !! S i = Some q ->
        Filter.differs tolerace p q).
Proof.
  cbn zeta. rewrite getThreeVector_greedy_eq. split.
  - intros p. apply greedy_head.
  - intros i p q. apply greedy_separated.
Qed.

(** X2.  The output of [getThreeVector] is a subsequence of the scaled rows
    of the contour: vertices are only dropped, never moved, added or
    reordered. *)
Theorem kept_vertices_are_a_subsequence
    (cnt : Contour) (scaleF tolerace : Q) :
  Filter.getThreeVector cnt scaleF tolerace
  `sublist_of` map (Filter.scaled scaleF) cnt.
Proof.
  rewrite getThreeVector_greedy_eq. apply greedy_sublist.
Qed.

(** ** Rounding to nearest

    The sum and the difference of two finite doubles are rounded so that
    no double lies strictly between the exact result and the rounded one.
    Hence a strict comparison against a rounded band end is sound for the
    exact values: if [lastX + tolerace < currentX] holds of the doubles,
    the exact values satisfy it too. *)

Section RoundingFacts.
Import SpecFloat Rounding.
Local Open Scope Z_scope.

(** [digits2_pos] counts the binary digits. *)
Lemma digits2_pos_spec (p : positive) :
  2 ^ (Zpos (digits2_pos p) - 1) <= Zpos p < 2 ^ Zpos (digits2_pos p).
Proof.
  induction p as [p IH|p IH|]; cbn [digits2_pos].
  - rewrite Pos2Z.inj_succ.
    replace (Z.succ (Zpos (digits2_pos p)) - 1) with (Zpos (digits2_pos p))
      by lia.
    rewrite Z.pow_succ_r by lia.
    assert (H : 2 ^ Zpos (digits2_pos p) = 2 * 2 ^ (Zpos (digits2_pos p) - 1)).
    { rewrite <- Z.pow_succ_r by lia. f_equal. lia. }
    lia.
  - rewrite Pos2Z.inj_succ.
    replace (Z.succ (Zpos (digits2_pos p)) - 1) with (Zpos (digits2_pos p))
      by lia.
    rewrite Z.pow_succ_r by lia.
    assert (H : 2 ^ Zpos (digits2_pos p) = 2 * 2 ^ (Zpos (digits2_pos p) - 1)).
    { rewrite <- Z.pow_succ_r by lia. f_equal. lia. }
    lia.
  - cbn. lia.
Qed.

(** One shift to the right halves the mantissa, and keeps the location
    exact when the bit shifted out is 0. *)
Lemma shr_1_spec (mrs : shr_record) :
  0 <= shr_m mrs ->
  let mrs' := shr_1 mrs in
  shr_m mrs' = shr_m mrs / 2
  /\ (shr_m mrs mod 2 = 0 -> orb (shr_r mrs) (shr_s mrs) = false ->
      orb (shr_r mrs') (shr_s mrs') = false).
Proof.
  destruct mrs as [m r s]. cbn [shr_m shr_r shr_s]. intros Hm.
  destruct m as [|[p|p|]|p]; try lia; cbn [shr_1 shr_m shr_r shr_s].
  - split; [reflexivity|]. intros _ ->. reflexivity.
  - split.
    + rewrite Pos2Z.inj_xI. apply Z.div_unique with (r := 1); lia.
    + rewrite Pos2Z.inj_xI. intros H. exfalso.
      rewrite Z.add_comm, Z.mul_comm, Z_mod_plus_full in H. discriminate.
  - split.
    + rewrite Pos2Z.inj_xO. apply Z.div_unique with (r := 0); lia.
    + intros _ ->. reflexivity.
  - split; [reflexivity|]. intros H. discriminate.
Qed.

Lemma iter_pos_shr_1 (p : positive) (mrs : shr_record) :
  0 <= shr_m mrs ->
  let mrs' := iter_pos shr_1 p mrs in
  shr_m mrs' = shr_m mrs / 2 ^ Zpos p
  /\ (shr_m mrs mod 2 ^ Zpos p = 0 -> orb (shr_r mrs) (shr_s mrs) = false ->
      orb (shr_r mrs') (shr_s mrs') = false).
Proof.
  assert (Hcomp : forall (f g : shr_record -> shr_record) (a b : Z),
             0 < a -> 0 < b ->
             (forall x, 0 <= shr_m x ->
                shr_m (f x) = shr_m x / 2 ^ a
                /\ (shr_m x mod 2 ^ a = 0 -> orb (shr_r x) (shr_s x) = false ->
                    orb (shr_r (f x)) (shr_s (f x)) = false)) ->
             (forall x, 0 <= shr_m x ->
                shr_m (g x) = shr_m x / 2 ^ b
                /\ (shr_m x mod 2 ^ b = 0 -> orb (shr_r x) (shr_s x) = false ->
                    orb (shr_r (g x)) (shr_s (g x)) = false)) ->
             forall x, 0 <= shr_m x ->
                shr_m (g (f x)) = shr_m x / 2 ^ (a + b)
                /\ (shr_m x mod 2 ^ (a + b) = 0 ->
                    orb (shr_r x) (shr_s x) = false ->
                    orb (shr_r (g (f x))) (shr_s (g (f x))) = false)).
  { intros f g a b Ha Hb Hf Hg x Hx.
    destruct (Hf x Hx) as [Hf1 Hf2].
    assert (Ha2 : 0 < 2 ^ a) by (apply Z.pow_pos_nonneg; lia).
    assert (Hb2 : 0 < 2 ^ b) by (apply Z.pow_pos_nonneg; lia).
    assert (Hfx : 0 <= shr_m (f x)).
    { rewrite Hf1. apply Z.div_pos; [exact Hx|exact Ha2]. }
    destruct (Hg (f x) Hfx) as [Hg1 Hg2].
    split.
    - rewrite Hg1, Hf1, Z.pow_add_r by lia. apply Z.div_div; lia.
    - intros Hmod Hrs. rewrite Z.pow_add_r in Hmod by lia.
      apply Z.mod_divide in Hmod; [|lia]. destruct Hmod as [k Hk].
      apply Hg2.
      + rewrite Hf1, Hk.
        replace (k * (2 ^ a * 2 ^ b)) with (k * 2 ^ b * 2 ^ a) by ring.
        rewrite Z.div_mul by lia. apply Z_mod_mult.
      + apply Hf2; [|exact Hrs]. rewrite Hk.
        replace (k * (2 ^ a * 2 ^ b)) with (k * 2 ^ b * 2 ^ a) by ring.
        apply Z_mod_mult. }
  revert mrs. induction p as [p IH|p IH|]; intros mrs Hm; cbn [iter_pos].
  - assert (H1 : forall x, 0 <= shr_m x ->
                shr_m (shr_1 x) = shr_m x / 2 ^ 1
                /\ (shr_m x mod 2 ^ 1 = 0 -> orb (shr_r x) (shr_s x) = false ->
                    orb (shr_r (shr_1 x)) (shr_s (shr_1 x)) = false)).
    { intros x Hx. apply shr_1_spec. exact Hx. }
    pose proof (Hcomp _ _ 1 (Zpos p) ltac:(lia) ltac:(lia) H1 IH) as H2.
    pose proof (Hcomp _ _ (1 + Zpos p) (Zpos p) ltac:(lia) ltac:(lia) H2 IH
                  mrs Hm) as H3.
    replace (Zpos p~1) with (1 + Zpos p + Zpos p) by lia. exact H3.
  - pose proof (Hcomp _ _ (Zpos p) (Zpos p) ltac:(lia) ltac:(lia) IH IH
                  mrs Hm) as H3.
    replace (Zpos p~0) with (Zpos p + Zpos p) by lia. exact H3.
  - apply shr_1_spec. exact Hm.
Qed.


Lemma pow2_pos (n : Z) : 0 <= n -> 0 < 2 ^ n.
Proof. intros. apply Z.pow_pos_nonneg; lia. Qed.

Lemma pow2_le (a b : Z) : 0 <= a <= b -> 2 ^ a <= 2 ^ b.
Proof. intros. apply Z.pow_le_mono_r; lia. Qed.

Lemma pow2_split (a b : Z) : 0 <= a -> 0 <= b -> 2 ^ (a + b) = 2 ^ a * 2 ^ b.
Proof. intros. apply Z.pow_add_r; lia. Qed.

(** A valid finite double: the exponent is at least -1074, the mantissa
    has at most 53 bits, and exactly 53 unless the exponent is -1074. *)
Lemma valid_finite (s : bool) (m : positive) (e : Z) :
  valid (S754_finite s m e) = true ->
  -1074 <= e <= 971
  /\ Zpos m < 2 ^ 53
  /\ (-1074 < e -> 2 ^ 52 <= Zpos m).
Proof.
  unfold valid. cbn [valid_binary].
  unfold bounded, canonical_mantissa, fexp, emin.
  change FloatOps.prec with 53. change FloatOps.emax with 1024.
  intros H. apply andb_true_iff in H. destruct H as [H1 H2].
  apply Z.eqb_eq in H1. apply Z.leb_le in H2.
  pose proof (digits2_pos_spec m) as [Hd1 Hd2].
  set (d := Zpos (digits2_pos m)) in *.
  assert (Hd : 1 <= d) by (subst d; lia).
  split; [lia|]. split.
  - assert (d <= 53) by lia.
    assert (2 ^ d <= 2 ^ 53) by (apply pow2_le; lia). lia.
  - intros He. assert (d = 53) by lia. subst d.
    replace 52 with (Zpos (digits2_pos m) - 1) by lia. exact Hd1.
Qed.

(** On valid doubles, [<] is the order of the values. *)
Lemma SFltb_scaledValue (x y : spec_float) :
  valid x = true -> valid y = true ->
  isFinite x = true -> isFinite y = true ->
  SFltb x y = true -> scaledValue x < scaledValue y.
Proof.
  intros Hx Hy Fx Fy. unfold SFltb.
  destruct x as [sx|sx| |sx mx ex]; try discriminate;
    destruct y as [sy|sy| |sy my ey]; try discriminate;
    cbn [SFcompare scaledValue].
  - destruct sy; intros H; [cbv in H; discriminate H|]. cbn [cond_Zopp].
    assert (0 < 2 ^ (ey + 1074)).
    { apply pow2_pos. apply valid_finite in Hy. lia. }
    nia.
  - destruct sx; intros H; [|cbv in H; discriminate H]. cbn [cond_Zopp].
    assert (0 < 2 ^ (ex + 1074)).
    { apply pow2_pos. apply valid_finite in Hx. lia. }
    nia.
  - apply valid_finite in Hx, Hy.
    destruct Hx as (Hex & Hmx & Hnx). destruct Hy as (Hey & Hmy & Hny).
    assert (Px : 0 < 2 ^ (ex + 1074)) by (apply pow2_pos; lia).
    assert (Py : 0 < 2 ^ (ey + 1074)) by (apply pow2_pos; lia).
    assert (Hlt : forall (m1 m2 : positive) e1 e2,
               -1074 <= e1 -> e1 < e2 -> Zpos m1 < 2 ^ 53 ->
               2 ^ 52 <= Zpos m2 ->
               Zpos m1 * 2 ^ (e1 + 1074) < Zpos m2 * 2 ^ (e2 + 1074)).
    { intros m1 m2 e1 e2 H1 H2 H3 H4.
      replace (e2 + 1074) with ((e1 + 1074) + (e2 - e1)) by lia.
      rewrite (pow2_split (e1 + 1074) (e2 - e1)) by lia.
      assert (0 < 2 ^ (e1 + 1074)) by (apply pow2_pos; lia).
      assert (2 ^ 1 <= 2 ^ (e2 - e1)) by (apply pow2_le; lia).
      change (2 ^ 1) with 2 in *.
      assert (Zpos m1 * 2 ^ (e1 + 1074) < 2 ^ 53 * 2 ^ (e1 + 1074))
        by (apply Z.mul_lt_mono_pos_r; assumption).
      assert (2 ^ 53 <= Zpos m2 * 2 ^ (e2 - e1)).
      { change (2 ^ 53) with (2 ^ 52 * 2).
        apply Z.mul_le_mono_nonneg; lia. }
      assert (2 ^ 53 * 2 ^ (e1 + 1074)
              <= Zpos m2 * 2 ^ (e2 - e1) * 2 ^ (e1 + 1074))
        by (apply Z.mul_le_mono_nonneg_r; lia).
      lia. }
    destruct sx, sy; cbn [cond_Zopp]; try discriminate.
    + destruct (Z.compare_spec ex ey) as [->|Hc|Hc]; try discriminate.
      * rewrite Pos.compare_cont_spec. cbn [Pos.switch_Eq].
        destruct (Pos.compare_spec mx my) as [->|Hm|Hm]; cbn [CompOpp];
          try discriminate.
        intros _. apply Pos2Z.pos_lt_pos in Hm.
        assert (Zpos my * 2 ^ (ey + 1074) < Zpos mx * 2 ^ (ey + 1074))
          by (apply Z.mul_lt_mono_pos_r; assumption).
        lia.
      * intros _.
        pose proof (Hlt my mx ey ex ltac:(lia) Hc Hmy (Hnx ltac:(lia))). lia.
    + intros _.
      assert (0 < Zpos mx * 2 ^ (ex + 1074)) by (apply Z.mul_pos_pos; lia).
      assert (0 < Zpos my * 2 ^ (ey + 1074)) by (apply Z.mul_pos_pos; lia).
      lia.
    + destruct (Z.compare_spec ex ey) as [->|Hc|Hc]; try discriminate.
      * rewrite Pos.compare_cont_spec. cbn [Pos.switch_Eq].
        destruct (Pos.compare_spec mx my) as [->|Hm|Hm]; cbn [CompOpp];
          try discriminate.
        intros _. apply Pos2Z.pos_lt_pos in Hm.
        apply Z.mul_lt_mono_pos_r; assumption.
      * intros _.
        pose proof (Hlt mx my ex ey ltac:(lia) Hc Hmx (Hny ltac:(lia))). lia.
Qed.


Lemma fexp_eq (x : Z) :
  fexp FloatOps.prec FloatOps.emax x = Z.max (x - 53) (-1074).
Proof. reflexivity. Qed.

Lemma pow2_lt_inv (a b : Z) : 0 <= a -> 0 <= b -> 2 ^ a < 2 ^ b -> a < b.
Proof. intros Ha Hb H. apply (Z.pow_lt_mono_r_iff 2); lia. Qed.

(** [shr] from an exact location: no shift for [n <= 0], division by
    [2^n] otherwise. *)
Lemma shr_exact (m e n : Z) (mrs : shr_record) (e' : Z) :
  0 <= m ->
  shr (Build_shr_record m false false) e n = (mrs, e') ->
  (n <= 0 -> mrs = Build_shr_record m false false /\ e' = e)
  /\ (0 < n ->
      e' = e + n /\ shr_m mrs = m / 2 ^ n
      /\ (m mod 2 ^ n = 0 -> loc_of_shr_record mrs = loc_Exact)).
Proof.
  intros Hm. unfold shr. destruct n as [|p|p].
  - intros [= <- <-]. split; [now split|lia].
  - intros [= <- <-]. split; [lia|]. intros _.
    pose proof (iter_pos_shr_1 p (Build_shr_record m false false) Hm) as H.
    cbn zeta in H. cbn [shr_m shr_r shr_s] in H. destruct H as [H1 H2].
    split; [reflexivity|]. split; [exact H1|].
    intros Hmod. specialize (H2 Hmod eq_refl).
    destruct (iter_pos shr_1 p _) as [m' r' s']. cbn [shr_r shr_s] in H2.
    apply orb_false_iff in H2. destruct H2 as [-> ->]. reflexivity.
  - intros [= <- <-]. split; [now split|lia].
Qed.

(** Rounding keeps the truncated mantissa or adds one to it, and adds one
    only where the location is not exact. *)
Lemma round_nearest_even_cases (q : Z) (l : location) :
  round_nearest_even q l = q
  \/ (round_nearest_even q l = q + 1 /\ l <> loc_Exact).
Proof.
  destruct l as [|[| |]]; cbn.
  - now left.
  - destruct (Z.even q); [now left|right]. split; [reflexivity|discriminate].
  - now left.
  - right. split; [reflexivity|discriminate].
Qed.

Lemma Zdigits2_pos (m : positive) : Zdigits2 (Zpos m) = Zpos (digits2_pos m).
Proof. reflexivity. Qed.

(** Rounding a positive integer [m * 2^e] whose exponent is not above the
    canonical one: the result carries a neighbour of the value on the grid
    of the canonical exponent. *)
Lemma binary_round_aux_near (s : bool) (m : positive) (e : Z) :
  -1074 <= e ->
  e <= fexp FloatOps.prec FloatOps.emax (Zpos (digits2_pos m) + e) ->
  exists w,
    nearOnGrid (Zpos m * 2 ^ (e + 1074)) w
    /\ carries s w
         (binary_round_aux FloatOps.prec FloatOps.emax s (Zpos m) e loc_Exact).
Proof.
  intros He Hf. rewrite fexp_eq in Hf.
  pose proof (digits2_pos_spec m) as [Hd1 Hd2].
  set (d := Zpos (digits2_pos m)) in *.
  assert (Hd : 1 <= d) by (subst d; lia).
  set (f := Z.max (d + e - 53) (-1074)) in *.
  set (n := f - e).
  assert (Hn : 0 <= n) by (subst n; lia).
  assert (Pe : 0 < 2 ^ (e + 1074)) by (apply pow2_pos; lia).
  assert (Pn : 0 < 2 ^ n) by (apply pow2_pos; lia).
  assert (Pfe : 2 ^ (f + 1074) = 2 ^ n * 2 ^ (e + 1074)).
  { replace (f + 1074) with (n + (e + 1074)) by (subst n; lia).
    apply pow2_split; lia. }
  unfold binary_round_aux, shr_fexp.
  rewrite Zdigits2_pos. fold d. rewrite fexp_eq. fold f. fold n.
  cbn [shr_record_of_loc].
  destruct (shr (Build_shr_record (Zpos m) false false) e n) as [mrs' e']
    eqn:E1.
  destruct (shr_exact (Zpos m) e n mrs' e' ltac:(lia) E1) as [Hz Hp].
  set (q := Zpos m / 2 ^ n).
  assert (Hq : q * 2 ^ n <= Zpos m < (q + 1) * 2 ^ n).
  { subst q. pose proof (Z.div_mod (Zpos m) (2 ^ n) ltac:(lia)) as H1.
    pose proof (Z.mod_pos_bound (Zpos m) (2 ^ n) Pn) as H2. nia. }
  assert (Hq0 : 0 <= q) by (subst q; apply Z.div_pos; lia).
  assert (Hq52 : -1074 < f -> 2 ^ 52 <= q).
  { intros H. assert (Hfd : f = d + e - 53) by lia.
    assert (Hnd : n = d - 53) by (subst n; lia).
    assert (2 ^ (d - 1) = 2 ^ 52 * 2 ^ n).
    { replace (d - 1) with (52 + n) by lia. apply pow2_split; lia. }
    assert (2 ^ 52 * 2 ^ n < (q + 1) * 2 ^ n) by lia.
    assert (2 ^ 52 < q + 1) by (apply (Z.mul_lt_mono_pos_r (2 ^ n)); lia).
    lia. }
  assert (Hq53 : q < 2 ^ 53).
  { assert (Hdn : d <= n + 53) by (subst n; lia).
    assert (2 ^ d <= 2 ^ (n + 53)) by (apply pow2_le; lia).
    assert (2 ^ (n + 53) = 2 ^ 53 * 2 ^ n).
    { rewrite Z.add_comm. apply pow2_split; lia. }
    assert (q * 2 ^ n < 2 ^ 53 * 2 ^ n) by lia.
    apply (Z.mul_lt_mono_pos_r (2 ^ n)); lia. }
  assert (Hshift : e' = f /\ shr_m mrs' = q
                   /\ (Zpos m mod 2 ^ n = 0
                       -> loc_of_shr_record mrs' = loc_Exact)).
  { destruct (Z.eq_dec n 0) as [Hn0|Hn0].
    - destruct (Hz ltac:(lia)) as [-> ->]. cbn [shr_m loc_of_shr_record].
      split; [subst n; lia|]. split; [|reflexivity].
      subst q. rewrite Hn0. change (2 ^ 0) with 1. now rewrite Z.div_1_r.
    - destruct (Hp ltac:(lia)) as (-> & H1 & H2).
      split; [subst n; lia|]. split; assumption. }
  destruct Hshift as (-> & Hm' & Hloc).
  rewrite Hm'.
  set (m1 := round_nearest_even q (loc_of_shr_record mrs')).
  assert (Hm1 : m1 = q \/ (m1 = q + 1 /\ q * 2 ^ n < Zpos m)).
  { subst m1. destruct (round_nearest_even_cases q (loc_of_shr_record mrs'))
      as [->|[-> Hne]]; [now left|right]. split; [reflexivity|].
    destruct (Z.eq_dec (Zpos m mod 2 ^ n) 0) as [Hmod|Hmod];
      [now destruct Hne; apply Hloc|].
    pose proof (Z.div_mod (Zpos m) (2 ^ n) ltac:(lia)) as H1.
    pose proof (Z.mod_pos_bound (Zpos m) (2 ^ n) Pn) as H2.
    fold q in H1. nia. }
  clearbody m1.
  exists (m1 * 2 ^ (f + 1074)).
  assert (Pf : 0 < 2 ^ (f + 1074)) by (apply pow2_pos; lia).
  split.
  { exists q, m1, f. split; [lia|]. split; [exact Hq0|].
    split; [reflexivity|]. split; [|split; [|exact Hq52]].
    - rewrite Pfe. nia.
    - destruct Hm1 as [->|[-> Hlt]]; [now left|right].
      split; [reflexivity|]. rewrite Pfe. nia. }
  (* the second normalisation *)
  assert (Hover : 971 < f -> 2 ^ (1024 + 1074) <= q * 2 ^ (f + 1074)).
  { intros H. assert (2 ^ 52 <= q) by (apply Hq52; lia).
    assert (2 ^ (972 + 1074) <= 2 ^ (f + 1074)) by (apply pow2_le; lia).
    assert (2 ^ (1024 + 1074) = 2 ^ 52 * 2 ^ (972 + 1074)) by reflexivity.
    nia. }
  destruct m1 as [|p1|p1]; [| |lia].
  - (* rounded to zero *)
    cbn [Zdigits2]. rewrite Z.add_0_l, fexp_eq.
    replace (Z.max (f - 53) (-1074) - f) with (- (f - Z.max (f - 53) (-1074)))
      by lia.
    destruct (f - Z.max (f - 53) (-1074)) as [|k|k] eqn:Ek; [| |lia];
      cbn [Z.opp shr shr_m].
    + left. now split.
    + left. now split.
  - rewrite Zdigits2_pos, fexp_eq.
    pose proof (digits2_pos_spec p1) as [Hp1 Hp2].
    set (d1 := Zpos (digits2_pos p1)) in *.
    assert (Hd1' : 1 <= d1) by (subst d1; lia).
    assert (Hp53 : Zpos p1 <= 2 ^ 53) by lia.
    destruct (Z.eq_dec (Zpos p1) (2 ^ 53)) as [Heq|Hneq].
    + (* carry: 2^53 is renormalised to 2^52 *)
      assert (d1 = 54).
      { assert (d1 - 1 < 54).
        { apply pow2_lt_inv; [lia|lia|].
          change (2 ^ 54) with (2 * 2 ^ 53). lia. }
        assert (53 < d1) by (apply pow2_lt_inv; lia).
        lia. }
      replace (Z.max (d1 + f - 53) (-1074) - f) with 1 by lia.
      cbn [shr iter_pos]. injection Heq as ->. cbn [shr_1 shr_m].
      destruct (Z.leb_spec (f + 1) (FloatOps.emax - FloatOps.prec))
        as [Hle|Hgt].
      * right. left. eexists. eexists. split; [reflexivity|].
        split; [lia|].
        replace (f + 1 + 1074) with (1 + (f + 1074)) by lia.
        rewrite pow2_split by lia. change (2 ^ 1) with 2. lia.
      * right. right. split; [reflexivity|].
        change (FloatOps.emax - FloatOps.prec) with 971 in Hgt.
        assert (2 ^ (971 + 1074) <= 2 ^ (f + 1074)) by (apply pow2_le; lia).
        change (2 ^ (1024 + 1074)) with (2 ^ 53 * 2 ^ (971 + 1074)).
        change (Z.pos 9007199254740992) with (2 ^ 53). nia.
    + assert (d1 <= 53).
      { assert (d1 - 1 < 53) by (apply pow2_lt_inv; lia). lia. }
      replace (Z.max (d1 + f - 53) (-1074) - f)
        with (- (f - Z.max (d1 + f - 53) (-1074))) by lia.
      assert (Hsame : forall k, 0 <= k ->
                shr (Build_shr_record (Zpos p1) false false) f (- k)
                = (Build_shr_record (Zpos p1) false false, f)).
      { intros [|k|k] Hk; [reflexivity|reflexivity|lia]. }
      rewrite Hsame by lia. cbn [shr_m].
      destruct (Z.leb_spec f (FloatOps.emax - FloatOps.prec)) as [Hle|Hgt].
      * right. left. exists p1, f. split; [reflexivity|].
        split; [lia|reflexivity].
      * right. right. split; [reflexivity|].
        change (FloatOps.emax - FloatOps.prec) with 971 in Hgt.
        specialize (Hover Hgt).
        destruct Hm1 as [Hm1|[Hm1 _]]; rewrite Hm1; nia.
Qed.


Lemma iter_xO_spec (d m : positive) :
  Zpos (Pos.iter xO m d) = Zpos m * 2 ^ Zpos d
  /\ Zpos (digits2_pos (Pos.iter xO m d)) = Zpos (digits2_pos m) + Zpos d.
Proof.
  induction d as [|d IH] using Pos.peano_ind.
  - cbn [Pos.iter digits2_pos]. split; [rewrite Pos2Z.inj_xO; lia|lia].
  - rewrite Pos.iter_succ. cbn [digits2_pos]. destruct IH as [IH1 IH2].
    split.
    + rewrite Pos2Z.inj_xO, IH1, Pos2Z.inj_succ, Z.pow_succ_r by lia. ring.
    + rewrite Pos2Z.inj_succ, IH2, Pos2Z.inj_succ. lia.
Qed.

Lemma shl_align_spec (m : positive) (e e' : Z) :
  let (mz, ez) := shl_align m e e' in
  (e' < e ->
   ez = e' /\ Zpos mz = Zpos m * 2 ^ (e - e')
   /\ Zpos (digits2_pos mz) = Zpos (digits2_pos m) + (e - e'))
  /\ (e <= e' -> mz = m /\ ez = e).
Proof.
  unfold shl_align. destruct (e' - e) as [|d|d] eqn:E.
  - split; [lia|now split].
  - split; [lia|now split].
  - split; [|lia]. intros _. replace (e - e') with (Zpos d) by lia.
    destruct (iter_xO_spec d m) as [H1 H2]. now split.
Qed.

(** Rounding a positive integer [m * 2^e], whatever its exponent. *)
Lemma binary_round_near (s : bool) (m : positive) (e : Z) :
  -1074 <= e ->
  exists w,
    nearOnGrid (Zpos m * 2 ^ (e + 1074)) w
    /\ carries s w (binary_round FloatOps.prec FloatOps.emax s m e).
Proof.
  intros He. unfold binary_round.
  set (f := fexp FloatOps.prec FloatOps.emax (Zpos (digits2_pos m) + e)).
  assert (Hf : f = Z.max (Zpos (digits2_pos m) + e - 53) (-1074))
    by reflexivity.
  pose proof (shl_align_spec m e f) as H.
  destruct (shl_align m e f) as [mz ez]. destruct H as [Hlt Hge].
  destruct (Z.lt_ge_cases f e) as [C|C].
  - destruct (Hlt C) as (-> & Hmz & Hdz).
    destruct (binary_round_aux_near s mz f ltac:(lia)) as (w & Hw & Hc).
    { rewrite fexp_eq, Hdz. lia. }
    exists w. split; [|exact Hc].
    replace (Zpos m * 2 ^ (e + 1074)) with (Zpos mz * 2 ^ (f + 1074));
      [exact Hw|].
    rewrite Hmz. replace (e + 1074) with ((e - f) + (f + 1074)) by lia.
    rewrite (pow2_split (e - f) (f + 1074)) by lia. ring.
  - destruct (Hge C) as [-> ->].
    apply binary_round_aux_near; [exact He|]. fold f. exact C.
Qed.

(** A valid positive double lies on the same side of the rounded value as
    of the value that was rounded. *)
Lemma grid_between (v w : Z) (sc : bool) (mc : positive) (ec : Z) :
  nearOnGrid v w ->
  valid (S754_finite sc mc ec) = true ->
  let C := Zpos mc * 2 ^ (ec + 1074) in
  (C <= v -> C <= w) /\ (v <= C -> w <= C).
Proof.
  intros (q & m1 & f & Hf & Hq0 & -> & Hv & Hm1 & Hq52) Hvalid C.
  apply valid_finite in Hvalid. destruct Hvalid as (Hec & Hmc & _).
  set (G := 2 ^ (f + 1074)) in *.
  assert (PG : 0 < G) by (apply pow2_pos; lia).
  assert (Hm1q : q <= m1) by (destruct Hm1 as [->|[-> _]]; lia).
  destruct (Z.lt_ge_cases ec f) as [Hlt|Hge].
  - (* the double is below the grid *)
    assert (Hq : 2 ^ 52 <= q) by (apply Hq52; lia).
    assert (H1 : 2 ^ (ec + 1 + 1074) <= G) by (apply pow2_le; lia).
    assert (H2 : 2 ^ (ec + 1 + 1074) = 2 * 2 ^ (ec + 1074)).
    { replace (ec + 1 + 1074) with (1 + (ec + 1074)) by lia.
      rewrite (pow2_split 1 (ec + 1074)) by lia. reflexivity. }
    assert (Pc : 0 < 2 ^ (ec + 1074)) by (apply pow2_pos; lia).
    assert (H3 : C < 2 ^ 53 * 2 ^ (ec + 1074))
      by (apply Z.mul_lt_mono_pos_r; assumption).
    assert (H4 : 2 ^ 53 * 2 ^ (ec + 1074) <= q * G).
    { change (2 ^ 53) with (2 ^ 52 * 2).
      rewrite <- Z.mul_assoc, <- H2. apply Z.mul_le_mono_nonneg; lia. }
    assert (H5 : q * G <= m1 * G) by (apply Z.mul_le_mono_nonneg_r; lia).
    split; lia.
  - (* the double is on the grid *)
    set (K := Zpos mc * 2 ^ (ec - f)).
    assert (HK : C = K * G).
    { subst C K G. replace (ec + 1074) with ((ec - f) + (f + 1074)) by lia.
      rewrite (pow2_split (ec - f) (f + 1074)) by lia. ring. }
    rewrite HK. split; intros H.
    + assert (K < q + 1) by (apply (Z.mul_lt_mono_pos_r G); lia).
      apply Z.mul_le_mono_nonneg_r; lia.
    + destruct Hm1 as [->|[-> Hlt]].
      * assert (q <= K) by (apply (Z.mul_le_mono_pos_r _ _ G); lia).
        apply Z.mul_le_mono_nonneg_r; lia.
      * assert (q < K) by (apply (Z.mul_lt_mono_pos_r G); lia).
        apply Z.mul_le_mono_nonneg_r; lia.
Qed.

Lemma exact_between (r : spec_float) :
  valid r = true -> isFinite r = true -> roundsBetween (scaledValue r) r.
Proof.
  intros Hr Fr c Hc Fc. split; intros H.
  - destruct (SFltb r c) eqn:E; [|reflexivity].
    pose proof (SFltb_scaledValue r c Hr Hc Fr Fc E). lia.
  - destruct (SFltb c r) eqn:E; [|reflexivity].
    pose proof (SFltb_scaledValue c r Hc Hr Fc Fr E). lia.
Qed.

Lemma valid_magnitude (sc : bool) (mc : positive) (ec : Z) :
  valid (S754_finite sc mc ec) = true ->
  0 < Zpos mc * 2 ^ (ec + 1074) < 2 ^ (1024 + 1074).
Proof.
  intros H. apply valid_finite in H. destruct H as (He & Hm & _).
  assert (0 < 2 ^ (ec + 1074)) by (apply pow2_pos; lia).
  assert (2 ^ (ec + 1074) <= 2 ^ (971 + 1074)) by (apply pow2_le; lia).
  split; [apply Z.mul_pos_pos; lia|].
  change (2 ^ (1024 + 1074)) with (2 ^ 53 * 2 ^ (971 + 1074)).
  apply Z.le_lt_trans with (Zpos mc * 2 ^ (971 + 1074)).
  - apply Z.mul_le_mono_nonneg_l; lia.
  - apply Z.mul_lt_mono_pos_r; [apply pow2_pos|]; lia.
Qed.

Lemma carries_between (s : bool) (v w : Z) (r : spec_float) :
  0 < v -> nearOnGrid v w -> carries s w r -> valid r = true ->
  roundsBetween (cond_Zopp s v) r.
Proof.
  intros Hv Hgrid Hcar Hr c Hc Fc.
  assert (Hmag : forall sc mc ec, c = S754_finite sc mc ec ->
            let C := Zpos mc * 2 ^ (ec + 1074) in
            0 < C < 2 ^ (1024 + 1074)
            /\ (C <= v -> C <= w) /\ (v <= C -> w <= C)).
  { intros sc mc ec ->. split; [now apply (valid_magnitude sc)|].
    now apply (grid_between v w sc). }
  assert (Hw0 : 0 <= w).
  { destruct Hgrid as (q & m1 & f & Hf & Hq0 & -> & _ & Hm1 & _).
    assert (0 < 2 ^ (f + 1074)) by (apply pow2_pos; lia).
    apply Z.mul_nonneg_nonneg; [|lia].
    destruct Hm1 as [->|[-> _]]; lia. }
  assert (Fr : r = S754_infinity s \/ (isFinite r = true
                                       /\ scaledValue r = cond_Zopp s w)).
  { destruct Hcar as [[-> ->]|[(m & e & -> & He & <-)|[-> _]]].
    - right. split; [reflexivity|]. now destruct s.
    - right. now split.
    - now left. }
  assert (Hinf : r = S754_infinity s -> 2 ^ (1024 + 1074) <= w).
  { intros ->. destruct Hcar as [[_ H]|[(m & e & H & _)|[_ H]]];
      try discriminate. exact H. }
  split; intros H.
  - destruct (SFltb r c) eqn:E; [exfalso|reflexivity].
    destruct Fr as [->|[Fr Hval]].
    + (* overflow *)
      destruct s.
      * destruct c as [sc|sc| |sc mc ec]; try discriminate.
        -- cbn [scaledValue cond_Zopp] in H. lia.
        -- destruct (Hmag sc mc ec eq_refl) as (HC & _ & HL2).
           cbn [scaledValue cond_Zopp] in H. specialize (Hinf eq_refl).
           destruct sc; cbn [cond_Zopp] in H; lia.
      * destruct c as [sc|sc| |sc mc ec]; discriminate.
    + pose proof (SFltb_scaledValue r c Hr Hc Fr Fc E) as Hlt.
      rewrite Hval in Hlt.
      destruct c as [sc|sc| |sc mc ec]; try discriminate.
      * cbn [scaledValue] in *. destruct s; cbn [cond_Zopp] in *; lia.
      * destruct (Hmag sc mc ec eq_refl) as (HC & HL1 & HL2).
        cbn [scaledValue] in *.
        destruct s, sc; cbn [cond_Zopp] in *; lia.
  - destruct (SFltb c r) eqn:E; [exfalso|reflexivity].
    destruct Fr as [->|[Fr Hval]].
    + destruct s.
      * destruct c as [sc|sc| |sc mc ec]; discriminate.
      * destruct c as [sc|sc| |sc mc ec]; try discriminate.
        -- cbn [scaledValue cond_Zopp] in H. lia.
        -- destruct (Hmag sc mc ec eq_refl) as (HC & _ & HL2).
           cbn [scaledValue cond_Zopp] in H. specialize (Hinf eq_refl).
           destruct sc; cbn [cond_Zopp] in H; lia.
    + pose proof (SFltb_scaledValue c r Hc Hr Fc Fr E) as Hlt.
      rewrite Hval in Hlt.
      destruct c as [sc|sc| |sc mc ec]; try discriminate.
      * cbn [scaledValue] in *. destruct s; cbn [cond_Zopp] in *; lia.
      * destruct (Hmag sc mc ec eq_refl) as (HC & HL1 & HL2).
        cbn [scaledValue] in *.
        destruct s, sc; cbn [cond_Zopp] in *; lia.
Qed.

Lemma binary_normalize_between (M e : Z) :
  -1074 <= e ->
  valid (binary_normalize FloatOps.prec FloatOps.emax M e false) = true ->
  roundsBetween (M * 2 ^ (e + 1074))
    (binary_normalize FloatOps.prec FloatOps.emax M e false).
Proof.
  intros He Hr. assert (P : 0 < 2 ^ (e + 1074)) by (apply pow2_pos; lia).
  destruct M as [|m|m]; cbn [binary_normalize] in *.
  - apply (exact_between (S754_zero false)); reflexivity.
  - destruct (binary_round_near false m e He) as (w & Hw & Hc).
    apply (carries_between false (Zpos m * 2 ^ (e + 1074)) w);
      try assumption.
    apply Z.mul_pos_pos; lia.
  - destruct (binary_round_near true m e He) as (w & Hw & Hc).
    replace (Z.neg m * 2 ^ (e + 1074))
      with (cond_Zopp true (Zpos m * 2 ^ (e + 1074)))
      by (cbn [cond_Zopp]; lia).
    apply (carries_between true (Zpos m * 2 ^ (e + 1074)) w);
      try assumption.
    apply Z.mul_pos_pos; lia.
Qed.


(** Aligning a mantissa on a lower exponent keeps the value. *)
Lemma aligned_value (m : positive) (e ez : Z) :
  -1074 <= ez -> ez <= e ->
  Zpos (fst (shl_align m e ez)) * 2 ^ (ez + 1074) = Zpos m * 2 ^ (e + 1074).
Proof.
  intros H1 H2. pose proof (shl_align_spec m e ez) as H.
  destruct (shl_align m e ez) as [mz ez']. cbn [fst].
  destruct H as [Hlt Hge]. destruct (Z.lt_ge_cases ez e) as [C|C].
  - destruct (Hlt C) as (_ & -> & _).
    replace (e + 1074) with ((e - ez) + (ez + 1074)) by lia.
    rewrite (pow2_split (e - ez) (ez + 1074)) by lia. ring.
  - destruct (Hge C) as [-> _]. replace ez with e by lia. reflexivity.
Qed.

Lemma cond_Zopp_mul (s : bool) (a b : Z) :
  cond_Zopp s a * b = cond_Zopp s (a * b).
Proof. destruct s; cbn [cond_Zopp]; lia. Qed.

(** The sum of two finite doubles is rounded to a double on no valid
    double's wrong side of the exact sum. *)
Lemma SFadd_between (x y : spec_float) :
  valid x = true -> valid y = true ->
  isFinite x = true -> isFinite y = true ->
  valid (FloatAxioms.SF64add x y) = true ->
  roundsBetween (scaledValue x + scaledValue y) (FloatAxioms.SF64add x y).
Proof.
  intros Hx Hy Fx Fy. unfold FloatAxioms.SF64add.
  destruct x as [sx|sx| |sx mx ex]; try discriminate;
    destruct y as [sy|sy| |sy my ey]; try discriminate;
    cbn [SFadd scaledValue].
  - intros Hr.
    replace (0 + 0) with
      (scaledValue (if sx then if sy then S754_zero sx else S754_zero false
                    else if sy then S754_zero false else S754_zero sx))
      by (destruct sx, sy; reflexivity).
    destruct sx, sy; apply exact_between; reflexivity.
  - intros _. rewrite Z.add_0_l.
    apply (exact_between (S754_finite sy my ey)); assumption.
  - intros _. rewrite Z.add_0_r.
    apply (exact_between (S754_finite sx mx ex)); assumption.
  - intros Hr.
    pose proof (valid_finite _ _ _ Hx) as (Hex & _).
    pose proof (valid_finite _ _ _ Hy) as (Hey & _).
    set (ez := Z.min ex ey) in *.
    replace (cond_Zopp sx (Zpos mx * 2 ^ (ex + 1074))
             + cond_Zopp sy (Zpos my * 2 ^ (ey + 1074)))
      with ((cond_Zopp sx (Zpos (fst (shl_align mx ex ez)))
             + cond_Zopp sy (Zpos (fst (shl_align my ey ez))))
            * 2 ^ (ez + 1074)).
    + apply binary_normalize_between; [subst ez; lia|exact Hr].
    + rewrite Z.mul_add_distr_r, !cond_Zopp_mul.
      rewrite !aligned_value by (subst ez; lia). reflexivity.
Qed.

Lemma SFsub_between (x y : spec_float) :
  valid x = true -> valid y = true ->
  isFinite x = true -> isFinite y = true ->
  valid (FloatAxioms.SF64sub x y) = true ->
  roundsBetween (scaledValue x - scaledValue y) (FloatAxioms.SF64sub x y).
Proof.
  intros Hx Hy Fx Fy. unfold FloatAxioms.SF64sub.
  destruct x as [sx|sx| |sx mx ex]; try discriminate;
    destruct y as [sy|sy| |sy my ey]; try discriminate;
    cbn [SFsub scaledValue].
  - intros Hr.
    replace (0 - 0) with
      (scaledValue (if sx then if sy then S754_zero false else S754_zero sx
                    else if sy then S754_zero sx else S754_zero false))
      by (destruct sx, sy; reflexivity).
    destruct sx, sy; apply exact_between; reflexivity.
  - intros Hr.
    replace (0 - cond_Zopp sy (Zpos my * 2 ^ (ey + 1074)))
      with (scaledValue (S754_finite (negb sy) my ey))
      by (destruct sy; cbn [scaledValue negb cond_Zopp]; lia).
    apply exact_between; [exact Hr|reflexivity].
  - intros _. rewrite Z.sub_0_r.
    apply (exact_between (S754_finite sx mx ex)); assumption.
  - intros Hr.
    pose proof (valid_finite _ _ _ Hx) as (Hex & _).
    pose proof (valid_finite _ _ _ Hy) as (Hey & _).
    set (ez := Z.min ex ey) in *.
    replace (cond_Zopp sx (Zpos mx * 2 ^ (ex + 1074))
             - cond_Zopp sy (Zpos my * 2 ^ (ey + 1074)))
      with ((cond_Zopp sx (Zpos (fst (shl_align mx ex ez)))
             - cond_Zopp sy (Zpos (fst (shl_align my ey ez))))
            * 2 ^ (ez + 1074)).
    + apply binary_normalize_between; [subst ez; lia|exact Hr].
    + rewrite Z.mul_sub_distr_r, !cond_Zopp_mul.
      rewrite !aligned_value by (subst ez; lia). reflexivity.
Qed.

(** On the doubles themselves: a strict comparison against a rounded sum
    or difference holds of the exact values. *)
Lemma add_ltb_sound (k t c : PrimFloat.float) :
  finiteb k = true -> finiteb t = true -> finiteb c = true ->
  PrimFloat.ltb (PrimFloat.add k t) c = true ->
  value k + value t < value c.
Proof.
  intros Fk Ft Fc H. rewrite FloatAxioms.ltb_spec in H.
  destruct (Z.lt_ge_cases (value k + value t) (value c)) as [C|C];
    [exact C|exfalso].
  pose proof (SFadd_between (FloatOps.Prim2SF k) (FloatOps.Prim2SF t)
                (FloatAxioms.Prim2SF_valid k) (FloatAxioms.Prim2SF_valid t)
                Fk Ft) as Hb.
  rewrite <- FloatAxioms.add_spec in Hb.
  specialize (Hb (FloatAxioms.Prim2SF_valid _) (FloatOps.Prim2SF c)
                (FloatAxioms.Prim2SF_valid c) Fc).
  destruct Hb as [Hb _]. rewrite (Hb C) in H. discriminate.
Qed.

Lemma sub_ltb_sound (k t c : PrimFloat.float) :
  finiteb k = true -> finiteb t = true -> finiteb c = true ->
  PrimFloat.ltb c (PrimFloat.sub k t) = true ->
  value c < value k - value t.
Proof.
  intros Fk Ft Fc H. rewrite FloatAxioms.ltb_spec in H.
  destruct (Z.lt_ge_cases (value c) (value k - value t)) as [C|C];
    [exact C|exfalso].
  pose proof (SFsub_between (FloatOps.Prim2SF k) (FloatOps.Prim2SF t)
                (FloatAxioms.Prim2SF_valid k) (FloatAxioms.Prim2SF_valid t)
                Fk Ft) as Hb.
  rewrite <- FloatAxioms.sub_spec in Hb.
  specialize (Hb (FloatAxioms.Prim2SF_valid _) (FloatOps.Prim2SF c)
                (FloatAxioms.Prim2SF_valid c) Fc).
  destruct Hb as [_ Hb]. rewrite (Hb C) in H. discriminate.
Qed.

End RoundingFacts.

Section ExactFacts.
Import SpecFloat Rounding.

Lemma Qpower2_scaled (e : Z) :
  (-1074 <= e)%Z ->
  Qpower 2 e * inject_Z (2 ^ 1074) == inject_Z (2 ^ (e + 1074)).
Proof.
  intros He.
  rewrite (Zpower_Qpower 2 1074) by lia.
  rewrite (Zpower_Qpower 2 (e + 1074)) by lia.
  change (inject_Z 2) with 2.
  rewrite Qpower_plus by discriminate. reflexivity.
Qed.

(** The rational of a finite double, times 2^1074, is its scaled value. *)
Lemma exact_value (x : Doubles.number) (q : Q) :
  Doubles.exact x = Some q ->
  finiteb x = true /\ q * inject_Z (2 ^ 1074) == inject_Z (value x).
Proof.
  unfold Doubles.exact, finiteb, value.
  pose proof (FloatAxioms.Prim2SF_valid x) as Hv.
  destruct (FloatOps.Prim2SF x) as [s|s| |s m e]; try discriminate.
  - intros [= <-]. split; [reflexivity|]. cbn [scaledValue]. reflexivity.
  - intros [= <-]. split; [reflexivity|]. cbn [scaledValue].
    apply valid_finite in Hv. destruct Hv as (He & _).
    rewrite Qred_correct.
    destruct s; cbn [cond_Zopp].
    + rewrite <- Z.mul_opp_l.
      rewrite inject_Z_mult, <- (Qpower2_scaled e) by lia.
      change (inject_Z (- Zpos m)) with (- inject_Z (Zpos m)). ring.
    + rewrite inject_Z_mult, <- (Qpower2_scaled e) by lia. ring.
Qed.

Lemma scaled_lt (a b : Q) (za zb : Z) :
  a * inject_Z (2 ^ 1074) == inject_Z za ->
  b * inject_Z (2 ^ 1074) == inject_Z zb ->
  (za < zb)%Z -> a < b.
Proof.
  intros Ha Hb H. rewrite Zlt_Qlt, <- Ha, <- Hb in H.
  apply Qmult_lt_r in H; [exact H|]. reflexivity.
Qed.

Lemma exceeds_above (tol k c : Doubles.number) (t kq cq : Q) :
  Doubles.exact tol = Some t -> Doubles.exact k = Some kq ->
  Doubles.exact c = Some cq ->
  PrimFloat.ltb (PrimFloat.add k tol) c = true ->
  kq + t < cq.
Proof.
  intros Et Ek Ec H.
  destruct (exact_value _ _ Et) as [Ft Vt].
  destruct (exact_value _ _ Ek) as [Fk Vk].
  destruct (exact_value _ _ Ec) as [Fc Vc].
  pose proof (add_ltb_sound k tol c Fk Ft Fc H) as Hlt.
  apply (scaled_lt _ _ (value k + value tol) (value c));
    [|exact Vc|exact Hlt].
  rewrite inject_Z_plus, <- Vk, <- Vt. ring.
Qed.

Lemma exceeds_below (tol k c : Doubles.number) (t kq cq : Q) :
  Doubles.exact tol = Some t -> Doubles.exact k = Some kq ->
  Doubles.exact c = Some cq ->
  PrimFloat.ltb c (PrimFloat.sub k tol) = true ->
  cq < kq - t.
Proof.
  intros Et Ek Ec H.
  destruct (exact_value _ _ Et) as [Ft Vt].
  destruct (exact_value _ _ Ek) as [Fk Vk].
  destruct (exact_value _ _ Ec) as [Fc Vc].
  pose proof (sub_ltb_sound k tol c Fk Ft Fc H) as Hlt.
  apply (scaled_lt _ _ (value c) (value k - value tol));
    [exact Vc| |exact Hlt].
  unfold Z.sub. rewrite inject_Z_plus, inject_Z_opp, <- Vk, <- Vt. ring.
Qed.

(** A finite point outside the rounded band of a finite point differs
    from it by more than the tolerance. *)
Lemma outside_differs (tol : Doubles.number) (kept p : Doubles.Vector2) :
  Doubles.finite tol ->
  Doubles.finite (Doubles.vx kept) -> Doubles.finite (Doubles.vy kept) ->
  Doubles.finite (Doubles.vx p) -> Doubles.finite (Doubles.vy p) ->
  Doubles.outside tol kept p -> Doubles.differs tol kept p = true.
Proof.
  intros [t Et] [kx Ekx] [ky Eky] [cx Ecx] [cy Ecy] H.
  unfold Doubles.differs, Doubles.exceeds.
  rewrite Et, Ekx, Eky, Ecx, Ecy. apply orb_true_iff.
  destruct H as [H|[H|[H|H]]].
  - left. apply Qltb_lt.
    pose proof (exceeds_above _ _ _ _ _ _ Et Ekx Ecx H).
    apply Qlt_le_trans with (cx - kx); [lra|apply Qle_Qabs].
  - left. apply Qltb_lt.
    pose proof (exceeds_below _ _ _ _ _ _ Et Ekx Ecx H).
    rewrite <- Qabs_opp.
    apply Qlt_le_trans with (- (cx - kx)); [lra|apply Qle_Qabs].
  - right. apply Qltb_lt.
    pose proof (exceeds_above _ _ _ _ _ _ Et Eky Ecy H).
    apply Qlt_le_trans with (cy - ky); [lra|apply Qle_Qabs].
  - right. apply Qltb_lt.
    pose proof (exceeds_below _ _ _ _ _ _ Et Eky Ecy H).
    rewrite <- Qabs_opp.
    apply Qlt_le_trans with (- (cy - ky)); [lra|apply Qle_Qabs].
Qed.

End ExactFacts.

Section SignFacts.
Import SpecFloat Rounding.
Local Open Scope Z_scope.

(** A negative double is below every double that is not negative. *)
Lemma negative_ltb (r c : spec_float) :
  negative r -> notNegative c -> SFltb r c = true.
Proof.
  destruct r as [| [|] | | [|] mr er]; cbn; try contradiction;
    destruct c as [sc| [|] | | [|] mc ec]; cbn; try contradiction;
    reflexivity.
Qed.

Lemma shr_nonneg (m e n : Z) :
  0 <= m -> 0 <= shr_m (fst (shr (Build_shr_record m false false) e n)).
Proof.
  intros Hm.
  destruct (shr (Build_shr_record m false false) e n) as [mrs e'] eqn:E.
  destruct (shr_exact m e n mrs e' Hm E) as [Hz Hp]. cbn [fst].
  destruct (Z.le_gt_cases n 0) as [C|C].
  - destruct (Hz C) as [-> _]. exact Hm.
  - destruct (Hp C) as (_ & -> & _). apply Z.div_pos; [exact Hm|].
    apply pow2_pos. lia.
Qed.

(** Rounding a non-negative integer gives a double of the sign asked
    for. *)
Lemma binary_round_aux_sign (s : bool) (m e : Z) :
  0 <= m ->
  match binary_round_aux FloatOps.prec FloatOps.emax s m e loc_Exact with
  | S754_zero s' | S754_finite s' _ _ | S754_infinity s' => s' = s
  | S754_nan => False
  end.
Proof.
  intros Hm. unfold binary_round_aux, shr_fexp. cbn [shr_record_of_loc].
  pose proof (shr_nonneg m e
                (fexp FloatOps.prec FloatOps.emax (Zdigits2 m + e) - e) Hm)
    as H1.
  destruct (shr (Build_shr_record m false false) e _) as [mrs' e'].
  cbn [fst] in H1.
  set (m1 := round_nearest_even (shr_m mrs') (loc_of_shr_record mrs')).
  assert (Hm1 : 0 <= m1).
  { subst m1. destruct (round_nearest_even_cases (shr_m mrs')
                          (loc_of_shr_record mrs')) as [->|[-> _]]; lia. }
  pose proof (shr_nonneg m1 e'
                (fexp FloatOps.prec FloatOps.emax (Zdigits2 m1 + e') - e')
                Hm1) as H2.
  destruct (shr (Build_shr_record m1 false false) e' _) as [mrs'' e''].
  cbn [fst] in H2.
  destruct (shr_m mrs'') as [|p|p]; [reflexivity| |lia].
  destruct (Z.leb e'' (FloatOps.emax - FloatOps.prec)); reflexivity.
Qed.

Lemma SFmul_notNegative (x y : spec_float) :
  notNegative x ->
  match y with S754_finite false _ _ => True | _ => False end ->
  notNegative (FloatAxioms.SF64mul x y).
Proof.
  unfold FloatAxioms.SF64mul.
  destruct x as [sx| [|] | | [|] mx ex]; cbn [notNegative]; try contradiction;
    destruct y as [sy|sy| | [|] my ey]; try contradiction; intros _ _;
    cbn [SFmul xorb notNegative]; try exact I.
  pose proof (binary_round_aux_sign false (Zpos (mx * my)) (ex + ey)
                ltac:(lia)) as H.
  destruct (binary_round_aux _ _ _ _ _ _) as [s'|s'| |s' m' e'];
    try contradiction; subst s'; exact I.
Qed.

Lemma binary_normalize_notNegative (z e : Z) :
  0 <= z ->
  notNegative (binary_normalize FloatOps.prec FloatOps.emax z e false).
Proof.
  intros Hz. destruct z as [|p|p]; [exact I| |lia].
  cbn [binary_normalize]. unfold binary_round.
  destruct (shl_align p e _) as [mz ez].
  pose proof (binary_round_aux_sign false (Zpos mz) ez ltac:(lia)) as H.
  destruct (binary_round_aux _ _ _ _ _ _) as [s'|s'| |s' m' e'];
    try contradiction; subst s'; exact I.
Qed.

Lemma integer_notNegative (z : Z) :
  0 <= z -> notNegative (FloatOps.Prim2SF (Doubles.integer z)).
Proof.
  intros Hz. destruct z as [|p|p]; [| |lia].
  - vm_compute. exact I.
  - cbn [Doubles.integer]. rewrite FloatAxioms.of_uint63_spec.
    apply binary_normalize_notNegative.
    pose proof (Uint63.to_Z_bounded (Uint63.of_Z (Zpos p))). lia.
Qed.

(** A negative exact sum is rounded to a negative double. *)
Lemma SFadd_negative (x y : spec_float) :
  valid x = true -> valid y = true ->
  isFinite x = true -> isFinite y = true ->
  scaledValue x + scaledValue y < 0 ->
  negative (FloatAxioms.SF64add x y).
Proof.
  intros Hx Hy Fx Fy. unfold FloatAxioms.SF64add.
  destruct x as [sx|sx| |sx mx ex]; try discriminate;
    destruct y as [sy|sy| |sy my ey]; try discriminate;
    cbn [SFadd scaledValue].
  - rewrite Z.add_0_l.
    destruct sy; cbn [cond_Zopp negative]; [intros _; exact I|].
    apply valid_magnitude in Hy. intros H. exfalso. lia.
  - rewrite Z.add_0_r.
    destruct sx; cbn [cond_Zopp negative]; [intros _; exact I|].
    apply valid_magnitude in Hx. intros H. exfalso. lia.
  - pose proof (valid_finite _ _ _ Hx) as (Hex & _).
    pose proof (valid_finite _ _ _ Hy) as (Hey & _).
    set (ez := Z.min ex ey) in *.
    assert (Hsum : cond_Zopp sx (Zpos mx * 2 ^ (ex + 1074))
                   + cond_Zopp sy (Zpos my * 2 ^ (ey + 1074))
                   = (cond_Zopp sx (Zpos (fst (shl_align mx ex ez)))
                      + cond_Zopp sy (Zpos (fst (shl_align my ey ez))))
                     * 2 ^ (ez + 1074)).
    { rewrite Z.mul_add_distr_r, !cond_Zopp_mul.
      rewrite !aligned_value by (subst ez; lia). reflexivity. }
    rewrite Hsum.
    set (M := cond_Zopp sx _ + cond_Zopp sy _).
    assert (P : 0 < 2 ^ (ez + 1074)) by (apply pow2_pos; subst ez; lia).
    intros Hneg. assert (HM : M < 0) by nia.
    destruct M as [|p|p]; try lia. cbn [binary_normalize].
    destruct (binary_round_near true p ez ltac:(subst ez; lia))
      as (w & Hw & Hc).
    destruct Hc as [[Hw0 _]|[(m & e & -> & _)|[-> _]]]; try exact I.
    exfalso. destruct Hw as (q & m1 & f & Hf & Hq0 & Hwm & Hv & Hm1 & Hq52).
    assert (Pf : 0 < 2 ^ (f + 1074)) by (apply pow2_pos; lia).
    assert (m1 = 0) by nia.
    assert (q = 0) by (destruct Hm1 as [?|[? _]]; lia).
    assert (f = -1074).
    { destruct (Z.eq_dec f (-1074)) as [|Hne]; [assumption|].
      assert (2 ^ 52 <= q) by (apply Hq52; lia).
      assert (0 < 2 ^ 52) by reflexivity. lia. }
    subst q f. change (2 ^ (-1074 + 1074)) with 1 in Hv.
    assert (1 <= 2 ^ (ez + 1074)) by lia. nia.
Qed.

End SignFacts.

(** ** The point-reduction filter in double precision *)

Section DoubleFacts.
Variables scale tol : Doubles.number.
Import Doubles.

Lemma outsideb_outside (kept p : Vector2) :
  outsideb tol kept p = true <-> outside tol kept p.
Proof.
  unfold outsideb, keepTest, outside. rewrite !orb_true_iff. tauto.
Qed.

Lemma double_run_app (st : Loop) (l1 l2 : Contour) :
  run scale tol st (l1 ++ l2) = run scale tol (run scale tol st l1) l2.
Proof. apply fold_left_app. Qed.

(** The tracker is the last pushed point, or the point it started from. *)
Lemma double_tracked_body (st : Loop) (row : Z * Z) (kept : Vector2) :
  mkVector2 (lastX st) (lastY st) = List.last (cPoints st) kept ->
  let st' := body scale tol st row in
  mkVector2 (lastX st') (lastY st') = List.last (cPoints st') kept.
Proof.
  intros H. cbn zeta. unfold body.
  destruct (keepTest _ _ _ _ _); [|exact H].
  cbn [lastX lastY cPoints]. now rewrite last_last.
Qed.

Lemma double_tracked_run (cnt : Contour) (st : Loop) (kept : Vector2) :
  mkVector2 (lastX st) (lastY st) = List.last (cPoints st) kept ->
  let st' := run scale tol st cnt in
  mkVector2 (lastX st') (lastY st') = List.last (cPoints st') kept.
Proof.
  revert st. induction cnt as [|row cnt IH]; intros st H; [exact H|].
  apply IH. now apply double_tracked_body.
Qed.

Lemma double_body_outsideb (st : Loop) (row : Z * Z) :
  cPoints (body scale tol st row)
  = cPoints st
    ++ (if outsideb tol (mkVector2 (lastX st) (lastY st)) (scaled scale row)
        then [scaled scale row] else []).
Proof.
  unfold body, outsideb, scaled. cbn [vx vy].
  destruct (keepTest _ _ _ _ _); [reflexivity|now rewrite app_nil_r].
Qed.

Lemma double_run_greedy (cnt : Contour) (st : Loop) :
  cPoints (run scale tol st cnt)
  = cPoints st
    ++ greedy tol (mkVector2 (lastX st) (lastY st)) (map (scaled scale) cnt).
Proof.
  revert st. induction cnt as [|row cnt IH]; intros st.
  - cbn. now rewrite app_nil_r.
  - cbn [run fold_left map greedy].
    fold (run scale tol (body scale tol st row) cnt).
    rewrite IH. unfold body, outsideb, scaled. cbn [vx vy].
    destruct (keepTest _ _ _ _ _).
    + cbn [cPoints lastX lastY]. now rewrite <- app_assoc.
    + reflexivity.
Qed.

Lemma double_getThreeVector_snoc (pre : Contour) (row : Z * Z) :
  getThreeVector (pre ++ [row]) scale tol
  = getThreeVector pre scale tol
    ++ (if outsideb tol (lastKept (getThreeVector pre scale tol))
             (scaled scale row)
        then [scaled scale row] else []).
Proof.
  unfold getThreeVector, lastKept. rewrite double_run_app.
  cbn [run fold_left]. rewrite double_body_outsideb.
  pose proof (double_tracked_run pre start sentinel eq_refl) as H.
  cbn zeta in H. now rewrite H.
Qed.

Lemma double_greedy_head (pts : list Vector2) (kept p : Vector2) :
  greedy tol kept pts !! 0%nat = Some p -> outside tol kept p.
Proof.
  induction pts as [|a pts IH]; cbn; [discriminate|].
  destruct (outsideb tol kept a) eqn:E; [|exact IH].
  cbn. intros [= <-]. now apply outsideb_outside.
Qed.

Lemma double_greedy_separated (pts : list Vector2) (kept : Vector2)
    (i : nat) (p q : Vector2) :
  greedy tol kept pts !! i = Some p ->
  greedy tol kept pts !! S i = Some q ->
  outside tol p q.
Proof.
  revert kept i. induction pts as [|a pts IH]; intros kept i; cbn;
    [discriminate|].
  destruct (outsideb tol kept a); [|apply IH].
  destruct i as [|i]; cbn.
  - intros [= <-]. apply double_greedy_head.
  - apply IH.
Qed.

Lemma double_greedy_covers (pts : list Vector2) (kept p : Vector2) :
  In p pts ->
  In p (greedy tol kept pts)
  \/ exists k, In k (kept :: greedy tol kept pts) /\ ~ outside tol k p.
Proof.
  revert kept. induction pts as [|q pts IH]; intros kept Hin; [destruct Hin|].
  cbn [greedy]. destruct Hin as [->|Hin].
  - destruct (outsideb tol kept p) eqn:E.
    + left. now left.
    + right. exists kept. split; [now left|].
      rewrite <- outsideb_outside. congruence.
  - destruct (outsideb tol kept q) eqn:E.
    + destruct (IH q Hin) as [H|(k & Hk & Hn)].
      * left. now right.
      * right. exists k. split; [now right|exact Hn].
    + destruct (IH kept Hin) as [H|(k & Hk & Hn)]; [now left|].
      right. exists k. split; [exact Hk|exact Hn].
Qed.

End DoubleFacts.

(** C4, as stated, fails on the doubles that the code computes with, at
    the scale [.1] of both calls and the tolerance [.3].  On the rectangle
    (80,0) (83,0) (83,50) (80,50) every scaled point differs from the one
    before it by more than the double [.3] in x or in y, so that the greedy
    subsequence under that predicate keeps all four; the code keeps two.
    The point of row 83 is dropped after row 80, although the doubles 8 and
    8.3000000000000007 differ by 13/2^54 more than the double [.3], and
    [Math.abs(8.3000000000000007 - 8) > .3] holds of the doubles: the sum
    [8 + .3] rounds up to 8.3000000000000007, which is not below the
    point.  Read on the decimal numbers instead, the predicate fails the
    other way: row 63 is kept after row 60, although 6.3 - 6 is not more
    than 0.3, because the product [63 * .1] is 6.3000000000000007 and the
    sum [6 + .3] rounds to 6.2999999999999998. *)
Lemma rounding_decides_at_the_tolerance :
  let scale := Doubles.decimal 1 1 in
  let tol := Doubles.decimal 3 1 in
  let cnt : Contour := [ (80, 0); (83, 0); (83, 50); (80, 50) ]%Z in
  let p80 := Doubles.scaled scale (80, 0)%Z in
  let p83 := Doubles.scaled scale (83, 0)%Z in
  Doubles.getThreeVector cnt scale tol
  = [ p80; Doubles.scaled scale (83, 50)%Z ]
  /\ Doubles.greedyDiffers tol Doubles.sentinel
       (map (Doubles.scaled scale) cnt)
     = map (Doubles.scaled scale) cnt
  /\ Doubles.getThreeVector [ (80, 0); (83, 0) ]%Z scale tol = [ p80 ]
  /\ Doubles.differs tol p80 p83 = true
  /\ Doubles.exact tol = Some (5404319552844595 # 18014398509481984)
  /\ Doubles.exact (Doubles.vx p80) = Some 8
  /\ Doubles.exact (Doubles.vx p83)
     = Some (2336242306698445 # 281474976710656)
  /\ (2336242306698445 # 281474976710656) - 8
     - (5404319552844595 # 18014398509481984)
     == 13 # 18014398509481984
  /\ PrimFloat.add (Doubles.vx p80) tol = Doubles.vx p83
  /\ PrimFloat.ltb tol
       (PrimFloat.abs (PrimFloat.sub (Doubles.vx p83) (Doubles.vx p80)))
     = true
  /\ length (Doubles.getThreeVector [ (60, 0); (63, 0) ]%Z scale tol) = 2%nat
  /\ length (Filter.getThreeVector [ (60, 0); (63, 0) ]%Z (1 # 10) (3 # 10))
     = 1%nat
  /\ ~ Filter.differs (3 # 10) (Filter.scaled (1 # 10) (60, 0)%Z)
         (Filter.scaled (1 # 10) (63, 0)%Z).
Proof.
  cbn zeta. repeat (split; [vm_compute; reflexivity|]).
  intros [H|H]; vm_compute in H; discriminate.
Qed.

(** C4, amended.  Scanning the contour in order, [getThreeVector] pushes
    the scaled point of a row, the double [data32S[k] * scale], exactly
    when in x or in y it lies above the rounded sum of the last kept
    coordinate and the tolerance or below their rounded difference; the
    last kept point is the tracker, which starts at (-1000, -1000).
    Otherwise the output stays as it was.  The output is the greedy
    subsequence of the scaled points under that test.  As long as the
    numbers are finite, a point that passes the test differs from the last
    kept point by strictly more than the tolerance in x or in y, on the
    exact values of the doubles: rounding drops points that differ by more
    than the tolerance, and never keeps one that does not. *)
Theorem getThreeVector_keeps_outside_the_rounded_band
    (cnt pre : Contour) (row : Z * Z) (scaleF tolerace : Doubles.number) :
  let out := Doubles.getThreeVector pre scaleF tolerace in
  let next := Doubles.getThreeVector (pre ++ [row]) scaleF tolerace in
  let p := Doubles.scaled scaleF row in
  (next = out ++ [p] <-> Doubles.outside tolerace (Doubles.lastKept out) p)
  /\ (next = out <-> ~ Doubles.outside tolerace (Doubles.lastKept out) p)
  /\ Doubles.getThreeVector cnt scaleF tolerace
     = Doubles.greedy tolerace Doubles.sentinel
         (map (Doubles.scaled scaleF) cnt)
  /\ (Doubles.finite tolerace ->
      Doubles.finitePoint (Doubles.lastKept out) ->
      Doubles.finitePoint p ->
      Doubles.outside tolerace (Doubles.lastKept out) p ->
      Doubles.differs tolerace (Doubles.lastKept out) p = true).
Proof.
  cbn zeta. split; [|split; [|split]].
  - rewrite double_getThreeVector_snoc, <- outsideb_outside.
    destruct (Doubles.outsideb _ _ _); split; intros H;
      try reflexivity; try discriminate.
    apply (f_equal length) in H. rewrite !length_app in H. cbn in H. lia.
  - rewrite double_getThreeVector_snoc, <- outsideb_outside.
    destruct (Doubles.outsideb _ _ _); split; intros H;
      try discriminate; try congruence.
    + apply (f_equal length) in H. rewrite !length_app in H. cbn in H. lia.
    + now rewrite app_nil_r.
  - unfold Doubles.getThreeVector. now rewrite double_run_greedy.
  - intros Ht [Hkx Hky] [Hpx Hpy]. now apply outside_differs.
Qed.

Lemma getThreeVector_keeps_outside_the_rounded_band_witness :
  let scale := Doubles.decimal 1 1 in
  let tol := Doubles.decimal 3 1 in
  Doubles.getThreeVector [ (60, 0); (63, 0) ]%Z scale tol
  = [ Doubles.scaled scale (60, 0)%Z; Doubles.scaled scale (63, 0)%Z ]
  /\ Doubles.differs tol (Doubles.scaled scale (60, 0)%Z)
       (Doubles.scaled scale (63, 0)%Z)
     = true.
Proof.
  cbn zeta.
  destruct (getThreeVector_keeps_outside_the_rounded_band
              [] [ (60, 0) ]%Z (63, 0)%Z (Doubles.decimal 1 1)
              (Doubles.decimal 3 1))
    as (Hkeep & _ & _ & Hsound).
  assert (Hnext : Doubles.getThreeVector [ (60, 0); (63, 0) ]%Z
                    (Doubles.decimal 1 1) (Doubles.decimal 3 1)
                  = [ Doubles.scaled (Doubles.decimal 1 1) (60, 0)%Z;
                      Doubles.scaled (Doubles.decimal 1 1) (63, 0)%Z ])
    by (vm_compute; reflexivity).
  split; [exact Hnext|].
  apply Hsound.
  - eexists. vm_compute. reflexivity.
  - split; eexists; vm_compute; reflexivity.
  - split; eexists; vm_compute; reflexivity.
  - apply Hkeep. exact Hnext.
Defined.

(** X18.  In the double arithmetic of the code, consecutive vertices of the
    output of [getThreeVector] differ by strictly more than the tolerance
    in x or in y, on the exact values of the doubles, and so does the first
    vertex from the initial tracker (-1000, -1000), as long as the
    tolerance and the vertices are finite. *)
Theorem kept_doubles_are_separated
    (cnt : Contour) (scaleF tolerace : Doubles.number) :
  let out := Doubles.getThreeVector cnt scaleF tolerace in
  Doubles.finite tolerace ->
  Forall Doubles.finitePoint out ->
  (forall p, out !! 0%nat = Some p ->
     Doubles.differs tolerace Doubles.sentinel p = true)
  /\ (forall i p q, out !! i = Some p -> out !! S i = Some q ->
        Doubles.differs tolerace p q = true).
Proof.
  cbn zeta. intros Ht Hout.
  assert (Hfin : forall i p,
            Doubles.getThreeVector cnt scaleF tolerace !! i = Some p ->
            Doubles.finitePoint p).
  { intros i p Hi. rewrite List.Forall_forall in Hout. apply Hout.
    apply list_elem_of_In. eapply list_elem_of_lookup_2. exact Hi. }
  assert (Hs : Doubles.finitePoint Doubles.sentinel)
    by (split; eexists; vm_compute; reflexivity).
  unfold Doubles.getThreeVector in *. rewrite double_run_greedy in *.
  cbn [Doubles.cPoints Doubles.start app] in *.
  change (Doubles.mkVector2 (Doubles.lastX Doubles.start)
            (Doubles.lastY Doubles.start)) with Doubles.sentinel in *.
  split.
  - intros p Hp. destruct Hs as [Hsx Hsy].
    destruct (Hfin _ _ Hp) as [Hpx Hpy].
    apply outside_differs; try assumption.
    eapply double_greedy_head. exact Hp.
  - intros i p q Hp Hq.
    destruct (Hfin _ _ Hp) as [Hpx Hpy]. destruct (Hfin _ _ Hq) as [Hqx Hqy].
    apply outside_differs; try assumption.
    eapply double_greedy_separated; eassumption.
Qed.

Lemma kept_doubles_are_separated_witness :
  let scale := Doubles.decimal 1 1 in
  let tol := Doubles.decimal 3 1 in
  Doubles.differs tol (Doubles.scaled scale (60, 0)%Z)
    (Doubles.scaled scale (63, 0)%Z)
  = true.
Proof.
  cbn zeta.
  destruct (kept_doubles_are_separated [ (60, 0); (63, 0) ]%Z
              (Doubles.decimal 1 1) (Doubles.decimal 3 1))
    as [_ Hsep].
  - eexists. vm_compute. reflexivity.
  - repeat constructor; eexists; vm_compute; reflexivity.
  - apply (Hsep 0%nat); vm_compute; reflexivity.
Defined.

Section FirstRow.
Import SpecFloat Rounding.

(** With a tolerance below 1000, the first disjunct of the keep test
    holds between the initial tracker and a row that is not negative. *)
Lemma first_test_passes (tol : Doubles.number) (x : Z) :
  (0 <= x)%Z ->
  PrimFloat.ltb tol (Doubles.integer 1000) = true ->
  PrimFloat.ltb (PrimFloat.add (Doubles.integer (-1000)) tol)
    (PrimFloat.mul (Doubles.integer x) (Doubles.decimal 1 1))
  = true.
Proof.
  intros Hx Htol.
  rewrite FloatAxioms.ltb_spec in Htol |- *.
  rewrite FloatAxioms.add_spec, FloatAxioms.mul_spec.
  apply negative_ltb.
  - pose proof (FloatAxioms.Prim2SF_valid tol) as Vt.
    pose proof (FloatAxioms.Prim2SF_valid (Doubles.integer 1000)) as V1.
    pose proof (FloatAxioms.Prim2SF_valid (Doubles.integer (-1000))) as Vk.
    assert (Fk : isFinite (FloatOps.Prim2SF (Doubles.integer (-1000))) = true)
      by (vm_compute; reflexivity).
    assert (F1 : isFinite (FloatOps.Prim2SF (Doubles.integer 1000)) = true)
      by (vm_compute; reflexivity).
    assert (Hk : scaledValue (FloatOps.Prim2SF (Doubles.integer (-1000)))
                 = (- scaledValue (FloatOps.Prim2SF (Doubles.integer 1000)))%Z)
      by (vm_compute; reflexivity).
    destruct (FloatOps.Prim2SF tol) as [st|st| |st mt et] eqn:Et.
    + apply SFadd_negative; try assumption; reflexivity.
    + destruct st; [|vm_compute in Htol; discriminate Htol].
      vm_compute. exact I.
    + vm_compute in Htol. discriminate Htol.
    + pose proof (SFltb_scaledValue _ _ Vt V1 eq_refl F1 Htol) as Hlt.
      apply SFadd_negative; try assumption; try reflexivity.
      rewrite Hk. lia.
  - apply SFmul_notNegative; [now apply integer_notNegative|].
    vm_compute. exact I.
Qed.

End FirstRow.

(** X19.  In the double arithmetic of the code, the output of
    [getThreeVector] is a subsequence of the scaled rows. *)
Theorem kept_doubles_are_a_subsequence
    (cnt : Contour) (scaleF tolerace : Doubles.number) :
  Doubles.getThreeVector cnt scaleF tolerace
  `sublist_of` map (Doubles.scaled scaleF) cnt.
Proof.
  unfold Doubles.getThreeVector. rewrite double_run_greedy.
  cbn [Doubles.cPoints Doubles.start app].
  generalize (Doubles.mkVector2 (Doubles.lastX Doubles.start)
                (Doubles.lastY Doubles.start)).
  induction cnt as [|row cnt IH]; intros kept; cbn [map Doubles.greedy];
    [constructor|].
  destruct (Doubles.outsideb tolerace kept (Doubles.scaled scaleF row)).
  - apply sublist_skip, IH.
  - apply sublist_cons, IH.
Qed.

(** X20.  In the double arithmetic of the code and at the scale [.1] that
    both calls pass, [getThreeVector] keeps the first row of a non-empty
    contour with non-negative coordinates whenever the tolerance is below
    1000: the rounded sum [-1000 + tolerace] is negative, and the product
    of the row and [.1] is not. *)
Theorem first_point_kept_in_doubles
    (cnt : Contour) (tolerace : Doubles.number) :
  cnt <> [] ->
  Forall (fun row => (0 <= fst row)%Z /\ (0 <= snd row)%Z) cnt ->
  PrimFloat.ltb tolerace (Doubles.integer 1000) = true ->
  exists row rest out,
    cnt = row :: rest
    /\ Doubles.getThreeVector cnt (Doubles.decimal 1 1) tolerace
       = Doubles.scaled (Doubles.decimal 1 1) row :: out.
Proof.
  intros Hne Hpos Ht. destruct cnt as [|row rest]; [congruence|].
  exists row, rest. apply Forall_cons_1 in Hpos. destruct Hpos as [[Hx _] _].
  eexists. split; [reflexivity|].
  unfold Doubles.getThreeVector. rewrite double_run_greedy.
  cbn [Doubles.cPoints Doubles.start app map Doubles.greedy].
  unfold Doubles.outsideb, Doubles.keepTest.
  cbn [Doubles.vx Doubles.vy Doubles.lastX Doubles.lastY Doubles.sentinel
       Doubles.scaled].
  change (Doubles.lastX Doubles.start) with (Doubles.integer (-1000)).
  rewrite (first_test_passes tolerace (fst row) Hx Ht). cbn [orb].
  reflexivity.
Qed.

Lemma first_point_kept_in_doubles_witness :
  exists row rest out,
    [ (3, 4); (10, 10) ]%Z = row :: rest
    /\ Doubles.getThreeVector [ (3, 4); (10, 10) ]%Z (Doubles.decimal 1 1)
         (Doubles.decimal 15 2)
       = Doubles.scaled (Doubles.decimal 1 1) row :: out.
Proof.
  apply (first_point_kept_in_doubles [ (3, 4); (10, 10) ]%Z
           (Doubles.decimal 15 2)).
  - discriminate.
  - repeat constructor; cbn; lia.
  - vm_compute. reflexivity.
Defined.

(** X3.  Every row of the contour is, once scaled, either a vertex of the
    output of [getThreeVector] or inside the rounded band of an output
    vertex or of the initial tracker (-1000, -1000): in x and in y it lies
    neither above the rounded sum of that vertex and the tolerance nor
    below their rounded difference. *)
Theorem dropped_rows_are_inside_a_rounded_band
    (cnt : Contour) (scaleF tolerace : Doubles.number) (row : Z * Z) :
  In row cnt ->
  let out := Doubles.getThreeVector cnt scaleF tolerace in
  let p := Doubles.scaled scaleF row in
  In p out
  \/ exists k, In k (Doubles.sentinel :: out)
       /\ ~ Doubles.outside tolerace k p.
Proof.
  intros Hin. cbn zeta. unfold Doubles.getThreeVector.
  rewrite double_run_greedy. cbn [Doubles.cPoints Doubles.start app].
  apply double_greedy_covers. now apply in_map.
Qed.

Lemma dropped_rows_are_inside_a_rounded_band_witness :
  let scale := Doubles.decimal 1 1 in
  let tol := Doubles.decimal 3 1 in
  let cnt : Contour := [ (80, 0); (83, 0) ]%Z in
  let out := Doubles.getThreeVector cnt scale tol in
  In (83, 0)%Z cnt
  /\ (In (Doubles.scaled scale (83, 0)%Z) out
      \/ exists k, In k (Doubles.sentinel :: out)
           /\ ~ Doubles.outside tol k (Doubles.scaled scale (83, 0)%Z)).
Proof.
  cbn zeta. split; [right; left; reflexivity|].
  apply (dropped_rows_are_inside_a_rounded_band
           [ (80, 0); (83, 0) ]%Z (Doubles.decimal 1 1) (Doubles.decimal 3 1)
           (83, 0)%Z).
  right. left. reflexivity.
Defined.

(** ** More on file names *)

Lemma replaceAll_one_map (matches : N -> bool) (u : N) (s : JSString) :
  Exporter.replaceAll matches [u] s
  = map (fun c => if matches c then u else c) s.
Proof.
  induction s as [|c s IH]; [reflexivity|].
  cbn. destruct (matches c); cbn; now rewrite IH.
Qed.

(** X4.  The sanitised name holds nothing but ASCII letters, digits, hyphens
    and underscores; sanitising is idempotent, and it leaves a name made of
    such characters as it is. *)
Theorem sanitized_name_is_clean (saveFilename : JSString) :
  Forall Exporter.allowed (Exporter.sanitizedFilename saveFilename)
  /\ Exporter.sanitizedFilename (Exporter.sanitizedFilename saveFilename)
     = Exporter.sanitizedFilename saveFilename
  /\ (Forall Exporter.allowed saveFilename ->
      Exporter.sanitizedFilename saveFilename = saveFilename).
Proof.
  unfold Exporter.sanitizedFilename. change (codeUnits "_") with [95%N].
  rewrite !replaceAll_one_map.
  assert (Hclean : forall s : JSString,
             Forall Exporter.allowed s ->
             map (fun c => if Exporter.negatedClass Exporter.pattern c
                           then 95%N else c) s = s).
  { intros s Hs. induction Hs as [|c s Hc Hs IH]; [reflexivity|].
    cbn. apply negatedClass_allowed in Hc. now rewrite Hc, IH. }
  assert (Hall : Forall Exporter.allowed
                   (map (fun c => if Exporter.negatedClass Exporter.pattern c
                                  then 95%N else c) saveFilename)).
  { induction saveFilename as [|d s IH]; cbn; constructor; [|exact IH].
    destruct (Exporter.negatedClass Exporter.pattern d) eqn:E.
    - right; right; right. reflexivity.
    - now apply negatedClass_allowed. }
  split; [exact Hall|]. split; [now apply Hclean|exact (Hclean _)].
Qed.

Section UploadFacts.
Import Upload.

(** A code unit that an extension may hold: neither a slash nor a dot. *)
Lemma notIn_slash_dot (c : N) :
  atomMatches (NotIn [ Exporter.Single (Exporter.ch "/");
                       Exporter.Single (Exporter.ch ".") ]) c = true
  <-> c <> 47%N /\ c <> 46%N.
Proof.
  cbn. unfold Exporter.negatedClass. cbn.
  change (Exporter.ch "/") with 47%N. change (Exporter.ch ".") with 46%N.
  rewrite negb_true_iff, orb_false_r, orb_false_iff, !N.eqb_neq. tauto.
Qed.

Lemma forallb_slash_dot (s : JSString) :
  forallb (atomMatches (NotIn [ Exporter.Single (Exporter.ch "/");
                                Exporter.Single (Exporter.ch ".") ])) s
  = true
  <-> Forall (fun c => c <> 47%N /\ c <> 46%N) s.
Proof.
  induction s as [|c s IH]; cbn [forallb].
  - split; [constructor|reflexivity].
  - rewrite andb_true_iff, IH, notIn_slash_dot, Forall_cons. tauto.
Qed.

(** The repetition [[^/.]+] followed by [$] matches exactly the non-empty
    strings without slash or dot, and consumes them whole. *)
Lemma matchAt_tail (s : JSString) :
  let ok := atomMatches (NotIn [ Exporter.Single (Exporter.ch "/");
                                 Exporter.Single (Exporter.ch ".") ]) in
  matchAt [ OneOrMore (NotIn [ Exporter.Single (Exporter.ch "/");
                               Exporter.Single (Exporter.ch ".") ]);
            EndOfInput ] s
  = match s with
    | [] => None
    | _ :: _ => if forallb ok s then Some [] else None
    end.
Proof.
  intros ok. induction s as [|c s IH]; [reflexivity|].
  cbn [matchAt forallb] in *. fold ok in IH |- *.
  destruct (ok c); [|reflexivity]. rewrite IH.
  destruct s as [|d s]; [reflexivity|].
  cbn [andb]. now destruct (forallb ok (d :: s)).
Qed.

Lemma matchAt_extension (s : JSString) :
  let ok := atomMatches (NotIn [ Exporter.Single (Exporter.ch "/");
                                 Exporter.Single (Exporter.ch ".") ]) in
  matchAt extension s
  = match s with
    | c :: (_ :: _) as ext =>
        if (c =? 46)%N && forallb ok ext then Some [] else None
    | _ => None
    end.
Proof.
  intros ok. destruct s as [|c ext]; [reflexivity|].
  change (matchAt extension (c :: ext))
    with (if (c =? 46)%N
          then matchAt [ OneOrMore
                           (NotIn [ Exporter.Single (Exporter.ch "/");
                                    Exporter.Single (Exporter.ch ".") ]);
                         EndOfInput ] ext
          else None).
  rewrite matchAt_tail. cbn zeta. fold ok.
  destruct (c =? 46)%N; now destruct ext.
Qed.

Lemma saveFileName_strips (stem ext : JSString) :
  ext <> [] -> Forall (fun c => c <> 47%N /\ c <> 46%N) ext ->
  saveFileName (stem ++ 46%N :: ext) = stem.
Proof.
  intros Hne Hext. unfold saveFileName.
  apply forallb_slash_dot in Hext.
  induction stem as [|c stem IH].
  - cbn [app replaceFirst]. rewrite matchAt_extension. cbn zeta.
    destruct ext as [|d ext]; [congruence|]. now rewrite Hext.
  - cbn [app replaceFirst]. rewrite matchAt_extension. cbn zeta.
    assert (Hbad : forallb (atomMatches
                     (NotIn [ Exporter.Single (Exporter.ch "/");
                              Exporter.Single (Exporter.ch ".") ]))
                     (stem ++ 46%N :: ext) = false).
    { rewrite forallb_app. cbn [forallb].
      replace (atomMatches _ 46%N) with false by reflexivity.
      now rewrite andb_false_r. }
    rewrite Hbad, andb_false_r, IH.
    now destruct (stem ++ 46%N :: ext).
Qed.

Lemma saveFileName_keeps (name : JSString) :
  (forall stem ext, name = stem ++ 46%N :: ext ->
     ext = [] \/ Exists (fun c => c = 47%N \/ c = 46%N) ext) ->
  saveFileName name = name.
Proof.
  unfold saveFileName. induction name as [|c name IH]; intros H.
  - reflexivity.
  - cbn [replaceFirst]. rewrite matchAt_extension. cbn zeta.
    assert (Hrest : replaceFirst extension [] name = name).
    { apply IH. intros stem ext ->. apply (H (c :: stem) ext). reflexivity. }
    destruct name as [|d name]; [now rewrite Hrest|].
    destruct (N.eqb_spec c 46) as [->|_]; [|cbn [andb]; now rewrite Hrest].
    destruct (forallb _ (d :: name)) eqn:E; [|cbn [andb]; now rewrite Hrest].
    exfalso. apply forallb_slash_dot in E.
    destruct (H [] (d :: name) eq_refl) as [|Hex]; [discriminate|].
    clear -E Hex. induction Hex as [e l Hbad|e l _ IH].
    + apply Forall_cons_1 in E. destruct E as [[? ?] _].
      destruct Hbad; congruence.
    + apply Forall_cons_1 in E. now apply IH.
Qed.

End UploadFacts.

(** X5.  [handleImageChange] cuts the extension off the uploaded name: from
    the last dot on, when that dot is followed by at least one character and
    by no slash.  A name without such an ending is kept whole.  The file is
    then offered as the sanitised stem followed by [.stl]. *)
Theorem upload_name_loses_its_extension (stem ext name : JSString) :
  (ext <> [] -> Forall (fun c => c <> 47%N /\ c <> 46%N) ext ->
   Upload.saveFileName (stem ++ 46%N :: ext) = stem
   /\ Exporter.fileNameToSaveAs (Upload.saveFileName (stem ++ 46%N :: ext))
      = Exporter.sanitizedFilename stem ++ codeUnits ".stl")
  /\ ((forall stem' ext', name = stem' ++ 46%N :: ext' ->
         ext' = [] \/ Exists (fun c => c = 47%N \/ c = 46%N) ext') ->
      Upload.saveFileName name = name).
Proof.
  split.
  - intros Hne Hext. rewrite saveFileName_strips by assumption.
    split; reflexivity.
  - apply saveFileName_keeps.
Qed.

(** The names of the specification, and three edge cases: a name with two
    dots loses the last part only, a hidden file loses everything, and a dot
    at the end or before a slash is no extension. *)
Example upload_names :
  Upload.saveFileName (codeUnits "my cookie!.png") = codeUnits "my cookie!"
  /\ Exporter.fileNameToSaveAs
       (Upload.saveFileName (codeUnits "my cookie!.png"))
     = codeUnits "my_cookie_.stl"
  /\ Upload.saveFileName (codeUnits "cat.tar.gz") = codeUnits "cat.tar"
  /\ Upload.saveFileName (codeUnits ".png") = []
  /\ Upload.saveFileName (codeUnits "cat.") = codeUnits "cat."
  /\ Upload.saveFileName (codeUnits "a.b/c") = codeUnits "a.b/c".
Proof. repeat split; reflexivity. Qed.

(** ** More on the classifier: the label table and the index map *)

Lemma Qltb_compat (a a' b b' : Q) :
  a == a' -> b == b' -> Qltb a b = Qltb a' b'.
Proof.
  intros Ha Hb. apply eq_true_iff_eq. rewrite !Qltb_lt, Ha, Hb. tauto.
Qed.

Section LabelFacts.
Context `{cv : OpenCV}.
Import Classifier Labels.

Lemma selectable_compat (cut a a' : Q) :
  a == a' -> selectable cut a = selectable cut a'.
Proof.
  intros H. unfold selectable.
  now rewrite (Qltb_compat _ _ a a' (Qeq_refl _) H),
    (Qltb_compat a a' _ _ H (Qeq_refl _)).
Qed.

Lemma selectable_true (cut a : Q) :
  selectable cut a = true <-> cut * (1 # 10) < a /\ a < cut.
Proof. unfold selectable. now rewrite andb_true_iff, !Qltb_lt. Qed.

Lemma area1_unsigned (c : Contour) : area1 c == unsignedArea c.
Proof. apply negate_if_negative. Qed.

(** What one turn of the first loop does to the label table and to the
    index map. *)
Lemma body_labels (contours : list Contour) (cut : Q) (st : Scan) (i : nat)
    (cnt : Contour) :
  let st' := body contours cut st i cnt in
  if selectable cut (area1 cnt)
  then contourNumMap st' = contourNumMap st ++ [i]
       /\ contIndex st' = (contIndex st + 1)%Z
       /\ contourMap st'
          = drawContours (contourMap st) contours i (label (contIndex st)) 30
  else contourNumMap st' = contourNumMap st
       /\ contIndex st' = contIndex st
       /\ contourMap st' = contourMap st.
Proof.
  cbn zeta. unfold body, area1.
  destruct (selectable _ _); cbn [maxArea];
    destruct (_ && _); cbn; auto.
Qed.

Lemma scan_from (contours : list Contour) (cut : Q) (cs : list Contour)
    (i : nat) (st : Scan) :
  let st' := forEachFrom (body contours cut) i cs st in
  let found := candidatesFrom area1 cut i cs in
  contourNumMap st' = contourNumMap st ++ found
  /\ contourMap st'
     = paintLabels contours 30 (contIndex st) found (contourMap st).
Proof.
  revert i st. induction cs as [|c cs IH]; intros i st; cbn zeta.
  - cbn. now rewrite app_nil_r.
  - cbn [forEachFrom candidatesFrom].
    destruct (IH (S i) (body contours cut st i c)) as [IH1 IH2].
    rewrite IH1, IH2.
    pose proof (body_labels contours cut st i c) as Hb. cbn zeta in Hb.
    destruct (selectable cut (area1 c)); destruct Hb as (-> & -> & ->).
    + cbn [paintLabels]. now rewrite <- app_assoc.
    + now split.
Qed.

Lemma repaint_from (contours : list Contour) (cut : Q) (thickness : Z)
    (cs : list Contour) (i : nat) (m : Mat) (k : Z) :
  fst (forEachFrom (repaint contours cut thickness) i cs (m, k))
  = paintLabels contours thickness k (candidatesFrom area2 cut i cs) m.
Proof.
  revert i m k. induction cs as [|c cs IH]; intros i m k; [reflexivity|].
  cbn [forEachFrom candidatesFrom]. unfold repaint at 2. fold (area2 c).
  cbn [fst snd]. destruct (selectable cut (area2 c)); apply IH.
Qed.

Lemma candidatesFrom_ext (area area' : Contour -> Q) (cut : Q) (i : nat)
    (cs : list Contour) :
  Forall (fun c => area c == area' c) cs ->
  candidatesFrom area cut i cs = candidatesFrom area' cut i cs.
Proof.
  intros H. revert i. induction H as [|c cs Hc _ IH]; intros i;
    [reflexivity|].
  cbn. now rewrite (selectable_compat cut _ _ Hc), !IH.
Qed.

Lemma candidatesFrom_elem (area : Contour -> Q) (cut : Q) (cs : list Contour)
    (i n : nat) :
  In n (candidatesFrom area cut i cs)
  <-> (i <= n)%nat
      /\ exists c, cs !! (n - i)%nat = Some c
           /\ selectable cut (area c) = true.
Proof.
  revert i. induction cs as [|c cs IH]; intros i.
  - cbn. split; [intros []|]. intros (_ & d & Hd & _). discriminate.
  - assert (Hrest : In n (candidatesFrom area cut (S i) cs)
                    <-> (i < n)%nat
                        /\ exists d, (c :: cs) !! (n - i)%nat = Some d
                             /\ selectable cut (area d) = true).
    { rewrite IH. split.
      - intros (Hle & d & Hd & Hs). split; [lia|]. exists d.
        replace (n - i)%nat with (S (n - S i)) by lia. now split.
      - intros (Hlt & d & Hd & Hs). split; [lia|]. exists d.
        replace (n - i)%nat with (S (n - S i)) in Hd by lia. now split. }
    cbn [candidatesFrom]. destruct (selectable cut (area c)) eqn:E.
    + cbn [In]. rewrite Hrest. split.
      * intros [<-|(Hlt & H)].
        -- split; [lia|]. exists c. rewrite Nat.sub_diag. now split.
        -- split; [lia|exact H].
      * intros (Hle & H). destruct (Nat.eq_dec i n) as [->|Hne];
           [now left|right]. split; [lia|exact H].
    + rewrite Hrest. split.
      * intros (Hlt & H). split; [lia|exact H].
      * intros (Hle & d & Hd & Hs). split; [|now exists d].
        destruct (Nat.eq_dec i n) as [->|Hne]; [|lia].
        rewrite Nat.sub_diag in Hd. cbn in Hd. congruence.
Qed.

Lemma candidatesFrom_increasing (area : Contour -> Q) (cut : Q)
    (cs : list Contour) (i k k' n n' : nat) :
  (k < k')%nat ->
  candidatesFrom area cut i cs !! k = Some n ->
  candidatesFrom area cut i cs !! k' = Some n' ->
  (n < n')%nat.
Proof.
  revert i k k'. induction cs as [|c cs IH]; intros i k k' Hlt;
    [discriminate|].
  cbn [candidatesFrom]. destruct (selectable cut (area c)); [|now apply IH].
  destruct k' as [|k']; [lia|]. destruct k as [|k]; cbn.
  - intros [= <-] Hn'. apply list_elem_of_lookup_2, list_elem_of_In in Hn'.
    apply candidatesFrom_elem in Hn'. lia.
  - apply IH. lia.
Qed.

End LabelFacts.

Section DefaultFacts.
Context `{cv : OpenCV}.
Import Classifier.

(** [largestContour] stays 0 or points into the rows read. *)
Lemma scan_largest_bound (contours : list Contour) (cut : Q)
    (dst0 map0 : Mat) :
  let scan := forEach (body contours cut) contours (start dst0 map0) in
  largestContour scan = 0%nat
  \/ (largestContour scan < length contours)%nat.
Proof.
  cbn zeta.
  apply (forEach_invariant (body contours cut)
           (fun pre st => largestContour st = 0%nat
                          \/ (largestContour st < length pre)%nat)).
  - now left.
  - intros pre a st Hst.
    pose proof (body_largest contours cut st (length pre) a) as Hb.
    cbn zeta in Hb. rewrite length_app. cbn [length].
    destruct (_ && _); destruct Hb as [-> _]; [right; lia|].
    destruct Hst; [now left|right; lia].
Qed.

(** With no boundary of positive area below the cutoff, the first loop
    leaves [largestContour] at 0. *)
Lemma scan_nothing_qualifies (contours : list Contour) (cut : Q)
    (dst0 map0 : Mat) :
  (forall j c, contours !! j = Some c ->
     ~ (0 < unsignedArea c /\ unsignedArea c < cut)) ->
  largestContour (forEach (body contours cut) contours (start dst0 map0))
  = 0%nat.
Proof.
  intros Hnone.
  enough (H : (forall j c, contours !! j = Some c ->
                 ~ (0 < unsignedArea c /\ unsignedArea c < cut)) ->
              let scan := forEach (body contours cut) contours
                            (start dst0 map0) in
              largestContour scan = 0%nat /\ maxArea scan = 0)
    by (now destruct (H Hnone)).
  apply (forEach_invariant (body contours cut)
           (fun pre st =>
              (forall j c, pre !! j = Some c ->
                 ~ (0 < unsignedArea c /\ unsignedArea c < cut)) ->
              largestContour st = 0%nat /\ maxArea st = 0)).
  - now split.
  - intros pre a st IH Hpre.
    destruct IH as [HL HM].
    { intros j c Hj. apply (Hpre j c). now apply lookup_app_l_Some. }
    pose proof (body_largest contours cut st (length pre) a) as Hb.
    cbn zeta in Hb.
    pose proof (negate_if_negative (contourArea a true)) as Habs.
    fold (unsignedArea a) in Habs.
    set (area := if Qltb (contourArea a true) 0 then _ else _) in *.
    destruct (Qltb area cut && Qltb (maxArea st * 1) (area * 1)) eqn:E.
    + exfalso. apply andb_true_iff in E. destruct E as [E1 E2].
      apply Qltb_lt in E1, E2. rewrite HM in E2.
      apply (Hpre (length pre) a); [apply list_lookup_middle; reflexivity|].
      split; lra.
    + destruct Hb as [-> ->]. now split.
Qed.

End DefaultFacts.

Section LoadFacts.
Context `{cv : OpenCV}.
Import App.

(** What a rebuild leaves alone besides the variables that a click
    reads. *)
Lemma rebuild_keeps (st : State) (cnt : Contour) :
  let st' := fst (rebuild st cnt) in
  saveFilename st' = saveFilename st
  /\ downloads st' = downloads st
  /\ (animations st <= animations st' <= S (animations st))%nat.
Proof.
  unfold rebuild, generateSTL.
  destruct (Assembler.geom _ _); cbn; repeat split; lia.
Qed.

(** The two ways [onImageLoad] ends once the trace, the painted index map
    and the label table are stored.  With something traced, the highlighted
    raster is shown, the index map is resized and the mesh is rebuilt from
    the largest contour.  With nothing traced, [drawContours] returns at
    once, the raster is shown all the same, [lastCnt] becomes [undefined]
    and [generateSTL] throws. *)
Lemma onImageLoad_cases (st : State) :
  let padded := copyMakeBorder (imgElement st) 10 BORDER_WRAP in
  let src := adaptiveThreshold (cvtColor padded COLOR_RGBA2GRAY) in
  let traced := findContours src in
  let cut := inject_Z (cols src * rows src) * (90 # 100) in
  let dst0 := cvtColor (cvtColor padded COLOR_RGBA2GRAY) COLOR_GRAY2RGBA in
  let map0 := zeros (inject_Z (rows padded)) (inject_Z (cols padded)) in
  let scan :=
    forEach (Classifier.body traced cut) traced
      (Classifier.start dst0 map0) in
  let painted :=
    fst (forEach (Classifier.repaint traced cut 3) traced
           (fst (forEach (Classifier.repaint traced cut 10) traced
                   (Classifier.contourMap scan, 1%Z)), 1%Z)) in
  let st1 := setTrace st traced painted (Classifier.contourNumMap scan) in
  exists shown,
    let st2 :=
      imshow (setContourMap st1 (limitOutputSize shown painted))
        (limitOutputSize shown shown) in
    match get traced (Classifier.largestContour scan) with
    | Some cnt => onImageLoad st = rebuild st2 cnt
    | None =>
        traced = []
        /\ onImageLoad st = (setLastCntUndefined st2, Abrupt TypeError)
    end.
Proof.
  cbn zeta. unfold onImageLoad. cbn zeta.
  set (padded := copyMakeBorder (imgElement st) 10 BORDER_WRAP).
  set (src := adaptiveThreshold (cvtColor padded COLOR_RGBA2GRAY)).
  set (traced := findContours src).
  set (cut := inject_Z (cols src * rows src) * (90 # 100)).
  set (dst0 := cvtColor (cvtColor padded _) _).
  set (map0 := zeros _ _).
  pose proof (scan_largest_bound traced cut dst0 map0) as Hbound.
  cbn zeta in Hbound.
  set (scan := forEach (Classifier.body traced cut) traced _) in *.
  destruct (get traced (Classifier.largestContour scan)) as [cnt|] eqn:E.
  - rewrite (drawContour_at _ _ _ cnt _ _ E). eexists. reflexivity.
  - assert (Hnil : traced = []).
    { unfold get in E. apply lookup_ge_None in E.
      destruct Hbound as [H0|Hlt]; [|lia].
      rewrite H0 in E. destruct traced; [reflexivity|cbn in E; lia]. }
    unfold drawContour. rewrite Hnil. eexists. split; reflexivity.
Qed.

(** After [onImageLoad], however it ends: the trace is stored, the label
    table lists the candidates of the first loop, and the index map is the
    painted one, resized unless [drawContours] threw. *)
Lemma onImageLoad_stores (st : State) :
  let padded := copyMakeBorder (imgElement st) 10 BORDER_WRAP in
  let src := adaptiveThreshold (cvtColor padded COLOR_RGBA2GRAY) in
  let traced := findContours src in
  let cut := inject_Z (cols src * rows src) * (90 # 100) in
  let map0 := zeros (inject_Z (rows padded)) (inject_Z (cols padded)) in
  let nums := Labels.candidatesFrom Labels.area1 cut 0 traced in
  let painted :=
    Labels.paintLabels traced 3 1
      (Labels.candidatesFrom Labels.area2 cut 0 traced)
      (Labels.paintLabels traced 10 1
         (Labels.candidatesFrom Labels.area2 cut 0 traced)
         (Labels.paintLabels traced 30 1 nums map0)) in
  let st' := fst (onImageLoad st) in
  contours st' = traced
  /\ contourNumMap st' = nums
  /\ (contourMap st' = Some painted
      \/ exists shown,
           contourMap st' = Some (limitOutputSize shown painted))
  /\ imgElement st' = imgElement st
  /\ cookieState st' = cookieState st
  /\ saveFilename st' = saveFilename st
  /\ downloads st' = downloads st.
Proof.
  cbn zeta. pose proof (onImageLoad_cases st) as H. cbn zeta in H.
  set (padded := copyMakeBorder (imgElement st) 10 BORDER_WRAP) in *.
  set (src := adaptiveThreshold (cvtColor padded COLOR_RGBA2GRAY)) in *.
  set (traced := findContours src) in *.
  set (cut := inject_Z (cols src * rows src) * (90 # 100)) in *.
  set (dst0 := cvtColor (cvtColor padded _) _) in *.
  set (map0 := zeros _ _) in *.
  destruct (scan_from traced cut traced 0 (Classifier.start dst0 map0))
    as [Hn Hm].
  fold (forEach (Classifier.body traced cut) traced
          (Classifier.start dst0 map0)) in Hn, Hm.
  set (scan := forEach (Classifier.body traced cut) traced _) in *.
  cbn [Classifier.start Classifier.contourNumMap Classifier.contourMap
       Classifier.contIndex app] in Hn, Hm.
  unfold forEach in H. rewrite !repaint_from, Hm, Hn in H.
  set (painted := Labels.paintLabels traced 3 1 _ _) in *.
  destruct H as [shown H].
  set (st2 := imshow _ _) in H.
  assert (E : exists cnt, onImageLoad st = rebuildFrom st2 cnt).
  { destruct (get traced (Classifier.largestContour scan)) as [cnt|].
    - exists (Some cnt). exact H.
    - exists None. apply H. }
  destruct E as [cnt ->].
  pose proof (rebuildFrom_frame st2 cnt) as F.
  assert (K : saveFilename (fst (rebuildFrom st2 cnt)) = saveFilename st2
              /\ downloads (fst (rebuildFrom st2 cnt)) = downloads st2).
  { destruct cnt as [cnt|]; [|now split].
    pose proof (rebuild_keeps st2 cnt) as K. cbn zeta in K.
    split; apply K. }
  cbn zeta in F. subst st2. cbn in F, K.
  destruct F as (F1 & F2 & F3 & F4 & F5 & _). destruct K as (K1 & K2).
  repeat split; try assumption. right. now exists shown.
Qed.

End LoadFacts.

(** X6.  After [onImageLoad], however it ends, the label table
    [contourNumMap] lists exactly the indices of the traced boundaries whose
    unsigned area lies strictly between a tenth of the cutoff and the
    cutoff, in increasing order and without repetition. *)
Theorem label_table_lists_the_candidates `{cv : OpenCV} (st : App.State) :
  let src :=
    adaptiveThreshold
      (cvtColor (copyMakeBorder (App.imgElement st) 10 BORDER_WRAP)
         COLOR_RGBA2GRAY) in
  let traced := findContours src in
  let cutoff := inject_Z (cols src * rows src) * (90 # 100) in
  let st' := fst (App.onImageLoad st) in
  App.contours st' = traced
  /\ (forall i, In i (App.contourNumMap st')
        <-> exists c, get traced i = Some c
              /\ cutoff * (1 # 10) < Classifier.unsignedArea c
              /\ Classifier.unsignedArea c < cutoff)
  /\ (forall k k' i i', (k < k')%nat ->
        App.contourNumMap st' !! k = Some i ->
        App.contourNumMap st' !! k' = Some i' -> (i < i')%nat).
Proof.
  cbn zeta.
  pose proof (onImageLoad_stores st) as (Hc & Hn & _). cbn zeta in Hc, Hn.
  rewrite Hc, Hn. split; [reflexivity|]. split.
  - intros i. rewrite candidatesFrom_elem, Nat.sub_0_r. unfold get.
    split.
    + intros (_ & c & Hi & Hs). exists c. split; [exact Hi|].
      apply selectable_true in Hs. pose proof (area1_unsigned c). lra.
    + intros (c & Hi & H1 & H2). split; [lia|]. exists c.
      split; [exact Hi|]. apply selectable_true.
      pose proof (area1_unsigned c). lra.
  - intros k k' i i'. apply candidatesFrom_increasing.
Qed.

(** X7.  When the engine's unsigned area is the absolute value of its signed
    area on the traced boundaries, the three painting passes of
    [onImageLoad] agree: the index map is the blank raster on which, for
    every [k], the boundary [contourNumMap[k]] was stroked with label
    [k + 1] at thickness 30, then 10, then 3; it is stored resized unless
    [drawContours] threw. *)
Theorem index_map_is_painted_by_label `{cv : OpenCV} (st : App.State) :
  let padded := copyMakeBorder (App.imgElement st) 10 BORDER_WRAP in
  let src := adaptiveThreshold (cvtColor padded COLOR_RGBA2GRAY) in
  let traced := findContours src in
  let st' := fst (App.onImageLoad st) in
  let painted :=
    Labels.indexMap traced (App.contourNumMap st')
      (zeros (inject_Z (rows padded)) (inject_Z (cols padded))) in
  Forall (fun c => contourArea c false == Qabs (contourArea c true)) traced ->
  App.contourMap st' = Some painted
  \/ exists shown,
       App.contourMap st' = Some (App.limitOutputSize shown painted).
Proof.
  cbn zeta. intros Hengine.
  pose proof (onImageLoad_stores st) as (_ & Hn & Hm & _).
  cbn zeta in Hn, Hm. rewrite Hn. unfold Labels.indexMap.
  rewrite (candidatesFrom_ext Labels.area2 Labels.area1) in Hm; [exact Hm|].
  eapply Forall_impl; [exact Hengine|]. intros c Hc. cbn beta.
  unfold Labels.area2. rewrite Hc. symmetry. apply area1_unsigned.
Qed.

(** X8.  The default boundary does not depend on the noise floor: when some
    traced boundary has a positive unsigned area below the cutoff,
    [onImageLoad] makes active the first boundary of largest area among
    those, whether or not it or any other boundary is a candidate. *)
Theorem default_boundary_ignores_the_noise_floor `{cv : OpenCV}
    (st : App.State) :
  let src :=
    adaptiveThreshold
      (cvtColor (copyMakeBorder (App.imgElement st) 10 BORDER_WRAP)
         COLOR_RGBA2GRAY) in
  let traced := findContours src in
  let cutoff := inject_Z (cols src * rows src) * (90 # 100) in
  (exists k c, get traced k = Some c
     /\ 0 < Classifier.unsignedArea c /\ Classifier.unsignedArea c < cutoff) ->
  exists i b,
    App.lastCnt (fst (App.onImageLoad st)) = Some b
    /\ get traced i = Some b
    /\ 0 < Classifier.unsignedArea b
    /\ Classifier.unsignedArea b < cutoff
    /\ (forall j c, get traced j = Some c ->
          Classifier.unsignedArea c < cutoff ->
          Classifier.unsignedArea c <= Classifier.unsignedArea b)
    /\ (forall j c, (j < i)%nat -> get traced j = Some c ->
          Classifier.unsignedArea c < cutoff ->
          Classifier.unsignedArea c < Classifier.unsignedArea b).
Proof.
  intros src traced cut (k & ck & Hk & Hpos & Hup).
  pose proof (onImageLoad_cases st) as H. cbn zeta in H.
  fold src in H. fold traced in H. fold cut in H.
  set (dst0 := cvtColor (cvtColor _ _) _) in H.
  set (map0 := zeros _ _) in H.
  pose proof (scanned_all traced cut dst0 map0) as (H0 & Hmax & Hbest).
  set (scan := forEach (Classifier.body traced cut) traced
                 (Classifier.start dst0 map0)) in *.
  pose proof (Hmax k ck Hk Hup) as Hk'.
  destruct Hbest as [Hz|(b & Hb & Heq & Hbcut & Hfirst)]; [lra|].
  exists (Classifier.largestContour scan), b.
  unfold get in *. rewrite Hb in H. destruct H as [shown ->].
  rewrite rebuild_lastCnt.
  split; [reflexivity|]. split; [exact Hb|]. split; [lra|].
  split; [exact Hbcut|]. split.
  - intros j c Hj Hc. specialize (Hmax j c Hj Hc). lra.
  - intros j c Hlt Hj Hc. now apply (Hfirst j c).
Qed.

Lemma default_boundary_ignores_the_noise_floor_witness :
  exists i b,
    App.lastCnt (fst (App.onImageLoad Cases.onSpecks)) = Some b
    /\ get Cases.specks i = Some b.
Proof.
  destruct (@default_boundary_ignores_the_noise_floor Cases.speckled
              Cases.onSpecks)
    as (i & b & Hlast & Hget & _).
  - exists 0%nat, (Sample.box 30 30 5 5).
    split; [reflexivity|]. split; vm_compute; reflexivity.
  - exists i, b. split; assumption.
Defined.

(** X9.  The edges of [onImageLoad].  With nothing traced, [drawContours]
    returns without drawing: the padded grey raster is shown as it is,
    resized; [lastCnt] becomes [undefined]; [generateSTL] throws a
    [TypeError], so that the scene stays as it was and no [animate] loop is
    started; the label table is empty.  With anything traced, a traced
    boundary becomes active and a raster is shown.  When no traced boundary
    has a positive area below the cutoff, the active boundary is the first
    traced one, whatever its area, the image frame included. *)
Theorem onImageLoad_edge_cases `{cv : OpenCV} (st : App.State) :
  let padded := copyMakeBorder (App.imgElement st) 10 BORDER_WRAP in
  let src := adaptiveThreshold (cvtColor padded COLOR_RGBA2GRAY) in
  let grey := cvtColor (cvtColor padded COLOR_RGBA2GRAY) COLOR_GRAY2RGBA in
  let traced := findContours src in
  let cutoff := inject_Z (cols src * rows src) * (90 # 100) in
  let st' := fst (App.onImageLoad st) in
  (traced = [] ->
   snd (App.onImageLoad st) = Abrupt TypeError
   /\ App.lastCnt st' = None
   /\ App.scene st' = App.scene st
   /\ App.animations st' = App.animations st
   /\ App.canvasOutput st' = Some (App.limitOutputSize grey grey)
   /\ App.contourNumMap st' = [])
  /\ (traced <> [] ->
      exists i c shown,
        get traced i = Some c
        /\ App.lastCnt st' = Some c
        /\ App.canvasOutput st' = Some shown)
  /\ ((forall j c, get traced j = Some c ->
         ~ (0 < Classifier.unsignedArea c
            /\ Classifier.unsignedArea c < cutoff)) ->
      forall c0, get traced 0 = Some c0 -> App.lastCnt st' = Some c0).
Proof.
  intros padded src grey traced cut st'. subst st'.
  split; [|split].
  - intros Hnil. unfold App.onImageLoad. cbn zeta.
    fold padded. fold src. fold traced. rewrite Hnil. cbn.
    now repeat split.
  - intros Hne.
    pose proof (onImageLoad_cases st) as [shown H]. cbn zeta in H.
    fold padded in H. fold src in H. fold traced in H. fold cut in H.
    fold grey in H.
    set (map0 := zeros _ _) in H.
    set (scan := forEach (Classifier.body traced cut) traced
                   (Classifier.start grey map0)) in *.
    set (st2 := App.imshow _ _) in H.
    destruct (get traced (Classifier.largestContour scan)) as [c|] eqn:Hc;
      [|now destruct H].
    rewrite H.
    exists (Classifier.largestContour scan), c.
    eexists. split; [exact Hc|]. split; [apply rebuild_lastCnt|].
    pose proof (rebuild_frame st2 c) as (_ & _ & _ & _ & _ & Ho).
    rewrite Ho. reflexivity.
  - intros Hq c0 Hc0.
    pose proof (onImageLoad_cases st) as [shown H]. cbn zeta in H.
    fold padded in H. fold src in H. fold traced in H. fold cut in H.
    fold grey in H.
    set (map0 := zeros _ _) in H.
    rewrite (scan_nothing_qualifies traced cut grey map0 Hq) in H.
    rewrite Hc0 in H. rewrite H. apply rebuild_lastCnt.
Qed.

Lemma onImageLoad_edge_cases_witness :
  let st' := fst (App.onImageLoad Cases.onBlank) in
  snd (App.onImageLoad Cases.onBlank) = Abrupt TypeError
  /\ App.lastCnt st' = None
  /\ App.scene st' = []
  /\ App.canvasOutput st' = Some (Sample.mkRaster 500 500 Sample.Photo).
Proof.
  destruct (@onImageLoad_edge_cases Cases.blank Cases.onBlank)
    as [Hnil _].
  destruct Hnil as (Hend & Hlast & Hscene & _ & Hshown & _);
    [reflexivity|].
  cbn zeta. split; [exact Hend|]. split; [exact Hlast|].
  split; [exact Hscene|exact Hshown].
Defined.

Lemma index_map_is_painted_by_label_witness :
  exists m,
    App.contourMap (Sample.loaded Sample.ringInnerOuterFrame false) = Some m.
Proof.
  destruct (@index_map_is_painted_by_label
              (Sample.tracing Sample.ringInnerOuterFrame)
              (Sample.initial Sample.ringInnerOuterFrame false))
    as [H|[shown H]].
  - vm_compute. repeat constructor.
  - eexists. exact H.
  - eexists. exact H.
Defined.

(** ** More on the click handler and on the export *)

Section ClickFacts.
Context `{cv : OpenCV}.
Import App.

Lemma lookupLabel_Some (nums : list nat) (co : Z) :
  (1 <= co <= Z.of_nat (length nums))%Z ->
  exists i, lookupLabel nums co = Some i
            /\ nums !! Z.to_nat (co - 1) = Some i.
Proof.
  intros H. unfold lookupLabel.
  destruct (Z.ltb_spec co 1); [lia|].
  destruct (lookup_lt_is_Some_2 nums (Z.to_nat (co - 1))) as [i Hi]; [lia|].
  now exists i.
Qed.

Lemma lookupLabel_None (nums : list nat) (co : Z) :
  (co < 1 \/ Z.of_nat (length nums) < co)%Z -> lookupLabel nums co = None.
Proof.
  intros H. unfold lookupLabel.
  destruct (Z.ltb_spec co 1); [reflexivity|].
  apply lookup_ge_None. lia.
Qed.

(** A click on a label of the table that points at a stored boundary makes
    that boundary active. *)
Lemma click_selects (st : State) (x y : Q) (map : Mat) (i : nat)
    (c : Contour) :
  contourMap st = Some map ->
  ucharPtr map y x <> 0%Z ->
  lookupLabel (contourNumMap st) (ucharPtr map y x) = Some i ->
  get (contours st) i = Some c ->
  exists shown,
    updateContourSelection st x y = rebuild (imshow st shown) c.
Proof.
  intros Hmap Hco Hl Hc. apply Z.eqb_neq in Hco.
  unfold updateContourSelection.
  rewrite Hmap, Hco, Hl. cbn zeta.
  rewrite (drawContour_at _ _ _ c _ _ Hc), Hc. eexists. reflexivity.
Qed.

(** Everything that a click leaves alone. *)
Lemma click_keeps (st : State) (x y : Q) :
  let st' := fst (updateContourSelection st x y) in
  saveFilename st' = saveFilename st
  /\ downloads st' = downloads st
  /\ (animations st <= animations st' <= S (animations st))%nat.
Proof.
  destruct (click_cases st st x y eq_refl eq_refl eq_refl eq_refl)
    as [(c & E & _)|(img & [cnt|] & E & _)]; rewrite E; cbn zeta.
  - cbn. repeat split; lia.
  - pose proof (rebuild_keeps (imshow st img) cnt) as K. cbn zeta in K.
    cbn [saveFilename downloads animations imshow] in K. exact K.
  - cbn. repeat split; lia.
Qed.

End ClickFacts.

(** X10.  After [onImageLoad], a click where the index map reads a label
    between 1 and the length of the label table makes the candidate that the
    table holds for that label the active boundary; a click on any other
    non-zero label throws a [TypeError] and changes nothing. *)
Theorem click_resolves_label_to_candidate `{cv : OpenCV}
    (st : App.State) (x y : Q) (map : Mat) :
  let src :=
    adaptiveThreshold
      (cvtColor (copyMakeBorder (App.imgElement st) 10 BORDER_WRAP)
         COLOR_RGBA2GRAY) in
  let traced := findContours src in
  let cutoff := inject_Z (cols src * rows src) * (90 # 100) in
  let st1 := fst (App.onImageLoad st) in
  let co := ucharPtr map y x in
  let n := Z.of_nat (length (App.contourNumMap st1)) in
  App.contourMap st1 = Some map ->
  co <> 0%Z ->
  ((1 <= co <= n)%Z ->
   exists i c,
     App.contourNumMap st1 !! Z.to_nat (co - 1) = Some i
     /\ get traced i = Some c
     /\ cutoff * (1 # 10) < Classifier.unsignedArea c
     /\ Classifier.unsignedArea c < cutoff
     /\ App.lastCnt (fst (App.updateContourSelection st1 x y)) = Some c)
  /\ ((co < 1 \/ n < co)%Z ->
      App.updateContourSelection st1 x y = (st1, Abrupt TypeError)).
Proof.
  intros src traced cut st1 co n Hmap Hco.
  pose proof (onImageLoad_stores st) as (Hc & Hn & _). cbn zeta in Hc, Hn.
  fold st1 in Hc, Hn. fold src in Hc, Hn. fold traced in Hc, Hn.
  fold cut in Hn. split.
  - intros Hrange.
    destruct (lookupLabel_Some (App.contourNumMap st1) co Hrange)
      as (i & Hl & Hi).
    assert (Hin : In i (App.contourNumMap st1))
      by (apply list_elem_of_In; eapply list_elem_of_lookup_2; exact Hi).
    rewrite Hn in Hin. apply candidatesFrom_elem in Hin.
    destruct Hin as (_ & c & Hget & Hs). rewrite Nat.sub_0_r in Hget.
    apply selectable_true in Hs. pose proof (area1_unsigned c) as Ha.
    exists i, c. split; [exact Hi|]. split; [exact Hget|].
    split; [lra|]. split; [lra|].
    destruct (click_selects st1 x y map i c Hmap Hco Hl) as [shown ->].
    + rewrite Hc. exact Hget.
    + apply rebuild_lastCnt.
  - intros Hout. unfold App.updateContourSelection. rewrite Hmap.
    apply Z.eqb_neq in Hco. fold co. rewrite Hco.
    now rewrite (lookupLabel_None _ _ Hout).
Qed.

Lemma click_resolves_label_to_candidate_witness :
  App.lastCnt
    (fst (App.updateContourSelection
            (Sample.loaded Sample.ringInnerOuterFrame false) 300 10))
  = Some (Sample.box 20 20 40 40).
Proof.
  destruct (@click_resolves_label_to_candidate
              (Sample.tracing Sample.ringInnerOuterFrame)
              (Sample.initial Sample.ringInnerOuterFrame false) 300 10
              (Sample.mkRaster 500 500 Sample.Blank))
    as [Hin _].
  - reflexivity.
  - vm_compute. lia.
  - destruct Hin as (i & c & Hi & Hget & _ & _ & Hlast).
    + vm_compute. split; discriminate.
    + vm_compute in Hi. injection Hi as <-.
      vm_compute in Hget. injection Hget as <-. exact Hlast.
Defined.

(** X11.  A click never alters the trace, the index map, the label table,
    the image, the configuration, the name to save under or the files
    already offered, and it starts at most one more [animate] loop. *)
Theorem click_frame_conditions `{cv : OpenCV} (st : App.State) (x y : Q) :
  let st' := fst (App.updateContourSelection st x y) in
  App.contours st' = App.contours st
  /\ App.contourMap st' = App.contourMap st
  /\ App.contourNumMap st' = App.contourNumMap st
  /\ App.imgElement st' = App.imgElement st
  /\ App.cookieState st' = App.cookieState st
  /\ App.saveFilename st' = App.saveFilename st
  /\ App.downloads st' = App.downloads st
  /\ (App.animations st <= App.animations st' <= S (App.animations st))%nat.
Proof.
  cbn zeta. pose proof (click_frame st x y) as (F1 & F2 & F3 & F4 & F5).
  pose proof (click_keeps st x y) as (K1 & K2 & K3).
  repeat split; try assumption; lia.
Qed.

(** X12.  [saveTextAsFile] either completes, and then it has rebuilt the
    scene from the active boundary under the configuration of the moment
    and offers exactly that scene under the sanitised name followed by
    [.stl]; or it throws, because no boundary is active or the outline
    generator threw, and then nothing is offered and nothing changes. *)
Theorem export_offers_the_rebuilt_scene `{cv : OpenCV} (st : App.State) :
  let st' := fst (App.saveTextAsFile st) in
  match snd (App.saveTextAsFile st) with
  | Normal =>
      exists cnt g,
        App.lastCnt st = Some cnt
        /\ Assembler.geom (App.cookieState st) cnt = Ok g
        /\ App.scene st' = [ Mesh g 11149994; Events.light ]
        /\ App.downloads st'
           = App.downloads st
             ++ [(Exporter.sanitizedFilename (App.saveFilename st)
                    ++ codeUnits ".stl",
                  [ Mesh g 11149994; Events.light ])]
        /\ App.lastCnt st' = App.lastCnt st
  | Abrupt e =>
      st' = st
      /\ (App.lastCnt st = None
          \/ exists cnt, App.lastCnt st = Some cnt
               /\ Assembler.geom (App.cookieState st) cnt = Throw e)
  end.
Proof.
  cbn zeta. unfold App.saveTextAsFile, App.generateSTL.
  destruct (App.lastCnt st) as [cnt|] eqn:El; [|cbn; split; auto].
  destruct (Assembler.geom (App.cookieState st) cnt) as [g|e] eqn:Eg; cbn.
  - exists cnt, g. now repeat split.
  - split; [reflexivity|]. right. now exists cnt.
Qed.

(** ** More on the outline generator *)

Section PickFacts.
Context `{cv : OpenCV}.
Import Ring.

(** With no surviving contour the selection loop never fires. *)
Lemma pick_none (cut : Q) (contours : list Contour) :
  (forall j d, contours !! j = Some d ->
     ~ survives (fun c => contourArea c false) cut d) ->
  pick cut contours = start.
Proof.
  intros Hnone. revert Hnone. unfold pick.
  apply (forEach_invariant (body cut)
           (fun pre st =>
              (forall j d, pre !! j = Some d ->
                 ~ survives (fun c => contourArea c false) cut d) ->
              st = start)).
  - reflexivity.
  - intros pre a st IH Hpre. rewrite IH.
    2:{ intros j d Hj. apply (Hpre j d). now apply lookup_app_l_Some. }
    rewrite pick_body. cbn zeta. cbn [maxArea start].
    destruct (_ && _) eqn:E; [|reflexivity]. exfalso.
    apply andb_true_iff in E. destruct E as [E1 E2].
    apply Qltb_lt in E1, E2.
    apply (Hpre (length pre) a); [apply list_lookup_middle; reflexivity|].
    split; [lra|exact E2].
Qed.

(** Traced in increasing order of area, the survivors are picked right. *)
Lemma pick_increasing (cut : Q) (contours : list Contour) :
  let area (c : Contour) := contourArea c false in
  Stroke.increasing area cut contours ->
  Stroke.picked area cut contours (pick cut contours).
Proof.
  intros area Hinc. revert Hinc. unfold pick.
  apply (forEach_invariant (body cut)
           (fun pre st => Stroke.increasing area cut pre ->
                          Stroke.picked area cut pre st)).
  - intros _. left. split; [intros j d Hj; discriminate|reflexivity].
  - intros pre a st IH Hinc.
    assert (Hpre : Stroke.increasing area cut pre).
    { intros i j c d Hlt Hi Hj. apply (Hinc i j c d Hlt);
        now apply lookup_app_l_Some. }
    specialize (IH Hpre). rewrite pick_body. cbn zeta. fold (area a).
    assert (Hlast : (pre ++ [a]) !! length pre = Some a)
      by (apply list_lookup_middle; reflexivity).
    destruct IH as [[Hnone ->]|(c & Hc & Hsc & Hmax & Hbig & Hother)].
    + cbn [maxArea start largestContour].
      destruct (Qltb (0 * 1) (area a * 1) && Qltb (area a) cut) eqn:E.
      * apply andb_true_iff in E. destruct E as [E1 E2].
        apply Qltb_lt in E1, E2. right. exists a.
        cbn [largestContour maxArea otherContour].
        split; [exact Hlast|]. split; [split; [lra|exact E2]|].
        split; [reflexivity|]. split.
        -- intros j d Hj Hd Hne. apply lookup_snoc_Some in Hj.
           destruct Hj as [[_ Hj]|[Hj _]]; [|congruence].
           now destruct (Hnone j d Hj).
        -- left. split; [|reflexivity]. intros j d Hj Hd.
           apply lookup_snoc_Some in Hj.
           destruct Hj as [[_ Hj]|[Hj _]]; [|exact Hj].
           now destruct (Hnone j d Hj).
      * left. split; [|reflexivity]. intros j d Hj Hd.
        apply lookup_snoc_Some in Hj.
        destruct Hj as [[_ Hj]|[_ <-]]; [now apply (Hnone j d Hj)|].
        destruct Hd as [Hd1 Hd2].
        apply andb_false_iff in E. destruct E as [E|E];
          apply Qltb_ge in E; fold (area a) in *; lra.
    + pose proof (lookup_lt_Some _ _ _ Hc) as Hl.
      destruct (Qltb (maxArea st * 1) (area a * 1) && Qltb (area a) cut)
        eqn:E.
      * apply andb_true_iff in E. destruct E as [E1 E2].
        apply Qltb_lt in E1, E2. rewrite Hmax in E1.
        assert (Hsa : survives area cut a).
        { destruct Hsc. split; [lra|exact E2]. }
        right. exists a. cbn [largestContour maxArea otherContour].
        split; [exact Hlast|]. split; [exact Hsa|].
        split; [reflexivity|]. split.
        -- intros j d Hj Hd Hne. apply lookup_snoc_Some in Hj.
           destruct Hj as [[Hlt Hj]|[Hj _]]; [|congruence].
           apply (Hinc j (length pre) d a Hlt); try assumption.
           now apply lookup_app_l_Some.
        -- right. exists c. split; [lia|].
           split; [now apply lookup_app_l_Some|]. split; [exact Hsc|].
           intros j d Hne Hj Hd. apply lookup_snoc_Some in Hj.
           destruct Hj as [[_ Hj]|[Hj _]]; [|congruence].
           destruct (Nat.eq_dec j (largestContour st)) as [->|Hjl].
           ++ rewrite Hc in Hj. injection Hj as <-. lra.
           ++ specialize (Hbig j d Hj Hd Hjl). lra.
      * assert (Hna : ~ survives area cut a).
        { intros [Ha1 Ha2].
          assert (Hlt : area c < area a).
          { apply (Hinc (largestContour st) (length pre) c a Hl);
              try assumption; [now apply lookup_app_l_Some|now split]. }
          apply andb_false_iff in E. destruct E as [E|E];
            apply Qltb_ge in E; rewrite ?Hmax in E; lra. }
        right. exists c. split; [now apply lookup_app_l_Some|].
        split; [exact Hsc|]. split; [exact Hmax|]. split.
        -- intros j d Hj Hd Hne. apply lookup_snoc_Some in Hj.
           destruct Hj as [[_ Hj]|[_ <-]]; [now apply (Hbig j d)|].
           now destruct Hna.
        -- destruct Hother as [[Honly Ho]|(e & He1 & He2 & He3 & He4)].
           ++ left. split; [|exact Ho]. intros j d Hj Hd.
              apply lookup_snoc_Some in Hj.
              destruct Hj as [[_ Hj]|[_ <-]]; [now apply (Honly j d)|].
              now destruct Hna.
           ++ right. exists e. split; [exact He1|].
              split; [now apply lookup_app_l_Some|]. split; [exact He3|].
              intros j d Hne Hj Hd. apply lookup_snoc_Some in Hj.
              destruct Hj as [[_ Hj]|[_ <-]]; [now apply (He4 j d)|].
              now destruct Hna.
Qed.

End PickFacts.

Section OuterFacts.
Context `{cv : OpenCV}.
Import Ring.




End OuterFacts.



(** X13.  Whenever some traced contour of the ring raster survives (positive
    area below 0.95 of the raster) and the generator returns a shape, the
    outline of that shape is the point reduction, at scale 0.1, of a
    surviving contour that no surviving contour exceeds in area. *)
Theorem outline_is_a_largest_survivor `{cv : OpenCV} (cnt : Contour)
    (width maxBoundaryOffetWidth maxDesiredOut tol : Q) (s : Shape) :
  let dst := Ring.ringRaster cnt width maxBoundaryOffetWidth maxDesiredOut in
  let traced := findContours dst in
  let cutoff := inject_Z (cols dst * rows dst) * (95 # 100) in
  let area (c : Contour) := contourArea c false in
  Ring.getScaledOutlineShape cnt width maxBoundaryOffetWidth maxDesiredOut
    tol = Ok s ->
  (exists k c, get traced k = Some c /\ Ring.survives area cutoff c) ->
  exists i c,
    get traced i = Some c
    /\ Ring.isLargest area cutoff traced i
    /\ outline s = Filter.getThreeVector c (1 # 10) tol.
Proof.
  intros dst traced cut area Hs Hex.
  pose proof (pick_largest cut traced Hex) as Hl.
  unfold Ring.getScaledOutlineShape in Hs. cbn zeta in Hs.
  fold dst in Hs. fold traced in Hs. fold cut in Hs.
  destruct Hl as (c & Hc & Hrest).
  exists (Ring.largestContour (Ring.pick cut traced)), c.
  split; [exact Hc|]. split; [now exists c|].
  rewrite Hc in Hs. cbn in Hs.
  destruct (get traced (Ring.otherContour _)); [|discriminate].
  cbn in Hs. now injection Hs as <-.
Qed.

Lemma outline_is_a_largest_survivor_witness :
  exists s i c,
    @Ring.getScaledOutlineShape (Sample.tracing Sample.ringThree)
      (Sample.box 20 20 40 40) (1 / 2) Assembler.handleWidth 76 (15 # 100)
    = Ok s
    /\ get Sample.ringThree i = Some c
    /\ outline s = Filter.getThreeVector c (1 # 10) (15 # 100).
Proof.
  assert (H : { s | @Ring.getScaledOutlineShape
                      (Sample.tracing Sample.ringThree)
                      (Sample.box 20 20 40 40) (1 / 2) Assembler.handleWidth
                      76 (15 # 100) = Ok s }).
  { eexists. reflexivity. }
  destruct H as [s Hs].
  destruct (@outline_is_a_largest_survivor (Sample.tracing Sample.ringThree)
              (Sample.box 20 20 40 40) (1 / 2) Assembler.handleWidth 76
              (15 # 100) s Hs)
    as (i & c & Hget & _ & Hout).
  - exists 0%nat, (Sample.box 60 60 760 760).
    split; [reflexivity|]. split; vm_compute; reflexivity.
  - exists s, i, c. repeat split; assumption.
Defined.

(** X14.  When the surviving contours of the ring raster are traced in
    increasing order of area (the inner edge before the outer one) and at
    least two survive, the generator returns a shape: its outline is the
    reduction of the largest survivor and its one hole the reduction of the
    other of the two largest. *)
Theorem ring_is_right_when_traced_in_increasing_order `{cv : OpenCV}
    (cnt : Contour) (width maxBoundaryOffetWidth maxDesiredOut tol : Q) :
  let dst := Ring.ringRaster cnt width maxBoundaryOffetWidth maxDesiredOut in
  let traced := findContours dst in
  let cutoff := inject_Z (cols dst * rows dst) * (95 # 100) in
  let area (c : Contour) := contourArea c false in
  Stroke.increasing area cutoff traced ->
  (exists i j c d, i <> j /\ get traced i = Some c /\ get traced j = Some d
     /\ Ring.survives area cutoff c /\ Ring.survives area cutoff d) ->
  exists o h outer inner,
    get traced o = Some outer
    /\ get traced h = Some inner
    /\ Ring.isLargest area cutoff traced o
    /\ Ring.isOtherOfTwoLargest area cutoff traced o h
    /\ Ring.getScaledOutlineShape cnt width maxBoundaryOffetWidth
         maxDesiredOut tol
       = Ok (mkShape (Filter.getThreeVector outer (1 # 10) tol)
               [Filter.getThreeVector inner (1 # 10) tol]).
Proof.
  intros dst traced cut area Hinc (i & j & c & d & Hij & Hi & Hj & Hc & Hd).
  pose proof (pick_increasing cut traced Hinc) as Hp.
  unfold Ring.getScaledOutlineShape. cbn zeta.
  fold dst. fold traced. fold cut.
  set (p := Ring.pick cut traced) in *.
  destruct Hp as [[Hnone _]|(b & Hb & Hsb & _ & Hbig & Hother)].
  { now destruct (Hnone i c Hi). }
  destruct Hother as [[Honly _]|(e & He1 & He2 & He3 & He4)].
  { pose proof (Honly i c Hi Hc). pose proof (Honly j d Hj Hd). congruence. }
  exists (Ring.largestContour p), (Ring.otherContour p), b, e.
  unfold get in *. split; [exact Hb|]. split; [exact He2|]. split; [|split].
  - exists b. split; [exact Hb|]. split; [exact Hsb|].
    intros k f Hk Hf. unfold get in Hk.
    destruct (Nat.eq_dec k (Ring.largestContour p)) as [->|Hne].
    + rewrite Hb in Hk. injection Hk as <-. apply Qle_refl.
    + apply Qlt_le_weak. now apply (Hbig k f).
  - split; [exact He1|]. exists e. split; [exact He2|].
    split; [exact He3|]. intros k f Hne Hk Hf. now apply (He4 k f).
  - now rewrite Hb, He2.
Qed.

Lemma ring_is_right_when_traced_in_increasing_order_witness :
  exists s,
    @Ring.getScaledOutlineShape (Sample.tracing Sample.ringInnerOuterFrame)
      (Sample.box 20 20 40 40) (1 / 2) Assembler.handleWidth 76 (15 # 100)
    = Ok s.
Proof.
  destruct (@ring_is_right_when_traced_in_increasing_order
              (Sample.tracing Sample.ringInnerOuterFrame)
              (Sample.box 20 20 40 40) (1 / 2) Assembler.handleWidth 76
              (15 # 100))
    as (o & h & outer & inner & _ & _ & _ & _ & Hshape).
  - intros [|[|[|i]]] [|[|[|j]]] c d Hlt Hi Hj Hc Hd;
      vm_compute in Hi, Hj; try discriminate; try lia;
      injection Hi as <-; injection Hj as <-;
      try (vm_compute; reflexivity);
      destruct Hd as [_ Hd]; vm_compute in Hd; discriminate.
  - exists 0%nat, 1%nat, (Sample.box 80 80 700 700),
      (Sample.box 60 60 760 760).
    split; [lia|]. split; [reflexivity|]. split; [reflexivity|].
    split; split; vm_compute; reflexivity.
  - eexists. exact Hshape.
Defined.

(** X15.  When no traced contour of the ring raster survives, the selection
    loop never fires and the initial picks stand: the generator returns the
    second traced contour as the outline and the first as its hole, whatever
    their areas, and throws a [TypeError] when fewer than two were
    traced. *)
Theorem ring_without_survivors_uses_the_initial_picks `{cv : OpenCV}
    (cnt : Contour) (width maxBoundaryOffetWidth maxDesiredOut tol : Q) :
  let dst := Ring.ringRaster cnt width maxBoundaryOffetWidth maxDesiredOut in
  let traced := findContours dst in
  let cutoff := inject_Z (cols dst * rows dst) * (95 # 100) in
  let area (c : Contour) := contourArea c false in
  (forall j d, get traced j = Some d -> ~ Ring.survives area cutoff d) ->
  Ring.getScaledOutlineShape cnt width maxBoundaryOffetWidth maxDesiredOut
    tol
  = match traced with
    | c0 :: c1 :: _ =>
        Ok (mkShape (Filter.getThreeVector c1 (1 # 10) tol)
              [Filter.getThreeVector c0 (1 # 10) tol])
    | _ => Throw TypeError
    end.
Proof.
  intros dst traced cut area Hnone.
  unfold Ring.getScaledOutlineShape. cbn zeta.
  fold dst. fold traced. fold cut.
  rewrite (pick_none cut traced Hnone). cbn [Ring.start Ring.largestContour
    Ring.otherContour].
  destruct traced as [|c0 [|c1 rest]]; reflexivity.
Qed.

Lemma ring_without_survivors_uses_the_initial_picks_witness :
  @Ring.getScaledOutlineShape Cases.framed (Sample.box 20 20 40 40) (1 / 2)
    Assembler.handleWidth 76 (15 # 100)
  = Ok (mkShape
          (Filter.getThreeVector (Sample.box 0 0 880 880) (1 # 10)
             (15 # 100))
          [Filter.getThreeVector (Sample.box 0 0 885 885) (1 # 10)
             (15 # 100)]).
Proof.
  apply (@ring_without_survivors_uses_the_initial_picks Cases.framed
           (Sample.box 20 20 40 40) (1 / 2) Assembler.handleWidth 76
           (15 # 100)).
  intros [|[|j]] d Hj [_ Hd]; vm_compute in Hj; try discriminate;
    injection Hj as <-; vm_compute in Hd; discriminate.
Defined.

(** [Math.round] of a number between two integers lies between them, up to
    the half that rounding adds. *)
Lemma Math_round_bounds (q : Q) (lo : Z) (hi : Q) :
  inject_Z lo <= q -> q <= hi ->
  (lo <= Math_round q)%Z /\ inject_Z (Math_round q) <= hi + (1 # 2).
Proof.
  intros Hlo Hhi. unfold Math_round. split.
  - rewrite <- (Qfloor_Z lo). apply Qfloor_resp_le. lra.
  - pose proof (Qfloor_le (q + (1 # 2))). lra.
Qed.

(** X16.  When [boundingRect] bounds the rows of the boundary and the target
    size is not negative, every row is stroked at a pixel that keeps the
    margin [walloffset] from the low edges of the ring raster and, up to
    half a pixel, from the high ones: both its coordinates lie between
    [walloffset] and [10 * maxDesiredOut + walloffset + 1/2], on a raster of
    side [10 * maxDesiredOut + 2 * walloffset]. *)
Theorem stroke_keeps_the_margin `{cv : OpenCV} (cnt : Contour)
    (maxBoundaryOffetWidth maxDesiredOut : Q) (row : Z * Z) :
  let rect := boundingRect cnt in
  let maxCntDimension := Z.max (rect_width rect) (rect_height rect) in
  let walloffset := Math_ceil ((maxBoundaryOffetWidth + 1) * 12) in
  let scale := (maxDesiredOut * 10) / inject_Z maxCntDimension in
  let p := Stroke.endpoint rect scale walloffset row in
  Stroke.bounding rect cnt ->
  0 <= maxDesiredOut ->
  In row cnt ->
  ((walloffset <= fst p)%Z
   /\ inject_Z (fst p)
      <= maxDesiredOut * 10 + inject_Z walloffset + (1 # 2))
  /\ ((walloffset <= snd p)%Z
      /\ inject_Z (snd p)
         <= maxDesiredOut * 10 + inject_Z walloffset + (1 # 2))
  /\ forall dst i lineThickness,
       Ring.stroke cnt rect scale walloffset lineThickness dst i row
       = line dst p
           (Stroke.endpoint rect scale walloffset
              (nth (S i mod length cnt) cnt (0, 0)%Z))
           (mkScalar 255 255 255 0) lineThickness.
Proof.
  intros rect M walloffset scale p Hb Hsize Hin.
  apply List.Forall_forall with (x := row) in Hb; [|exact Hin].
  destruct Hb as [[Hx1 Hx2] [Hy1 Hy2]].
  assert (Hscaled : forall dx : Z, (0 <= dx < M)%Z ->
            0 <= scale * inject_Z dx /\ scale * inject_Z dx
                                        <= maxDesiredOut * 10).
  { intros dx [Hd1 Hd2].
    assert (HM : 0 < inject_Z M)
      by (change 0 with (inject_Z 0); rewrite <- Zlt_Qlt; lia).
    assert (Hd : 0 <= inject_Z dx)
      by (change 0 with (inject_Z 0); rewrite <- Zle_Qle; lia).
    assert (HdM : inject_Z dx <= inject_Z M) by (rewrite <- Zle_Qle; lia).
    assert (Hr0 : 0 <= inject_Z dx / inject_Z M)
      by (apply Qle_shift_div_l; [exact HM|lra]).
    assert (Hr1 : inject_Z dx / inject_Z M <= 1)
      by (apply Qle_shift_div_r; [exact HM|lra]).
    assert (E : scale * inject_Z dx
                == maxDesiredOut * 10 * (inject_Z dx / inject_Z M)).
    { unfold scale. field. lra. }
    rewrite E. split; nra. }
  assert (Hbound : forall dx : Z, (0 <= dx < M)%Z ->
            (walloffset
             <= Math_round (scale * inject_Z dx + inject_Z walloffset))%Z
            /\ inject_Z (Math_round (scale * inject_Z dx
                                     + inject_Z walloffset))
               <= maxDesiredOut * 10 + inject_Z walloffset + (1 # 2)).
  { intros dx Hdx. destruct (Hscaled dx Hdx) as [H0 H1].
    apply Math_round_bounds; lra. }
  split; [|split].
  - apply Hbound. unfold M. lia.
  - apply Hbound. unfold M. lia.
  - reflexivity.
Qed.

Lemma stroke_keeps_the_margin_witness :
  let p :=
    Stroke.endpoint (Sample.bounds (Sample.box 25 25 50 60))
      (76 * 10 / inject_Z 61) 63 (75, 85)%Z in
  (63 <= fst p)%Z /\ inject_Z (fst p) <= 76 * 10 + inject_Z 63 + (1 # 2).
Proof.
  apply (@stroke_keeps_the_margin (Sample.tracing Sample.ringInnerOuterFrame)
           (Sample.box 25 25 50 60) Assembler.handleWidth 76 (75, 85)%Z).
  - vm_compute. repeat constructor; discriminate.
  - vm_compute. discriminate.
  - simpl. tauto.
Defined.

(** ** The events of one session *)

Section EventFacts.
Context `{cv : OpenCV}.
Import App Events.

(** The geometry of a rebuild: the wall and the handle, or the base, the cap
    and the handle, each on a shape with one hole. *)
Lemma geom_built (cfg : CookieState.t) (cnt : Contour) (g : Geometry) :
  Assembler.geom cfg cnt = Ok g -> built [ Mesh g 11149994; light ].
Proof.
  intros Hg. exists g. split; [reflexivity|].
  unfold Assembler.geom in Hg. cbn zeta in Hg.
  destruct (CookieState.cutterBevel cfg).
  - destruct (Ring.getScaledOutlineShape cnt (CookieState.thickness cfg / 2)
                _ _ _) as [s1|] eqn:E1;
      cbn in Hg; [|discriminate].
    destruct (Ring.getScaledOutlineShape cnt
                (CookieState.thickness cfg * 3 / 2) _ _ _) as [s2|]
      eqn:E2; cbn in Hg; [|discriminate].
    destruct (Ring.getScaledOutlineShape cnt Assembler.handleWidth _ _ _)
      as [s3|] eqn:E3; cbn in Hg; [|discriminate].
    injection Hg as <-. split; [now right|].
    repeat constructor; cbn;
      eauto using getScaledOutlineShape_one_hole.
  - destruct (Ring.getScaledOutlineShape cnt (CookieState.thickness cfg / 2)
                _ _ _) as [s1|] eqn:E1;
      cbn in Hg; [|discriminate].
    destruct (Ring.getScaledOutlineShape cnt Assembler.handleWidth _ _ _)
      as [s3|] eqn:E3; cbn in Hg; [|discriminate].
    injection Hg as <-. split; [now left|].
    repeat constructor; cbn;
      eauto using getScaledOutlineShape_one_hole.
Qed.

(** A click changes nothing, or shows a raster and rebuilds from a stored
    boundary, or shows a raster and throws with [lastCnt] left
    [undefined]. *)
Lemma click_outcome (st : State) (x y : Q) :
  (exists c, updateContourSelection st x y = (st, c))
  \/ (exists img i cnt,
        get (contours st) i = Some cnt
        /\ updateContourSelection st x y = rebuild (imshow st img) cnt)
  \/ (exists img,
        updateContourSelection st x y
        = (setLastCntUndefined (imshow st img), Abrupt TypeError)).
Proof.
  unfold updateContourSelection.
  destruct (contourMap st) as [map|]; [|left; eauto].
  destruct (ucharPtr map y x =? 0)%Z; [left; eauto|].
  destruct (lookupLabel _ _) as [co|]; [|left; eauto].
  cbn zeta.
  destruct (drawContour _ _ _ _ _) as [img|e]; [|left; eauto].
  destruct (get (contours st) co) as [cnt|] eqn:E; right; [left|right];
    eauto.
Qed.

Lemma rebuild_scene_built (st : State) (cnt : Contour) :
  scene st = [] \/ built (scene st) ->
  scene (fst (rebuild st cnt)) = []
  \/ built (scene (fst (rebuild st cnt))).
Proof.
  intros Hs. pose proof (rebuild_scene st cnt) as Hscene.
  destruct (Assembler.geom (cookieState st) cnt) as [g|e] eqn:Eg.
  - destruct Hscene as [-> _]. right. eapply geom_built. exact Eg.
  - destruct Hscene as [-> _]. exact Hs.
Qed.

Lemma rebuild_consistent (traced : list Contour) (name : JSString)
    (st : State) (i : nat) (cnt : Contour) :
  consistent traced name st ->
  get traced i = Some cnt ->
  consistent traced name (fst (rebuild st cnt)).
Proof.
  intros (Hc & Hn & _ & Hs & Hd) Hi.
  pose proof (rebuild_frame st cnt) as (_ & _ & Fc & _).
  pose proof (rebuild_keeps st cnt) as (Kn & Kd & _).
  cbn zeta in *.
  unfold consistent. rewrite Fc, Kn, Kd, rebuild_lastCnt.
  split; [exact Hc|]. split; [exact Hn|]. split; [right; eauto|].
  split; [|exact Hd]. now apply rebuild_scene_built.
Qed.

Lemma handle_consistent (traced : list Contour) (name : JSString)
    (st : State) (ev : Event) :
  consistent traced name st -> consistent traced name (handle st ev).
Proof.
  intros Hst. destruct ev as [clientX clientY rectLeft rectTop| |cfg];
    cbn [handle].
  - destruct (click_outcome st (clientX - rectLeft) (clientY - rectTop))
      as [[c ->]|[(img & i & cnt & Hi & ->)|(img & ->)]]; [exact Hst| |].
    + destruct Hst as (Hc & Hrest). rewrite Hc in Hi.
      apply (rebuild_consistent traced name (imshow st img) i cnt);
        [|exact Hi].
      split; [exact Hc|exact Hrest].
    + destruct Hst as (Hc & Hn & _ & Hs & Hd).
      split; [exact Hc|]. split; [exact Hn|]. split; [now left|].
      split; [exact Hs|exact Hd].
  - unfold saveTextAsFile, generateSTL.
    destruct (lastCnt st) as [cnt|] eqn:El; [|exact Hst].
    destruct (Assembler.geom (cookieState st) cnt) as [g|e] eqn:Eg;
      [|exact Hst].
    destruct Hst as (Hc & Hn & Hl & Hs & Hd). cbn.
    unfold consistent. cbn. rewrite El in *.
    split; [exact Hc|]. split; [exact Hn|]. split; [exact Hl|].
    pose proof (geom_built _ _ _ Eg) as Hb.
    split; [now right|]. apply Forall_app. split; [exact Hd|].
    constructor; [|constructor]. cbn. split; [|exact Hb].
    unfold Exporter.fileNameToSaveAs. now rewrite Hn.
  - exact Hst.
Qed.

Lemma processImage_consistent (img : Mat) (name : JSString)
    (cfg : CookieState.t) :
  consistent
    (findContours
       (adaptiveThreshold
          (cvtColor (copyMakeBorder img 10 BORDER_WRAP) COLOR_RGBA2GRAY)))
    name (processImage img name cfg).
Proof.
  unfold processImage.
  pose proof (onImageLoad_stores (entered img name cfg))
    as (Hc & _ & _ & _ & _ & Hn & Hd).
  pose proof (onImageLoad_cases (entered img name cfg)) as H.
  cbn zeta in Hc, Hn, Hd, H.
  cbn [imgElement saveFilename downloads entered] in Hc, Hn, Hd, H.
  set (traced := findContours _) in *.
  unfold consistent. rewrite Hc, Hn, Hd.
  split; [reflexivity|]. split; [reflexivity|].
  destruct H as [shown H].
  destruct (get traced _) as [cnt|] eqn:E.
  - rewrite H.
    rewrite rebuild_lastCnt. split; [right; eauto|]. split; [|constructor].
    apply rebuild_scene_built. now left.
  - destruct H as [_ ->]. cbn.
    split; [now left|]. split; [now left|constructor].
Qed.

End EventFacts.

(** X17.  Through every sequence of canvas clicks, export clicks and
    configuration changes that follows [processImage]: the active boundary
    is absent or one of the boundaries traced on the image; the scene is
    empty or one mesh of two or three extrusions, each on a shape with
    exactly one hole, with one light; and every file offered carries such a
    scene under the sanitised name followed by [.stl]. *)
Theorem session_stays_consistent `{cv : OpenCV} (img : Mat)
    (name : JSString) (cfg : CookieState.t) (events : list Events.Event) :
  let traced :=
    findContours
      (adaptiveThreshold
         (cvtColor (copyMakeBorder img 10 BORDER_WRAP) COLOR_RGBA2GRAY)) in
  let st := Events.run (Events.processImage img name cfg) events in
  (App.lastCnt st = None
   \/ exists i c, get traced i = Some c /\ App.lastCnt st = Some c)
  /\ (App.scene st = [] \/ Events.built (App.scene st))
  /\ Forall (fun d : JSString * list Object3D =>
               fst d = Exporter.sanitizedFilename name ++ codeUnits ".stl"
               /\ Events.built (snd d))
            (App.downloads st)
  /\ App.contours st = traced
  /\ App.saveFilename st = name.
Proof.
  cbn zeta.
  enough (H : Events.consistent
                (findContours
                   (adaptiveThreshold
                      (cvtColor (copyMakeBorder img 10 BORDER_WRAP)
                         COLOR_RGBA2GRAY)))
                name (Events.run (Events.processImage img name cfg) events))
    by (destruct H as (? & ? & ? & ? & ?); tauto).
  unfold Events.run.
  generalize (processImage_consistent img name cfg).
  generalize (Events.processImage img name cfg).
  induction events as [|ev events IH]; intros st Hst; [exact Hst|].
  cbn [fold_left]. apply IH. now apply handle_consistent.
Qed.
